(** * The Come Near data-lake ingester, [ingester_cn_only.py]

    A shallow embedding of [CNIngester]: the text normaliser, pair
    discovery, the curator, the manifest writer and the ingestion
    workflow, over a model of the S3 bucket the ingester talks to.

    Conventions.
    - A Python [str] is a list of code points ([N]); [bytes] is a list of
      [byte].  Object keys are [string]s.
    - The bucket is an explicit [World]: a finite map from keys to
      objects, a schedule of faults (one entry per client call), the
      trace of client calls and the captured standard output.
    - A Python call that may raise is a function
      [World -> Outcome A * World]. *)

From Stdlib Require Import ZArith NArith List String Ascii Lia Bool.
From Stdlib Require Import Strings.Byte.
From stdpp Require Import base option list strings gmap sorting pretty.
Import ListNotations.

Local Open Scope N_scope.

(** ** Python values *)

(** A [str]: a sequence of Unicode code points. *)
Abbreviation str := (list N).
(** A [bytes] object. *)
Abbreviation bytes := (list byte).

(** What [normalize_text] may be handed: its annotation says [str], its
    body also accepts [bytes] ([isinstance(content, bytes)]). *)
Inductive Content :=
| Bytes (b : bytes)
| Text (s : str).

Module Unicode.

Definition LF : N := 10.
Definition CR : N := 13.
Definition SPACE : N := 32.
Definition BOM : N := 0xFEFF.
Definition REPLACEMENT : N := 0xFFFD.

Definition between (lo hi c : N) : bool := (lo <=? c) && (c <=? hi).

(** [unicodedata.category(c) == 'Cf'], Unicode Character Database 14.0
    (the ranges of general category Cf). *)
Definition category_Cf (c : N) : bool :=
  (c =? 0xAD) || between 0x600 0x605 c || (c =? 0x61C) || (c =? 0x6DD)
  || (c =? 0x70F) || between 0x890 0x891 c || (c =? 0x8E2) || (c =? 0x180E)
  || between 0x200B 0x200F c || between 0x202A 0x202E c
  || between 0x2060 0x2064 c || between 0x2066 0x206F c || (c =? 0xFEFF)
  || between 0xFFF9 0xFFFB c || (c =? 0x110BD) || (c =? 0x110CD)
  || between 0x13430 0x13438 c || between 0x1BCA0 0x1BCA3 c
  || between 0x1D173 0x1D17A c || (c =? 0xE0001) || between 0xE0020 0xE007F c.

(** The characters [str.strip()] removes when called without argument
    ([str.isspace] on one character). *)
Definition isspace (c : N) : bool :=
  between 9 13 c || between 28 32 c || (c =? 0x85) || (c =? 0xA0)
  || (c =? 0x1680) || between 0x2000 0x200A c || (c =? 0x2028)
  || (c =? 0x2029) || (c =? 0x202F) || (c =? 0x205F) || (c =? 0x3000).

(** *** UTF-8 *)

Definition is_continuation (b : N) : bool := between 0x80 0xBF b.

(** The second byte of a three-byte sequence: [E0] needs [A0..BF], [ED]
    needs [80..9F] (no surrogates). *)
Definition second_of_3 (b0 b1 : N) : bool :=
  is_continuation b1
  && negb (if b1 <? 0xA0 then b0 =? 0xE0 else b0 =? 0xED).

(** The second byte of a four-byte sequence: [F0] needs [90..BF], [F4]
    needs [80..8F]. *)
Definition second_of_4 (b0 b1 : N) : bool :=
  is_continuation b1
  && negb (if b1 <? 0x90 then b0 =? 0xF0 else b0 =? 0xF4).

Definition low6 (b : N) : N := N.land b 0x3F.

(** [bytes.decode('utf-8', errors='replace')] on the numeric values of
    the bytes: every maximal ill-formed subsequence becomes one
    U+FFFD, and a truncated sequence at the end of the input becomes
    one U+FFFD as a whole. *)
Fixpoint decode_replace_N (bs : list N) : str :=
  match bs with
  | [] => []
  | b0 :: r =>
    if b0 <? 0x80 then b0 :: decode_replace_N r
    else if b0 <? 0xC2 then REPLACEMENT :: decode_replace_N r
    else if b0 <? 0xE0 then
      match r with
      | [] => [REPLACEMENT]
      | b1 :: r1 =>
        if is_continuation b1
        then (N.shiftl (N.land b0 0x1F) 6 + low6 b1) :: decode_replace_N r1
        else REPLACEMENT :: decode_replace_N r
      end
    else if b0 <? 0xF0 then
      match r with
      | [] => [REPLACEMENT]
      | b1 :: r1 =>
        if second_of_3 b0 b1 then
          match r1 with
          | [] => [REPLACEMENT]
          | b2 :: r2 =>
            if is_continuation b2
            then (N.shiftl (N.land b0 0x0F) 12 + N.shiftl (low6 b1) 6 + low6 b2)
                   :: decode_replace_N r2
            else REPLACEMENT :: decode_replace_N r1
          end
        else REPLACEMENT :: decode_replace_N r
      end
    else if b0 <? 0xF5 then
      match r with
      | [] => [REPLACEMENT]
      | b1 :: r1 =>
        if second_of_4 b0 b1 then
          match r1 with
          | [] => [REPLACEMENT]
          | b2 :: r2 =>
            if is_continuation b2 then
              match r2 with
              | [] => [REPLACEMENT]
              | b3 :: r3 =>
                if is_continuation b3
                then (N.shiftl (N.land b0 0x07) 18 + N.shiftl (low6 b1) 12
                      + N.shiftl (low6 b2) 6 + low6 b3) :: decode_replace_N r3
                else REPLACEMENT :: decode_replace_N r2
              end
            else REPLACEMENT :: decode_replace_N r1
          end
        else REPLACEMENT :: decode_replace_N r
      end
    else REPLACEMENT :: decode_replace_N r
  end.

Definition decode_replace (b : bytes) : str :=
  decode_replace_N (map Byte.to_N b).

Definition byte_of_N (n : N) : byte :=
  match Byte.of_N (n mod 256) with Some b => b | None => x00 end.

(** The UTF-8 encoding of one code point; [None] is the
    [UnicodeEncodeError] of a lone surrogate (or of a value that is no
    code point). *)
Definition encode_codepoint (c : N) : option bytes :=
  if c <? 0x80 then Some [byte_of_N c]
  else if c <? 0x800 then
    Some [byte_of_N (0xC0 + N.shiftr c 6); byte_of_N (0x80 + low6 c)]
  else if c <? 0x10000 then
    if between 0xD800 0xDFFF c then None
    else Some [byte_of_N (0xE0 + N.shiftr c 12);
               byte_of_N (0x80 + low6 (N.shiftr c 6));
               byte_of_N (0x80 + low6 c)]
  else if c <? 0x110000 then
    Some [byte_of_N (0xF0 + N.shiftr c 18);
          byte_of_N (0x80 + low6 (N.shiftr c 12));
          byte_of_N (0x80 + low6 (N.shiftr c 6));
          byte_of_N (0x80 + low6 c)]
  else None.

(** [str.encode('utf-8')]. *)
Fixpoint encode (s : str) : option bytes :=
  match s with
  | [] => Some []
  | c :: r =>
    match encode_codepoint c, encode r with
    | Some b, Some br => Some (b ++ br)
    | _, _ => None
    end
  end.

End Unicode.

(** ** The string operations of [normalize_text] *)

Module Text.
Import Unicode.

(** [s.lstrip(c)] for a one-character argument: drop the leading run
    of [c]. *)
Fixpoint lstrip_char (c : N) (s : str) : str :=
  match s with
  | [] => []
  | x :: r => if x =? c then lstrip_char c r else s
  end.

(** [''.join(char for char in s if unicodedata.category(char) != 'Cf')]. *)
Definition remove_Cf (s : str) : str :=
  List.filter (fun c => negb (category_Cf c)) s.

(** [re.sub(r' +', ' ', s)]: every maximal run of U+0020 is replaced by
    one U+0020, that is, a space followed by a space is dropped. *)
Fixpoint sub_spaces (s : str) : str :=
  match s with
  | [] => []
  | c :: r =>
    match r with
    | c1 :: _ =>
      if (c =? SPACE) && (c1 =? SPACE) then sub_spaces r
      else c :: sub_spaces r
    | [] => [c]
    end
  end.

(** [s.replace('\r\n', '\n')]: non-overlapping occurrences, left to
    right. *)
Fixpoint replace_crlf (s : str) : str :=
  match s with
  | [] => []
  | c :: r =>
    match r with
    | c1 :: r1 =>
      if (c =? CR) && (c1 =? LF) then LF :: replace_crlf r1
      else c :: replace_crlf r
    | [] => [c]
    end
  end.

(** [s.replace('\r', '\n')]. *)
Definition replace_cr (s : str) : str :=
  map (fun c => if c =? CR then LF else c) s.

(** [re.sub(r'\n\n+', '\n\n', s)]: every maximal run of two or more
    newlines is replaced by two, that is, a newline followed by two
    newlines is dropped. *)
Fixpoint sub_blank_lines (s : str) : str :=
  match s with
  | [] => []
  | c :: r =>
    match r with
    | c1 :: c2 :: _ =>
      if (c =? LF) && (c1 =? LF) && (c2 =? LF) then sub_blank_lines r
      else c :: sub_blank_lines r
    | _ => c :: sub_blank_lines r
    end
  end.

(** [s.lstrip()], [s.rstrip()], [s.strip()]. *)
Fixpoint lstrip (s : str) : str :=
  match s with
  | [] => []
  | c :: r => if isspace c then lstrip r else s
  end.

Definition rstrip (s : str) : str := rev (lstrip (rev s)).

Definition strip (s : str) : str := rstrip (lstrip s).

End Text.

(** ** [CNIngester.normalize_text] *)

Section Normalizer.

(** [unicodedata.normalize('NFC', _)], a function of the Python
    runtime: the development holds for every such function. *)
Variable NFC : str -> str.

(** Everything [normalize_text] does after composing: BOM, format
    characters, spaces, line breaks, blank lines, outer whitespace. *)
Definition normalize_composed (content : str) : str :=
  let content := Text.lstrip_char Unicode.BOM content in
  let content := Text.remove_Cf content in
  let content := Text.sub_spaces content in
  let content := Text.replace_cr (Text.replace_crlf content) in
  let content := Text.sub_blank_lines content in
  Text.strip content.

Definition normalize_text (content : Content) : str :=
  let content :=
    match content with
    | Bytes b => Unicode.decode_replace b
    | Text s => s
    end in
  let content := NFC content in
  normalize_composed content.

End Normalizer.

(** ** [hashlib.sha256(_).hexdigest()] (FIPS 180-4) *)

Module Sha256.

Definition w32 (x : N) : N := x mod 2 ^ 32.
Definition rotr (n x : N) : N :=
  N.lor (N.shiftr x n) (w32 (N.shiftl x (32 - n))).
Definition Ch (x y z : N) : N :=
  N.lxor (N.land x y) (N.land (N.lxor x (N.ones 32)) z).
Definition Maj (x y z : N) : N :=
  N.lxor (N.lxor (N.land x y) (N.land x z)) (N.land y z).
Definition Sigma0 (x : N) : N :=
  N.lxor (N.lxor (rotr 2 x) (rotr 13 x)) (rotr 22 x).
Definition Sigma1 (x : N) : N :=
  N.lxor (N.lxor (rotr 6 x) (rotr 11 x)) (rotr 25 x).
Definition sigma0 (x : N) : N :=
  N.lxor (N.lxor (rotr 7 x) (rotr 18 x)) (N.shiftr x 3).
Definition sigma1 (x : N) : N :=
  N.lxor (N.lxor (rotr 17 x) (rotr 19 x)) (N.shiftr x 10).

(** The round constants are the first 32 bits of the fractional parts
    of the cube roots of the first 64 primes, the initial hash value
    those of the square roots of the first 8. *)
Definition primes : list N :=
  [2; 3; 5; 7; 11; 13; 17; 19; 23; 29; 31; 37; 41; 43; 47; 53;
   59; 61; 67; 71; 73; 79; 83; 89; 97; 101; 103; 107; 109; 113; 127; 131;
   137; 139; 149; 151; 157; 163; 167; 173; 179; 181; 191; 193; 197; 199;
   211; 223; 227; 229; 233; 239; 241; 251; 257; 263; 269; 271; 277; 281;
   283; 293; 307; 311].

(** The integer cube root of [n < 2 ^ 105], one bit at a time. *)
Definition cube_root (n : N) : N :=
  fold_left (fun r i => let r' := r + 2 ^ i in
                        if r' * r' * r' <=? n then r' else r)
            (rev (map N.of_nat (seq 0 35))) 0.

Definition K : list N :=
  Eval vm_compute in map (fun p => w32 (cube_root (p * 2 ^ 96))) primes.

Definition H0 : list N :=
  Eval vm_compute in map (fun p => w32 (N.sqrt (p * 2 ^ 64))) (firstn 8 primes).

(** Big-endian bytes of [x], [n] of them. *)
Fixpoint be_bytes (n : nat) (x : N) : list N :=
  match n with
  | O => []
  | S n' => N.shiftr x (8 * N.of_nat n') mod 256 :: be_bytes n' x
  end.

(** The message, a single 1 bit, zeros up to 56 modulo 64 bytes, and
    the length in bits as a 64-bit number. *)
Definition pad (msg : list N) : list N :=
  let len := N.of_nat (length msg) in
  msg ++ [0x80] ++ repeat 0 (N.to_nat ((119 - len mod 64) mod 64))
      ++ be_bytes 8 (8 * len).

(** The 32-bit big-endian words of a byte string; the recursion is on
    a bound for the number of words. *)
Fixpoint words (fuel : nat) (bs : list N) : list N :=
  match fuel, bs with
  | S fuel', a :: b :: c :: d :: r =>
    (a * 2 ^ 24 + b * 2 ^ 16 + c * 2 ^ 8 + d) :: words fuel' r
  | _, _ => []
  end.

(** The blocks of sixteen words. *)
Fixpoint blocks (fuel : nat) (ws : list N) : list (list N) :=
  match fuel, ws with
  | S fuel', _ :: _ => firstn 16 ws :: blocks fuel' (skipn 16 ws)
  | _, _ => []
  end.

(** The message schedule: [n] more words after those of [W]. *)
Fixpoint schedule (n : nat) (W : list N) : list N :=
  match n with
  | O => W
  | S n' =>
    let t := length W in
    schedule n' (W ++ [w32 (sigma1 (nth (t - 2) W 0) + nth (t - 7) W 0
                            + sigma0 (nth (t - 15) W 0) + nth (t - 16) W 0)])
  end.

Record Regs := { ra : N; rb : N; rc : N; rd : N; re : N; rf : N; rg : N; rh : N }.

Definition round (s : Regs) (kw : N * N) : Regs :=
  let t1 := rh s + Sigma1 (re s) + Ch (re s) (rf s) (rg s) + fst kw + snd kw in
  let t2 := Sigma0 (ra s) + Maj (ra s) (rb s) (rc s) in
  {| ra := w32 (t1 + t2); rb := ra s; rc := rb s; rd := rc s;
     re := w32 (rd s + t1); rf := re s; rg := rf s; rh := rg s |}.

Definition regs_of (h : list N) : Regs :=
  {| ra := nth 0 h 0; rb := nth 1 h 0; rc := nth 2 h 0; rd := nth 3 h 0;
     re := nth 4 h 0; rf := nth 5 h 0; rg := nth 6 h 0; rh := nth 7 h 0 |}.

Definition compress (h : list N) (block : list N) : list N :=
  let s := fold_left round (combine K (schedule 48 block)) (regs_of h) in
  map (fun p => w32 (fst p + snd p))
      (combine h [ra s; rb s; rc s; rd s; re s; rf s; rg s; rh s]).

Definition digest_words (msg : list N) : list N :=
  let padded := pad msg in
  fold_left compress (blocks (length padded) (words (length padded) padded)) H0.

Definition hex_digit (d : N) : ascii :=
  ascii_of_N (if d <? 10 then 48 + d else 87 + d).

Fixpoint hex (n : nat) (x : N) : string :=
  match n with
  | O => EmptyString
  | S n' => String (hex_digit (N.shiftr x (4 * N.of_nat n') mod 16)) (hex n' x)
  end.

Definition hexdigest (content : bytes) : string :=
  fold_right (fun w acc => String.append (hex 8 w) acc) EmptyString
             (digest_words (map Byte.to_N content)).

End Sha256.

(** ** Object keys *)

Module Key.
Local Open Scope string_scope.

(** [s.endswith(suffix)]: [s] is [suffix], or its tail ends with it. *)
Fixpoint endswith (s suffix : string) : bool :=
  String.eqb s suffix
  || match s with
     | EmptyString => false
     | String _ r => endswith r suffix
     end.

(** [s[:-n]] for [n > 0]. *)
Definition drop_last (n : nat) (s : string) : string :=
  substring 0 (String.length s - n) s.

(** [s.startswith(prefix)]. *)
Definition startswith (s prefix : string) : bool := String.prefix prefix s.

(** [p[p.rfind('/') + 1:]] when [p] has a slash. *)
Fixpoint after_last_slash (p : string) : option string :=
  match p with
  | EmptyString => None
  | String c r =>
    match after_last_slash r with
    | Some t => Some t
    | None => if Ascii.eqb c "/" then Some r else None
    end
  end.

(** [os.path.basename(p)] (posixpath). *)
Definition basename (p : string) : string :=
  match after_last_slash p with
  | Some t => t
  | None => p
  end.

(** [s.replace(old, new)] for a non-empty [old], left to right without
    overlap; the recursion is on a bound for the length of [s]. *)
Fixpoint replace_fuel (fuel : nat) (old new s : string) : string :=
  match fuel with
  | O => s
  | S fuel' =>
    if String.prefix old s
    then new +:+ replace_fuel fuel' old new
                   (substring (String.length old)
                              (String.length s - String.length old) s)
    else match s with
         | EmptyString => EmptyString
         | String c r => String c (replace_fuel fuel' old new r)
         end
  end.

Definition replace (old new s : string) : string :=
  replace_fuel (String.length s) old new s.

End Key.

(** ** The bucket and the runtime around the ingester *)

(** What a client call raises: a [botocore.exceptions.ClientError] with
    its [response['Error']['Code']], or any other [Exception]. *)
Inductive Exn :=
| ClientError (code : string)
| OtherError (what : string).

Inductive Outcome (A : Type) :=
| Return (a : A)
| Raise (e : Exn).
Arguments Return {A} a.
Arguments Raise {A} e.

Record S3Object := {
  Body : bytes;
  ContentType : option string;
  Tagging : option string
}.

(** The client calls the ingester issues, all on [self.bucket_name]. *)
Inductive Call :=
| HeadBucket
| PutObject (key : string) (body : bytes) (content_type : string)
            (tagging : option string)
| GetObject (key : string)
| HeadObject (key : string)
| ListObjectsV2 (prefix : string) (page : nat).

(** [datetime.now(timezone.utc)], through the two renderings the code
    asks for. *)
Record Datetime := {
  strftime_Ymd : string;
  isoformat : string
}.

(** One constructor per [print] of the source. *)
Inductive Line :=
| BucketVerified (bucket : string)
| HealthWritten (key : string)
| HealthFailed (e : Exn)
| IncompletePair (base_key missing : string)
| FoundPairs (n : nat) (prefix : string)
| DiscoveryFailed (e : Exn)
| ObjectInfoFailed (key : string) (e : Exn)
| CuratedExists (curated_key : string)
| TaggingDenied (curated_key : string)
| CuratedWritten (curated_key : string)
| CurateFailed (txt_key : string) (e : Exn)
| ManifestWritten (manifest_key : string)
| BatchId (batch_id : string)
| EntriesCount (n : nat)
| ManifestFailed (e : Exn)
| Banner
| BucketLine (bucket : string)
| PrefixLine (prefix : string)
| Blank
| NoPairsFound
| ProcessingPair (base_name : string)
| FileInfoFailed (base_key : string)
| CurateFailedFor (base_key : string)
| Processed (base_key : string)
| SummaryBanner
| ProcessedCount (n : nat)
| ManifestEntriesCount (n : nat)
| Status (success : bool)
| NoEntries
| CredentialsNotFound
| IngestionError (e : Exn).

Record World := {
  objects : gmap string S3Object;
  (** what the next client calls do: [Some e] raises [e], [None] (or an
      exhausted schedule) answers from [objects] *)
  faults : list (option Exn);
  (** the client calls issued so far, oldest first *)
  calls : list Call;
  stdout : list Line;
  clock : nat -> Datetime;
  ticks : nat
}.

(** *** Code that runs against the world *)

(** Code that cannot raise, and code that can. *)
Definition St (A : Type) : Type := World -> A * World.
Definition M (A : Type) : Type := St (Outcome A).

Definition pure {A} (a : A) : St A := fun w => (a, w).
Definition and_then {A B} (m : St A) (k : A -> St B) : St B :=
  fun w => let (a, w1) := m w in k a w1.

Definition ret {A} (a : A) : M A := pure (Return a).
Definition raise {A} (e : Exn) : M A := pure (Raise e).
Definition bind {A B} (m : M A) (k : A -> M B) : M B :=
  and_then m (fun o => match o with Return a => k a | Raise e => raise e end).
Definition lift {A} (m : St A) : M A := and_then m ret.

(** [try: m except Exception as e: handler e]. *)
Definition try_except {A} (m : M A) (handler : Exn -> St A) : St A :=
  and_then m (fun o => match o with Return a => pure a | Raise e => handler e end).

(** [try: m except ClientError as e: handler code]; any other exception
    passes through. *)
Definition try_except_ClientError {A} (m : M A) (handler : string -> M A) : M A :=
  and_then m (fun o => match o with
                       | Raise (ClientError code) => handler code
                       | _ => pure o
                       end).

Declare Scope py_scope.
Delimit Scope py_scope with py.
Notation "x <- m ;; k" := (bind m (fun x => k))
  (at level 100, m at next level, right associativity) : py_scope.
Notation "m ;; k" := (bind m (fun _ => k))
  (at level 100, right associativity) : py_scope.
Notation "x <~ m ;; k" := (and_then m (fun x => k))
  (at level 100, m at next level, right associativity) : py_scope.
Notation "m ;;; k" := (and_then m (fun _ => k))
  (at level 100, right associativity) : py_scope.

Definition record_call (c : Call) (w : World) : World :=
  {| objects := objects w; faults := faults w; calls := calls w ++ [c];
     stdout := stdout w; clock := clock w; ticks := ticks w |}.

Definition pop_fault (w : World) : World :=
  {| objects := objects w; faults := tail (faults w); calls := calls w;
     stdout := stdout w; clock := clock w; ticks := ticks w |}.

Definition store (key : string) (o : S3Object) (w : World) : World :=
  {| objects := <[key := o]> (objects w); faults := faults w; calls := calls w;
     stdout := stdout w; clock := clock w; ticks := ticks w |}.

(** [print(...)]. *)
Definition print (l : Line) : St unit := fun w =>
  (tt, {| objects := objects w; faults := faults w; calls := calls w;
          stdout := stdout w ++ [l]; clock := clock w; ticks := ticks w |}).

Definition say (l : Line) : M unit := lift (print l).

(** [datetime.now(timezone.utc)]. *)
Definition now : St Datetime := fun w =>
  (clock w (ticks w),
   {| objects := objects w; faults := faults w; calls := calls w;
      stdout := stdout w; clock := clock w; ticks := S (ticks w) |}).

(** What the schedule holds for the next client call. *)
Definition next_fault (w : World) : option Exn :=
  match faults w with
  | f :: _ => f
  | [] => None
  end.

(** A client call: it is recorded, then it raises the scheduled fault or
    is answered from the bucket. *)
Definition client_call {A} (c : Call) (answer : World -> Outcome A * World) : M A :=
  fun w =>
    let w := record_call c w in
    match next_fault w with
    | Some e => (Raise e, pop_fault w)
    | None => answer (pop_fault w)
    end.

Module s3_client.

Definition head_bucket : M unit :=
  client_call HeadBucket (fun w => (Return tt, w)).

Definition put_object (key : string) (body : bytes) (content_type : string)
           (tagging : option string) : M unit :=
  client_call (PutObject key body content_type tagging)
    (fun w => (Return tt,
               store key {| Body := body; ContentType := Some content_type;
                            Tagging := tagging |} w)).

Definition get_object (key : string) : M S3Object :=
  client_call (GetObject key)
    (fun w => match objects w !! key with
              | Some o => (Return o, w)
              | None => (Raise (ClientError "NoSuchKey"), w)
              end).

(** The response of [head_object]: [ContentLength] and [ContentType]. *)
Definition head_object (key : string) : M (nat * option string) :=
  client_call (HeadObject key)
    (fun w => match objects w !! key with
              | Some o => (Return (length (Body o), ContentType o), w)
              | None => (Raise (ClientError "404"), w)
              end).

(** A page of a listing: the keys of its ['Contents'], if it has any. *)
Definition Page : Type := option (list string).

(** The keys under [prefix], in the order S3 lists them. *)
Definition listed_keys (prefix : string) (w : World) : list string :=
  merge_sort String.le
    (List.filter (fun k => Key.startswith k prefix)
                 (map fst (map_to_list (objects w)))).

Fixpoint chunks (fuel n : nat) (l : list string) : list (list string) :=
  match fuel, l with
  | S fuel', _ :: _ => firstn n l :: chunks fuel' n (skipn n l)
  | _, _ => []
  end.

(** Pages of at most 1000 keys; an empty listing is one page without
    ['Contents']. *)
Definition pages_of (keys : list string) : list Page :=
  match keys with
  | [] => [None]
  | _ => map Some (chunks (length keys) 1000 keys)
  end.

Fixpoint fetch_pages (prefix : string) (i : nat) (ps : list Page) : M (list Page) :=
  match ps with
  | [] => ret []
  | p :: rest =>
    (p <- client_call (ListObjectsV2 prefix i) (fun w => (Return p, w)) ;;
     ps <- fetch_pages prefix (S i) rest ;;
     ret (p :: ps))%py
  end.

(** [get_paginator('list_objects_v2').paginate(Prefix=prefix)], drawn
    to its end: one client call per page. *)
Definition paginate (prefix : string) : M (list Page) :=
  fun w => fetch_pages prefix 0 (pages_of (listed_keys prefix w)) w.

End s3_client.

(** ** [class CNIngester] *)

Record CNIngester := {
  bucket_name : string;
  region : string;
  schema_version : N;
  ingester_info : string * string
}.

(** The attributes [CNIngester.__init__] sets, from [os.environ].  The
    call of [boto3.client] in it can raise, and no ingester is made then:
    [construct], further down, is the constructor with that call. *)
Definition init (environ : gmap string string) : CNIngester :=
  {| bucket_name := default "cn-rainier-data-lake"%string (environ !! "PARTNER_BUCKET"%string);
     region := default "us-east-1"%string (environ !! "AWS_DEFAULT_REGION"%string);
     schema_version := 1;
     ingester_info := ("parallax-ingester", "0.1.0")%string |}.

Definition health_key : string := "parallax/health/healthcheck.txt".

(** [CNIngester.health_check]. *)
Definition health_check (self : CNIngester) : St bool :=
  try_except
    (s3_client.head_bucket ;;
     say (BucketVerified (bucket_name self)) ;;
     timestamp <- lift now ;;
     let health_content :=
       ("Health check at " +:+ isoformat timestamp +:+ String "010" EmptyString)%string in
     s3_client.put_object health_key (list_byte_of_string health_content)
                          "text/plain" None ;;
     say (HealthWritten health_key) ;;
     ret true)%py
    (fun e => print (HealthFailed e) ;;; pure false)%py.

(** *** [CNIngester.discover_pairs] *)

(** The inner dictionaries of [files_by_base]. *)
Record Files := { json : option string; txt : option string }.

(** A Python [dict] with string keys, in insertion order. *)
Fixpoint dict_get {V} (k : string) (d : list (string * V)) : option V :=
  match d with
  | [] => None
  | (k', v) :: r => if String.eqb k' k then Some v else dict_get k r
  end.

(** [d[k] = v]: in place when [k] is a key of [d], at the end otherwise. *)
Fixpoint dict_set {V} (k : string) (v : V) (d : list (string * V)) : list (string * V) :=
  match d with
  | [] => [(k, v)]
  | (k', v') :: r =>
    if String.eqb k' k then (k, v) :: r else (k', v') :: dict_set k v r
  end.

(** The body of the inner loop, for one listed key. *)
Definition observe (files_by_base : list (string * Files)) (key : string)
  : list (string * Files) :=
  if Key.endswith key ".json" || Key.endswith key ".txt" then
    let base_key :=
      if Key.endswith key ".json" then Key.drop_last 5 key
      else Key.drop_last 4 key in
    let files_by_base :=
      match dict_get base_key files_by_base with
      | None => dict_set base_key {| json := None; txt := None |} files_by_base
      | Some _ => files_by_base
      end in
    let files := default {| json := None; txt := None |}
                         (dict_get base_key files_by_base) in
    if Key.endswith key ".json" then
      dict_set base_key {| json := Some key; txt := txt files |} files_by_base
    else if Key.endswith key ".txt" then
      dict_set base_key {| json := json files; txt := Some key |} files_by_base
    else files_by_base
  else files_by_base.

(** The loop over the pages: a page without ['Contents'] is skipped. *)
Definition scan (pages : list s3_client.Page) : list (string * Files) :=
  fold_left (fun files_by_base page =>
               match page with
               | None => files_by_base
               | Some contents => fold_left observe contents files_by_base
               end)
            pages [].

Definition Pair : Type := string * string * string.

(** The loop over [files_by_base.items()]: the complete pairs, and what
    is printed meanwhile. *)
Fixpoint complete_pairs (items : list (string * Files)) : list Pair * list Line :=
  match items with
  | [] => ([], [])
  | (base_key, files) :: rest =>
    let (pairs, lines) := complete_pairs rest in
    match json files, txt files with
    | Some json_key, Some txt_key => ((base_key, json_key, txt_key) :: pairs, lines)
    | j, _ =>
      let missing := match j with Some _ => "txt" | None => "json" end in
      (pairs, IncompletePair base_key missing :: lines)
    end
  end.

Fixpoint print_all (lines : list Line) : St unit :=
  match lines with
  | [] => pure tt
  | l :: rest => (print l ;;; print_all rest)%py
  end.

(** The handler discards whatever the loop had gathered, and the loop
    touches locals only: the pages are drawn first, then grouped. *)
Definition discover_pairs (self : CNIngester) (prefix : string) : St (list Pair) :=
  try_except
    (pages <- s3_client.paginate prefix ;;
     let files_by_base := scan pages in
     let (pairs, lines) := complete_pairs files_by_base in
     lift (print_all lines) ;;
     say (FoundPairs (length pairs) prefix) ;;
     ret pairs)%py
    (fun e => print (DiscoveryFailed e) ;;; pure [])%py.

(** *** [CNIngester.get_object_info] *)

Record ObjectInfo := {
  info_key : string;
  info_size_bytes : nat;
  info_content_type : string;
  info_checksum : string;
  info_content : bytes
}.

(** [CNIngester.calculate_sha256]. *)
Definition calculate_sha256 (content : bytes) : string :=
  Sha256.hexdigest content.

Definition get_object_info (self : CNIngester) (key : string) : St (option ObjectInfo) :=
  try_except
    (response <- s3_client.head_object key ;;
     obj_response <- s3_client.get_object key ;;
     let content := Body obj_response in
     ret (Some {| info_key := key;
                  info_size_bytes := fst response;
                  info_content_type :=
                    default "application/octet-stream"%string (snd response);
                  info_checksum := ("sha256:" +:+ calculate_sha256 content)%string;
                  info_content := content |}))%py
    (fun e => print (ObjectInfoFailed key e) ;;; pure None)%py.

(** *** Manifest records *)

Record CurationResult := {
  curated_key : string;
  curated_size_bytes : nat;
  curated_checksum : string
}.

Record ManifestEntry := {
  entry_key : string;
  entry_type : string;
  entry_size_bytes : nat;
  entry_checksum : string;
  entry_content_type : string;
  entry_pii : string;
  entry_status : string;
  (** ['curated_key'], ['curated_checksum'], ['curated_size_bytes'] of a
      text entry *)
  entry_curated : option CurationResult
}.

Record Manifest := {
  manifest_schema_version : N;
  manifest_batch_id : string;
  manifest_dt : string;
  manifest_source_bucket : string;
  manifest_source_prefix : string;
  manifest_ingester : string * string;
  manifest_entries : list ManifestEntry
}.

(** [f"curated/{os.path.basename(base_key)}.norm.txt"]. *)
Definition curated_key_of (base_key : string) : string :=
  ("curated/" +:+ Key.basename base_key +:+ ".norm.txt")%string.

Definition curated_tagging : string :=
  "project=come-near&source=transcribe&schema_version=1".

Definition curated_content_type : string := "text/plain; charset=utf-8".

Section Ingester.

(** Two functions of the Python runtime:
    [unicodedata.normalize('NFC', _)] and [json.dumps(_, indent=2)]. *)
Variable NFC : str -> str.
Variable json_dumps : Manifest -> str.

(** [s.encode('utf-8')], which raises on a lone surrogate. *)
Definition encode_utf8 (s : str) : M bytes :=
  match Unicode.encode s with
  | Some b => ret b
  | None => raise (OtherError "UnicodeEncodeError")
  end.

(** The first inner [try] of [curate_file]: the result to return when
    the curated object is there with the same checksum. *)
Definition existing_curation (curated_key : string) (normalized_bytes : bytes)
  : M (option CurationResult) :=
  try_except_ClientError
    (existing_obj <- s3_client.get_object curated_key ;;
     let existing_content := Body existing_obj in
     let existing_checksum := calculate_sha256 existing_content in
     let new_checksum := calculate_sha256 normalized_bytes in
     if String.eqb existing_checksum new_checksum then
       say (CuratedExists curated_key) ;;
       ret (Some {| curated_key := curated_key;
                    curated_size_bytes := length normalized_bytes;
                    curated_checksum := ("sha256:" +:+ new_checksum)%string |})
     else ret None)%py
    (fun code => if negb (String.eqb code "NoSuchKey") then raise (ClientError code)
                 else ret None).

(** The second inner [try]: the tagged write and its fallback. *)
Definition write_curated (curated_key : string) (normalized_bytes : bytes) : M unit :=
  try_except_ClientError
    (s3_client.put_object curated_key normalized_bytes curated_content_type
                          (Some curated_tagging))
    (fun code =>
       if String.eqb code "AccessDenied" || String.eqb code "InvalidTag" then
         (say (TaggingDenied curated_key) ;;
          s3_client.put_object curated_key normalized_bytes curated_content_type None)%py
       else raise (ClientError code)).

(** [CNIngester.curate_file]. *)
Definition curate_file (self : CNIngester) (base_key txt_key : string)
           (txt_info : ObjectInfo) : St (option CurationResult) :=
  try_except
    (let original_content := Unicode.decode_replace (info_content txt_info) in
     let normalized_content := normalize_text NFC (Text original_content) in
     normalized_bytes <- encode_utf8 normalized_content ;;
     let curated_key := curated_key_of base_key in
     existing <- existing_curation curated_key normalized_bytes ;;
     match existing with
     | Some result => ret (Some result)
     | None =>
       write_curated curated_key normalized_bytes ;;
       say (CuratedWritten curated_key) ;;
       ret (Some {| curated_key := curated_key;
                    curated_size_bytes := length normalized_bytes;
                    curated_checksum :=
                      ("sha256:" +:+ calculate_sha256 normalized_bytes)%string |})
     end)%py
    (fun e => print (CurateFailed txt_key e) ;;; pure None)%py.

(** [CNIngester.write_manifest]. *)
Definition write_manifest (self : CNIngester) (entries : list ManifestEntry)
           (source_prefix : string) : St bool :=
  try_except
    (now <- lift now ;;
     let dt := strftime_Ymd now in
     let batch_id := ("ingest-" +:+ Key.replace "+00:00" "Z" (isoformat now))%string in
     let manifest :=
       {| manifest_schema_version := schema_version self;
          manifest_batch_id := batch_id;
          manifest_dt := dt;
          manifest_source_bucket := bucket_name self;
          manifest_source_prefix := source_prefix;
          manifest_ingester := ingester_info self;
          manifest_entries := entries |} in
     let manifest_key := ("manifests/dt=" +:+ dt +:+ "/" +:+ batch_id +:+ ".json")%string in
     let manifest_content := json_dumps manifest in
     body <- encode_utf8 manifest_content ;;
     s3_client.put_object manifest_key body "application/json" None ;;
     say (ManifestWritten manifest_key) ;;
     say (BatchId batch_id) ;;
     say (EntriesCount (length entries)) ;;
     ret true)%py
    (fun e => print (ManifestFailed e) ;;; pure false)%py.

End Ingester.

(** *** [CNIngester.ingest] and [main] *)

Definition json_entry (json_info : ObjectInfo) : ManifestEntry :=
  {| entry_key := info_key json_info;
     entry_type := "aws_transcribe_json";
     entry_size_bytes := info_size_bytes json_info;
     entry_checksum := info_checksum json_info;
     entry_content_type := info_content_type json_info;
     entry_pii := "low";
     entry_status := "ingested";
     entry_curated := None |}.

Definition txt_entry (txt_info : ObjectInfo) (curation_result : CurationResult)
  : ManifestEntry :=
  {| entry_key := info_key txt_info;
     entry_type := "minutes_txt";
     entry_size_bytes := info_size_bytes txt_info;
     entry_checksum := info_checksum txt_info;
     entry_content_type := info_content_type txt_info;
     entry_pii := "low";
     entry_status := "ingested";
     entry_curated :=
       Some {| curated_key := curated_key curation_result;
               curated_size_bytes := curated_size_bytes curation_result;
               curated_checksum := curated_checksum curation_result |} |}.

Section Workflow.

Variable NFC : str -> str.
Variable json_dumps : Manifest -> str.

(** The body of the loop over the pairs, on the two locals it updates:
    [manifest_entries] and [processed_count]. *)
Definition process_pair (self : CNIngester) (locals : list ManifestEntry * nat)
           (pair : Pair) : St (list ManifestEntry * nat) :=
  let '(manifest_entries, processed_count) := locals in
  let '(base_key, json_key, txt_key) := pair in
  (print (ProcessingPair (Key.basename base_key)) ;;;
   json_info <~ get_object_info self json_key ;;
   txt_info <~ get_object_info self txt_key ;;
   match json_info, txt_info with
   | Some json_info, Some txt_info =>
     curation_result <~ curate_file NFC self base_key txt_key txt_info ;;
     match curation_result with
     | Some curation_result =>
       let manifest_entries := manifest_entries ++ [json_entry json_info] in
       let manifest_entries :=
         manifest_entries ++ [txt_entry txt_info curation_result] in
       print (Processed base_key) ;;;
       print Blank ;;;
       pure (manifest_entries, S processed_count)
     | None =>
       print (CurateFailedFor base_key) ;;;
       pure (manifest_entries, processed_count)
     end
   | _, _ =>
     print (FileInfoFailed base_key) ;;;
     pure (manifest_entries, processed_count)
   end)%py.

Fixpoint process_pairs (self : CNIngester) (pairs : list Pair)
         (locals : list ManifestEntry * nat) : St (list ManifestEntry * nat) :=
  match pairs with
  | [] => pure locals
  | p :: rest =>
    (locals <~ process_pair self locals p ;;
     process_pairs self rest locals)%py
  end.

Definition ingest (self : CNIngester) (prefix : string) : St bool :=
  (print Banner ;;;
   print (BucketLine (bucket_name self)) ;;;
   print (PrefixLine prefix) ;;;
   print Blank ;;;
   healthy <~ health_check self ;;
   if negb healthy then pure false
   else
     print Blank ;;;
     pairs <~ discover_pairs self prefix ;;
     match pairs with
     | [] => print NoPairsFound ;;; pure true
     | _ :: _ =>
       print Blank ;;;
       locals <~ process_pairs self pairs ([], 0%nat) ;;
       let '(manifest_entries, processed_count) := locals in
       match manifest_entries with
       | _ :: _ =>
         success <~ write_manifest json_dumps self manifest_entries prefix ;;
         print Blank ;;;
         print SummaryBanner ;;;
         print (ProcessedCount processed_count) ;;;
         print (ManifestEntriesCount (length manifest_entries)) ;;;
         print (Status success) ;;;
         pure success
       | [] => print NoEntries ;;; pure true
       end
     end)%py.

(** [main] from the point where [CNIngester()] has returned, with
    [--prefix] parsed: the exit code of the process.  No exception
    leaves [ingest], whose callees catch every [Exception].  With the
    constructor and the two handlers around it, [main] is [main_entry]
    below. *)
Definition main (environ : gmap string string) (prefix : string) : St N :=
  (let ingester := init environ in
   success <~ ingest ingester prefix ;;
   pure (if success then 0 else 1))%py.

End Workflow.

(** *** The constructor, and [main] with its handlers *)

Section EntryPoint.

Variable NFC : str -> str.
Variable json_dumps : Manifest -> str.

(** What [boto3.client] raises for an environment, if it raises: a
    function of the Python runtime, as [NFC] is. *)
Variable boto3_client : gmap string string -> option Exn.

(** [CNIngester()]. *)
Definition construct (environ : gmap string string) : M CNIngester :=
  match boto3_client environ with
  | Some e => raise e
  | None => ret (init environ)
  end.

(** [main], with [--prefix] parsed: the code [sys.exit] is called
    with.  [SystemExit] is no [Exception], so that the exit of the
    [try] block passes the handlers. *)
Definition main_entry (environ : gmap string string) (prefix : string) : St N :=
  try_except
    (ingester <- construct environ ;;
     success <- lift (ingest NFC json_dumps ingester prefix) ;;
     ret (if success then 0 else 1))%py
    (fun e =>
       match e with
       | OtherError what =>
         if String.eqb what "NoCredentialsError"
         then (print CredentialsNotFound ;;; pure 1)%py
         else (print (IngestionError e) ;;; pure 1)%py
       | ClientError _ => (print (IngestionError e) ;;; pure 1)%py
       end).

End EntryPoint.

(** ** A concrete runtime, to run the model

    [normalize_NFC] is canonical composition on a fragment of the Unicode
    Character Database: the Latin letters that compose with U+0301
    COMBINING ACUTE ACCENT.  It is [unicodedata.normalize('NFC', _)] on
    strings made of ASCII characters, U+0301, format (Cf) characters and
    the precomposed letters of the table; the only combining class in the
    fragment is 230, so canonical reordering has nothing to do. *)

Module Runtime.

Definition ACUTE : N := 0x301.

(** (letter, letter with acute). *)
Definition acute_table : list (N * N) :=
  [(65, 0xC1); (67, 0x106); (69, 0xC9); (71, 0x1F4); (73, 0xCD); (75, 0x1E30);
   (76, 0x139); (77, 0x1E3E); (78, 0x143); (79, 0xD3); (80, 0x1E54); (82, 0x154);
   (83, 0x15A); (85, 0xDA); (87, 0x1E82); (89, 0xDD); (90, 0x179); (97, 0xE1);
   (99, 0x107); (101, 0xE9); (103, 0x1F5); (105, 0xED); (107, 0x1E31);
   (108, 0x13A); (109, 0x1E3F); (110, 0x144); (111, 0xF3); (112, 0x1E55);
   (114, 0x155); (115, 0x15B); (117, 0xFA); (119, 0x1E83); (121, 0xFD);
   (122, 0x17A)].

Definition compose_acute (letter : N) : option N :=
  snd <$> List.find (fun p => fst p =? letter) acute_table.

Definition decompose_acute (c : N) : option N :=
  fst <$> List.find (fun p => snd p =? c) acute_table.

Definition decompose (s : str) : str :=
  flat_map (fun c => match decompose_acute c with
                     | Some letter => [letter; ACUTE]
                     | None => [c]
                     end) s.

Fixpoint compose (s : str) : str :=
  match s with
  | [] => []
  | c :: r =>
    match r with
    | m :: r1 =>
      match (if m =? ACUTE then compose_acute c else None) with
      | Some composed => composed :: compose r1
      | None => c :: compose r
      end
    | [] => [c]
    end
  end.

Definition normalize_NFC (s : str) : str := compose (decompose s).

(** [json.dumps(manifest, indent=2)] (with the default
    [ensure_ascii]). *)
Definition json_escape (c : N) : string :=
  if c =? 34 then String "\" (String "034" EmptyString)
  else if c =? 92 then "\\"
  else if c =? 10 then "\n"
  else if c =? 13 then "\r"
  else if c =? 9 then "\t"
  else if c =? 8 then "\b"
  else if c =? 12 then "\f"
  else if Unicode.between 32 126 c then String (ascii_of_N c) EmptyString
  else if c <? 0x10000 then "\u" +:+ Sha256.hex 4 c
  else "\u" +:+ Sha256.hex 4 (0xD800 + N.shiftr (c - 0x10000) 10 mod 1024)
       +:+ "\u" +:+ Sha256.hex 4 (0xDC00 + (c - 0x10000) mod 1024).

Definition quote : string := String "034" EmptyString.

Definition json_string (s : string) : string :=
  quote +:+ fold_right (fun c acc => json_escape c +:+ acc) EmptyString
                      (Unicode.decode_replace (list_byte_of_string s))
  +:+ quote.

Definition json_nat (n : nat) : string := pretty n.

Definition nl : string := String "010" EmptyString.

(** The members of an object, one per line at [indent]. *)
Fixpoint json_members (indent : string) (members : list (string * string)) : string :=
  match members with
  | [] => EmptyString
  | [(k, v)] => indent +:+ json_string k +:+ ": " +:+ v +:+ nl
  | (k, v) :: rest =>
    indent +:+ json_string k +:+ ": " +:+ v +:+ "," +:+ nl
    +:+ json_members indent rest
  end.

Definition json_object (indent : string) (members : list (string * string)) : string :=
  "{" +:+ nl +:+ json_members (indent +:+ "  ") members +:+ indent +:+ "}".

Definition json_of_entry (indent : string) (e : ManifestEntry) : string :=
  json_object indent
    (List.app
     [("key", json_string (entry_key e));
      ("type", json_string (entry_type e));
      ("size_bytes", json_nat (entry_size_bytes e));
      ("checksum", json_string (entry_checksum e));
      ("content_type", json_string (entry_content_type e));
      ("pii", json_string (entry_pii e));
      ("status", json_string (entry_status e))]
     match entry_curated e with
     | Some c => [("curated_key", json_string (curated_key c));
                  ("curated_checksum", json_string (curated_checksum c));
                  ("curated_size_bytes", json_nat (curated_size_bytes c))]
     | None => []
     end)%string.

Fixpoint json_elements (indent : string) (es : list ManifestEntry) : string :=
  match es with
  | [] => EmptyString
  | [e] => indent +:+ json_of_entry indent e +:+ nl
  | e :: rest => indent +:+ json_of_entry indent e +:+ "," +:+ nl
                 +:+ json_elements indent rest
  end.

Definition json_array (indent : string) (es : list ManifestEntry) : string :=
  match es with
  | [] => "[]"
  | _ => "[" +:+ nl +:+ json_elements (indent +:+ "  ") es +:+ indent +:+ "]"
  end.

Definition json_dumps (m : Manifest) : str :=
  map Byte.to_N (list_byte_of_string
    (json_object EmptyString
       [("schema_version", pretty (manifest_schema_version m));
        ("batch_id", json_string (manifest_batch_id m));
        ("dt", json_string (manifest_dt m));
        ("source_bucket", json_string (manifest_source_bucket m));
        ("source_prefix", json_string (manifest_source_prefix m));
        ("ingester",
         json_object "  " [("name", json_string (fst (manifest_ingester m)));
                           ("version", json_string (snd (manifest_ingester m)))]);
        ("entries", json_array "  " (manifest_entries m))]%string)).

(** [boto3.client] with explicit credentials: botocore raises
    [PartialCredentialsError] when one of the two is given without the
    other (what else it checks, the region name and the configuration
    files, is left out). *)
Definition boto3_client (environ : gmap string string) : option Exn :=
  match environ !! "AWS_ACCESS_KEY_ID_RAINIER"%string,
        environ !! "AWS_SECRET_ACCESS_KEY_RAINIER"%string with
  | Some _, None | None, Some _ => Some (OtherError "PartialCredentialsError")
  | _, _ => None
  end.

(** A world that answers every call: the given objects, no fault, a
    clock that stands still. *)
Definition world_of (objs : list (string * S3Object)) (schedule : list (option Exn))
  : World :=
  {| objects := list_to_map objs;
     faults := schedule;
     calls := [];
     stdout := [];
     clock := fun _ => {| strftime_Ymd := "2025-01-15";
                          isoformat := "2025-01-15T08:30:00.250000+00:00" |};
     ticks := 0 |}.

Definition plain (content : string) : S3Object :=
  {| Body := list_byte_of_string content; ContentType := Some "text/plain"%string;
     Tagging := None |}.

End Runtime.

(** * The vocabulary of the statements *)

(** [p] occurs in [s] as a run of consecutive characters. *)
Definition occurs_in (p s : str) : Prop := exists l t, s = l ++ p ++ t.

(** No two spaces in a row in [s], nor at its junction with a previous
    character [p]. *)
Fixpoint spaced (p : N) (s : str) : Prop :=
  match s with
  | [] => True
  | x :: r => ~ (p = Unicode.SPACE /\ x = Unicode.SPACE) /\ spaced x r
  end.

(** No three newlines in a row, [p] and [q] being the two previous
    characters. *)
Fixpoint lined (p q : N) (s : str) : Prop :=
  match s with
  | [] => True
  | x :: r => ~ (p = Unicode.LF /\ q = Unicode.LF /\ x = Unicode.LF) /\ lined q x r
  end.

(** What must hold where [s] meets the two characters before it. *)
Definition junction (p q : N) (s : str) : Prop :=
  ~ (p = Unicode.LF /\ q = Unicode.LF /\ head s = Some Unicode.LF)
  /\ ~ (q = Unicode.LF /\ head s = Some Unicode.LF
        /\ head (tail s) = Some Unicode.LF).

(** The shape of a normalised text. *)
Record normal (s : str) : Prop := {
  normal_no_CR : ~ In Unicode.CR s;
  normal_no_Cf : Forall (fun c => Unicode.category_Cf c = false) s;
  normal_spaces : ~ occurs_in [Unicode.SPACE; Unicode.SPACE] s;
  normal_lines : ~ occurs_in [Unicode.LF; Unicode.LF; Unicode.LF] s;
  normal_head : forall c, head s = Some c -> Unicode.isspace c = false;
  normal_last : forall c, last s = Some c -> Unicode.isspace c = false
}.

Definition is_write (c : Call) : bool :=
  match c with
  | PutObject _ _ _ _ => true
  | _ => false
  end.

(** The write calls of a trace, and their number. *)
Definition writes (cs : list Call) : list Call := List.filter is_write cs.

Definition write_calls (cs : list Call) : nat := length (writes cs).

(** The keys of a listing, page after page. *)
Definition listed (pages : list s3_client.Page) : list string :=
  flat_map (fun page => match page with Some contents => contents | None => [] end)
           pages.

Definition json_of (b : string) (fb : list (string * Files)) : option string :=
  match dict_get b fb with Some f => json f | None => None end.

Definition txt_of (b : string) (fb : list (string * Files)) : option string :=
  match dict_get b fb with Some f => txt f | None => None end.

(** What [files_by_base] records once the keys [keys] are gone through:
    under each base, the members of the pair that were listed. *)
Record seen (keys : list string) (fb : list (string * Files)) : Prop := {
  seen_NoDup : NoDup (map fst fb);
  seen_json : forall b j, json_of b fb = Some j <-> j = b +:+ ".json" /\ In j keys;
  seen_txt : forall b t, txt_of b fb = Some t <-> t = b +:+ ".txt" /\ In t keys;
  seen_some : forall b f, dict_get b fb = Some f -> json f <> None \/ txt f <> None
}.

(** The fault scheduled for the [n]-th client call from now. *)
Definition fault_at (n : nat) (w : World) : option Exn := nth n (faults w) None.

(** The calls issued between two worlds. *)
Definition issued (w w' : World) (cs : list Call) : Prop :=
  calls w' = calls w ++ cs /\ faults w' = skipn (length cs) (faults w).

Definition result_of (key : string) (normalized_bytes : bytes) : CurationResult :=
  {| curated_key := key;
     curated_size_bytes := length normalized_bytes;
     curated_checksum := ("sha256:" +:+ calculate_sha256 normalized_bytes)%string |}.

Definition curated_object (normalized_bytes : bytes) (tagging : option string) : S3Object :=
  {| Body := normalized_bytes; ContentType := Some curated_content_type;
     Tagging := tagging |}.

Definition put_curated (key : string) (normalized_bytes : bytes)
           (tagging : option string) : Call :=
  PutObject key normalized_bytes curated_content_type tagging.

(** The read of the curated key neither fails nor finds the checksum of
    the normalised bytes. *)
Definition reaches_write (key : string) (normalized_bytes : bytes) (w : World) : Prop :=
  fault_at 0 w = Some (ClientError "NoSuchKey")
  \/ (fault_at 0 w = None
      /\ match objects w !! key with
         | Some o => calculate_sha256 (Body o) <> calculate_sha256 normalized_bytes
         | None => True
         end).

(** The store rejects the tagged write for want of permission or for
    its tags. *)
Definition tag_rejection (e : Exn) : Prop :=
  e = ClientError "AccessDenied" \/ e = ClientError "InvalidTag".

(** The runs of [curate_file] once the text is normalised and encoded:
    what it returns, from which world to which. *)
Inductive curation (key : string) (nb : bytes) (w w' : World)
  : option CurationResult -> Prop :=
| curation_short_circuit o :
    fault_at 0 w = None -> objects w !! key = Some o ->
    calculate_sha256 (Body o) = calculate_sha256 nb ->
    issued w w' [GetObject key] -> objects w' = objects w ->
    curation key nb w w' (Some (result_of key nb))
| curation_read_failed e :
    fault_at 0 w = Some e -> e <> ClientError "NoSuchKey" ->
    issued w w' [GetObject key] -> objects w' = objects w ->
    curation key nb w w' None
| curation_written :
    reaches_write key nb w -> fault_at 1 w = None ->
    issued w w' [GetObject key; put_curated key nb (Some curated_tagging)] ->
    objects w' = <[key := curated_object nb (Some curated_tagging)]> (objects w) ->
    curation key nb w w' (Some (result_of key nb))
| curation_write_failed e :
    reaches_write key nb w -> fault_at 1 w = Some e -> ~ tag_rejection e ->
    issued w w' [GetObject key; put_curated key nb (Some curated_tagging)] ->
    objects w' = objects w ->
    curation key nb w w' None
| curation_retried e :
    reaches_write key nb w -> fault_at 1 w = Some e -> tag_rejection e ->
    fault_at 2 w = None ->
    issued w w' [GetObject key; put_curated key nb (Some curated_tagging);
                 put_curated key nb None] ->
    objects w' = <[key := curated_object nb None]> (objects w) ->
    curation key nb w w' (Some (result_of key nb))
| curation_retry_failed e e' :
    reaches_write key nb w -> fault_at 1 w = Some e -> tag_rejection e ->
    fault_at 2 w = Some e' ->
    issued w w' [GetObject key; put_curated key nb (Some curated_tagging);
                 put_curated key nb None] ->
    objects w' = objects w ->
    curation key nb w w' None.

(** The bytes [curate_file] sets out to store. *)
Definition normalized_bytes_of (NFC : str -> str) (txt_info : ObjectInfo) : option bytes :=
  Unicode.encode
    (normalize_text NFC (Text (Unicode.decode_replace (info_content txt_info)))).

(** The world once [ingest] has printed its heading. *)
Definition announced (self : CNIngester) (prefix : string) (w : World) : World :=
  snd ((print Banner ;;; print (BucketLine (bucket_name self)) ;;;
        print (PrefixLine prefix) ;;; print Blank)%py w).

(** The liveness record written at [timestamp]. *)
Definition health_body (timestamp : Datetime) : bytes :=
  list_byte_of_string
    ("Health check at " +:+ isoformat timestamp +:+ String "010" EmptyString)%string.

Definition health_write (timestamp : Datetime) : Call :=
  PutObject health_key (health_body timestamp) "text/plain" None.

Definition health_object (timestamp : Datetime) : S3Object :=
  {| Body := health_body timestamp; ContentType := Some "text/plain"%string;
     Tagging := None |}.

(** What the loop over the pairs contributes to the manifest, pair by
    pair.  A pair whose two members are fetched and whose text is curated
    gives two entries, spelled out here field by field: the one of the
    structured member, then the one of the text member, which carries
    the key, the checksum and the size of the curated object; the keys
    of the two entries are the keys of the pair, and the curated key is
    the one derived from its base key.  Any other pair gives no entry,
    and the loop goes on to the next pair either way. *)
Inductive emits (NFC : str -> str) (self : CNIngester)
  : list Pair -> World -> list ManifestEntry -> nat -> World -> Prop :=
| emits_done w : emits NFC self [] w [] 0 w
| emits_pair base_key json_key txt_key rest w json_info txt_info curation_result
             w1 w2 w3 es n w' :
    get_object_info self json_key
      (snd (print (ProcessingPair (Key.basename base_key)) w)) = (Some json_info, w1) ->
    get_object_info self txt_key w1 = (Some txt_info, w2) ->
    curate_file NFC self base_key txt_key txt_info w2 = (Some curation_result, w3) ->
    info_key json_info = json_key ->
    info_key txt_info = txt_key ->
    curated_key curation_result = curated_key_of base_key ->
    emits NFC self rest (snd (print Blank (snd (print (Processed base_key) w3))))
          es n w' ->
    emits NFC self ((base_key, json_key, txt_key) :: rest) w
          ({| entry_key := info_key json_info;
              entry_type := "aws_transcribe_json";
              entry_size_bytes := info_size_bytes json_info;
              entry_checksum := info_checksum json_info;
              entry_content_type := info_content_type json_info;
              entry_pii := "low";
              entry_status := "ingested";
              entry_curated := None |}
           :: {| entry_key := info_key txt_info;
                 entry_type := "minutes_txt";
                 entry_size_bytes := info_size_bytes txt_info;
                 entry_checksum := info_checksum txt_info;
                 entry_content_type := info_content_type txt_info;
                 entry_pii := "low";
                 entry_status := "ingested";
                 entry_curated :=
                   Some {| curated_key := curated_key curation_result;
                           curated_size_bytes := curated_size_bytes curation_result;
                           curated_checksum := curated_checksum curation_result |} |}
           :: es) (S n) w'
| emits_fetch_failed base_key json_key txt_key rest w json_info txt_info
                     w1 w2 es n w' :
    get_object_info self json_key
      (snd (print (ProcessingPair (Key.basename base_key)) w)) = (json_info, w1) ->
    get_object_info self txt_key w1 = (txt_info, w2) ->
    json_info = None \/ txt_info = None ->
    emits NFC self rest (snd (print (FileInfoFailed base_key) w2)) es n w' ->
    emits NFC self ((base_key, json_key, txt_key) :: rest) w es n w'
| emits_curation_failed base_key json_key txt_key rest w json_info txt_info
                        w1 w2 w3 es n w' :
    get_object_info self json_key
      (snd (print (ProcessingPair (Key.basename base_key)) w)) = (Some json_info, w1) ->
    get_object_info self txt_key w1 = (Some txt_info, w2) ->
    curate_file NFC self base_key txt_key txt_info w2 = (None, w3) ->
    emits NFC self rest (snd (print (CurateFailedFor base_key) w3)) es n w' ->
    emits NFC self ((base_key, json_key, txt_key) :: rest) w es n w'.

(** The claims of the specification that the code does not bear out, as
    the specification words them, on one run. *)

(** Normalising twice is normalising once. *)
Definition idempotent_on (NFC : str -> str) (content : Content) : Prop :=
  normalize_text NFC (Text (normalize_text NFC content)) = normalize_text NFC content.

(** Two runs of the curator on the same source return the same result
    and issue one write call between them, none of it in the second. *)
Definition one_write_in_two_runs (NFC : str -> str) (self : CNIngester)
           (base_key txt_key : string) (txt_info : ObjectInfo) (w : World) : Prop :=
  fst (curate_file NFC self base_key txt_key txt_info
         (snd (curate_file NFC self base_key txt_key txt_info w)))
  = fst (curate_file NFC self base_key txt_key txt_info w)
  /\ write_calls
       (calls (snd (curate_file NFC self base_key txt_key txt_info
                      (snd (curate_file NFC self base_key txt_key txt_info w)))))
     = (write_calls (calls w) + 1)%nat
  /\ write_calls
       (calls (snd (curate_file NFC self base_key txt_key txt_info
                      (snd (curate_file NFC self base_key txt_key txt_info w)))))
     = write_calls (calls (snd (curate_file NFC self base_key txt_key txt_info w))).

(** A rejection of the tagged write never makes curation fail. *)
Definition tag_rejection_absorbed (NFC : str -> str) (self : CNIngester)
           (base_key txt_key : string) (txt_info : ObjectInfo) (w : World) : Prop :=
  forall nb e,
    normalized_bytes_of NFC txt_info = Some nb ->
    reaches_write (curated_key_of base_key) nb w ->
    fault_at 1 w = Some e -> tag_rejection e ->
    fst (curate_file NFC self base_key txt_key txt_info w) <> None.

(** A run whose listing raises exits with a non-zero code. *)
Definition listing_error_fails_run (NFC : str -> str) (json_dumps : Manifest -> str)
           (environ : gmap string string) (prefix : string) (w : World) : Prop :=
  forall e, In (DiscoveryFailed e) (stdout (snd (main NFC json_dumps environ prefix w))) ->
            fst (main NFC json_dumps environ prefix w) <> 0.

(** ** Sample runs *)

Module Examples.
Import Runtime.

Definition CRLF : string := String "013" (String "010" EmptyString).

(** The minutes of the end-to-end scenario. *)
Definition minutes_text : string :=
  ("Hello   world" +:+ CRLF +:+ CRLF +:+ CRLF +:+ "Bye")%string.

Definition minutes : bytes := list_byte_of_string minutes_text.

Definition normalized_minutes : string :=
  ("Hello world" +:+ String "010" (String "010" EmptyString) +:+ "Bye")%string.

(** [e], U+200B ZERO WIDTH SPACE, U+0301 COMBINING ACUTE ACCENT, in
    UTF-8. *)
Definition accent_after_zero_width : Content :=
  Bytes [x65; xe2; x80; x8b; xcc; x81].

Definition self : CNIngester := init ∅.

Definition minutes_info : ObjectInfo :=
  {| info_key := "uploads/m1.txt";
     info_size_bytes := length minutes;
     info_content_type := "text/plain";
     info_checksum := ("sha256:" +:+ calculate_sha256 minutes)%string;
     info_content := minutes |}.

(** The minutes of another meeting, filed under the same name. *)
Definition later_minutes : bytes := list_byte_of_string "Adjourned".

Definition later_info : ObjectInfo :=
  {| info_key := "archive/2024/m1.txt";
     info_size_bytes := length later_minutes;
     info_content_type := "text/plain";
     info_checksum := ("sha256:" +:+ calculate_sha256 later_minutes)%string;
     info_content := later_minutes |}.

Definition uploads : list (string * S3Object) :=
  [("uploads/m1.json", plain "0123456789");
   ("uploads/m1.txt", plain minutes_text);
   ("uploads/b.json", plain "{}")]%string.

Definition curated : list (string * S3Object) :=
  [("curated/m1.norm.txt", plain normalized_minutes)]%string.

Definition AccessDenied : option Exn := Some (ClientError "AccessDenied").

(** The worlds of a run on [uploads/], after the health check and
    where discovery starts. *)
Definition checked (w : World) : World :=
  snd (health_check self (announced self "uploads/" w)).

Definition discovering (w : World) : World := snd (print Blank (checked w)).

End Examples.

(** ** Further vocabulary *)

(** The text [normalize_text] works on, before composition. *)
Definition decoded (content : Content) : str :=
  match content with
  | Bytes b => Unicode.decode_replace b
  | Text s => s
  end.

(** A character that is neither whitespace nor a format character. *)
Definition visible (c : N) : bool :=
  negb (Unicode.category_Cf c) && negb (Unicode.isspace c).

(** The trace [cs] holds a write to the key [k]. *)
Definition wrote_to (k : string) (cs : list Call) : Prop :=
  exists body content_type tagging, In (PutObject k body content_type tagging) cs.

(** What a stretch of a run did, from [w] to [w']: it issued the client
    calls [cs], each one taking its entry of the fault schedule, printed
    the lines [ls], and left every object alone but those at the keys it
    wrote to. *)
Record ran (w w' : World) (cs : list Call) (ls : list Line) : Prop := {
  ran_issued : issued w w' cs;
  ran_stdout : stdout w' = stdout w ++ ls;
  ran_clock : clock w' = clock w;
  ran_objects : forall k, ~ wrote_to k cs -> objects w' !! k = objects w !! k
}.

(** From every world, [m] issues calls in [P] only, prints lines in [Q]
    only and returns a value in [R]. *)
Definition does {A} (m : St A) (P : Call -> Prop) (Q : Line -> Prop) (R : A -> Prop)
  : Prop :=
  forall w, exists cs ls,
    ran w (snd (m w)) cs ls /\ Forall P cs /\ Forall Q ls /\ R (fst (m w)).

(** The next [n] client calls are answered by the bucket. *)
Definition answered (n : nat) (w : World) : Prop :=
  forall i, (i < n)%nat -> fault_at i w = None.

(** What [get_object_info] returns for the object [o] at [key]. *)
Definition info_of (key : string) (o : S3Object) : ObjectInfo :=
  {| info_key := key;
     info_size_bytes := length (Body o);
     info_content_type := default "application/octet-stream"%string (ContentType o);
     info_checksum := ("sha256:" +:+ calculate_sha256 (Body o))%string;
     info_content := Body o |}.

(** The batch of a manifest written at [now]: its identifier, its key
    and its content. *)
Definition batch_id_of (now : Datetime) : string :=
  ("ingest-" +:+ Key.replace "+00:00" "Z" (isoformat now))%string.

Definition manifest_key_of (now : Datetime) : string :=
  ("manifests/dt=" +:+ strftime_Ymd now +:+ "/" +:+ batch_id_of now +:+ ".json")%string.

Definition manifest_of (self : CNIngester) (entries : list ManifestEntry)
           (source_prefix : string) (now : Datetime) : Manifest :=
  {| manifest_schema_version := schema_version self;
     manifest_batch_id := batch_id_of now;
     manifest_dt := strftime_Ymd now;
     manifest_source_bucket := bucket_name self;
     manifest_source_prefix := source_prefix;
     manifest_ingester := ingester_info self;
     manifest_entries := entries |}.

Definition manifest_object (body : bytes) : S3Object :=
  {| Body := body; ContentType := Some "application/json"%string; Tagging := None |}.

(** The time the next reading of the clock gives. *)
Definition time_of (w : World) : Datetime := clock w (ticks w).

(** The lines that tell of a failed run: those of the health check and
    of the manifest write, and the two [main] prints in its handlers. *)
Definition failure_line (l : Line) : Prop :=
  match l with
  | HealthFailed _ | ManifestFailed _ | CredentialsNotFound | IngestionError _ => True
  | _ => False
  end.

Definition quiet (l : Line) : Prop := ~ failure_line l.

(** The key is one [curate_file] writes to. *)
Definition curated_name (k : string) : Prop := exists base_key, k = curated_key_of base_key.

(** The calls [ingest] may issue on [prefix]: the check of the bucket,
    the listing of the prefix, heads and reads of keys under the prefix,
    reads of curated keys, and three kinds of write. *)
Definition ingest_call (prefix : string) (c : Call) : Prop :=
  match c with
  | HeadBucket => True
  | ListObjectsV2 p _ => p = prefix
  | HeadObject k => Key.startswith k prefix = true
  | GetObject k => Key.startswith k prefix = true \/ curated_name k
  | PutObject k _ content_type tagging =>
    (k = health_key /\ content_type = "text/plain"%string /\ tagging = None)
    \/ (curated_name k /\ content_type = curated_content_type)
    \/ (Key.startswith k "manifests/dt=" = true
        /\ content_type = "application/json"%string /\ tagging = None)
  end.

(** The two keys of a pair start with [prefix]. *)
Definition under (prefix : string) (p : Pair) : Prop :=
  Key.startswith (snd (fst p)) prefix = true /\ Key.startswith (snd p) prefix = true.

(** [m] returns [False] exactly when it has printed a failure line. *)
Definition reports (m : St bool) : Prop :=
  forall w, exists cs ls,
    ran w (snd (m w)) cs ls /\ (fst (m w) = false <-> Exists failure_line ls).

(** A Unicode scalar value: a code point that is no surrogate, what
    [str.encode('utf-8')] accepts. *)
Definition scalar (c : N) : Prop :=
  c < 0x110000 /\ ~ (0xD800 <= c <= 0xDFFF).

(** The string has no slash. *)
Definition slash_free (s : string) : Prop := ~ In "/"%char (list_ascii_of_string s).

(** A digit of lower-case hexadecimal. *)
Definition hex_char (a : ascii) : Prop :=
  In a (list_ascii_of_string "0123456789abcdef").

(** Both keys of the pair are in the bucket of [w]. *)
Definition present (w : World) (p : Pair) : Prop :=
  is_Some (objects w !! snd (fst p)) /\ is_Some (objects w !! snd p).

(** The two keys of a pair, as the manifest lists them. *)
Definition pair_keys (p : Pair) : list string := [snd (fst p); snd p].

(** The key is a member of a complete pair of the bucket under the
    prefix. *)
Definition paired (objs : gmap string S3Object) (prefix key : string) : Prop :=
  exists b,
    (key = b +:+ ".json" \/ key = b +:+ ".txt")%string
    /\ is_Some (objs !! (b +:+ ".json")%string)
    /\ is_Some (objs !! (b +:+ ".txt")%string)
    /\ Key.startswith (b +:+ ".json") prefix = true
    /\ Key.startswith (b +:+ ".txt") prefix = true.

(** The bucket once the health check has written its record. *)
Definition checked_bucket (w : World) : gmap string S3Object :=
  <[health_key := health_object (time_of w)]> (objects w).

(** * The scripts that drive the ingester

    [test_new_bucket.py] and [process_real_transcripts.py] set
    [PARTNER_BUCKET] when they are loaded, make a [CNIngester] and call
    its methods, printing lines of their own in between.  Each is given
    in two steps: what [main] does once [CNIngester()] has returned, and
    [main] as a whole, with the constructor that can raise and the
    handler that prints the error ([traceback.print_exc] writes to the
    standard error, not to the output). *)

Definition new_bucket : string := "cn2025persona".

(** [os.environ['PARTNER_BUCKET'] = 'cn2025persona']. *)
Definition override (environ : gmap string string) : gmap string string :=
  <["PARTNER_BUCKET"%string := new_bucket]> environ.

(** One constructor per [print] of the two scripts. *)
Inductive ScriptLine :=
| TestingNewBucket
| UsingBucket (bucket : string)
| DiscoveredPairs (n : nat)
| FoundTranscriptPairs
| PairFolder (base_name : string)
| PairJson (json_key : string)
| PairTxt (txt_key : string)
| RealDataFound (n : nat)
| IngestionCompleted
| IngestionFailed
| ProcessingRealData
| Rule
| ScriptBucket (bucket : string)
| ProcessingPrefix
| EmptyLine
| ProcessingComplete
| HealthCheckWritten
| PairsProcessed
| CuratedGenerated
| ManifestCreated
| NowLive
| ProcessingFailed
| ScriptError (e : Exn).

(** A running script: the world of the ingester it drives, and the
    output of the process, the lines of the ingester and those of the
    script in the order they are printed. *)
Record Process := {
  world : World;
  output : list (Line + ScriptLine)
}.

(** A [print] of the script. *)
Definition echo (l : ScriptLine) (p : Process) : Process :=
  {| world := world p; output := output p ++ [inr l] |}.

(** A call of a method of the ingester: what it prints goes to the
    output of the process. *)
Definition call {A} (m : St A) (p : Process) : A * Process :=
  let (a, w') := m (world p) in
  (a, {| world := w';
         output := output p
                   ++ map inl (skipn (length (stdout (world p))) (stdout w')) |}).

(** [for base_key, json_key, txt_key in pairs[:5]: print ... ]. *)
Definition show_pairs (pairs : list Pair) (p : Process) : Process :=
  fold_left (fun p (pair : Pair) =>
               let '(base_key, json_key, txt_key) := pair in
               let p := echo (PairFolder (Key.basename base_key)) p in
               let p := echo (PairJson json_key) p in
               echo (PairTxt txt_key) p)
            (firstn 5 pairs) p.

Section Scripts.

Variable NFC : str -> str.
Variable json_dumps : Manifest -> str.

(** [main] of [test_new_bucket.py] once [CNIngester()] has returned;
    the methods it calls then catch every [Exception]. *)
Definition test_new_bucket_main (environ : gmap string string) (p : Process)
  : Process :=
  let p := echo TestingNewBucket p in
  let ingester := init (override environ) in
  let p := echo (UsingBucket (bucket_name ingester)) p in
  let (pairs, p) := call (discover_pairs ingester "uploads/") p in
  let p := echo (DiscoveredPairs (length pairs)) p in
  let p := match pairs with
           | [] => p
           | _ :: _ => show_pairs pairs (echo FoundTranscriptPairs p)
           end in
  match pairs with
  | [] => p
  | _ :: _ =>
    let p := echo (RealDataFound (length pairs)) p in
    let (success, p) := call (ingest NFC json_dumps ingester "uploads/") p in
    if success then echo IngestionCompleted p else echo IngestionFailed p
  end.

(** [main] of [process_real_transcripts.py] once [CNIngester()] has
    returned. *)
Definition process_real_transcripts_main (environ : gmap string string)
           (p : Process) : Process :=
  let p := echo ProcessingRealData p in
  let p := echo Rule p in
  let ingester := init (override environ) in
  let p := echo (ScriptBucket (bucket_name ingester)) p in
  let p := echo ProcessingPrefix p in
  let p := echo EmptyLine p in
  let (success, p) := call (ingest NFC json_dumps ingester "Transcripts/") p in
  if success then
    let p := echo ProcessingComplete p in
    let p := echo HealthCheckWritten p in
    let p := echo PairsProcessed p in
    let p := echo CuratedGenerated p in
    let p := echo ManifestCreated p in
    echo NowLive p
  else echo ProcessingFailed p.

(** What [boto3.client] raises for an environment, if it raises. *)
Variable boto3_client : gmap string string -> option Exn.

(** [main] of [test_new_bucket.py] as a whole: the heading is printed
    before the [try]. *)
Definition test_new_bucket_entry (environ : gmap string string) (p : Process)
  : Process :=
  match boto3_client (override environ) with
  | None => test_new_bucket_main environ p
  | Some e => echo (ScriptError e) (echo TestingNewBucket p)
  end.

(** [main] of [process_real_transcripts.py] as a whole: the two lines
    of the heading are printed before the [try]. *)
Definition process_real_transcripts_entry (environ : gmap string string)
           (p : Process) : Process :=
  match boto3_client (override environ) with
  | None => process_real_transcripts_main environ p
  | Some e => echo (ScriptError e) (echo Rule (echo ProcessingRealData p))
  end.

End Scripts.

(** The script lines that tell of success and of failure. *)
Definition success_lines : list ScriptLine :=
  [ProcessingComplete; HealthCheckWritten; PairsProcessed; CuratedGenerated;
   ManifestCreated; NowLive].

(** * Facts about the string operations *)

Module TextFacts.
Import Unicode Text.

Lemma occurs_in_cons p x s : occurs_in p s -> occurs_in p (x :: s).
Proof. intros (l & t & ->). exists (x :: l), t. reflexivity. Qed.

Lemma occurs_in_infix p l s t : occurs_in p s -> occurs_in p (l ++ s ++ t).
Proof.
  intros (l' & t' & ->). exists (l ++ l'), (t' ++ t).
  repeat rewrite <- app_assoc. reflexivity.
Qed.

Lemma spaced_no_run s : forall p, spaced p s -> ~ occurs_in [SPACE; SPACE] s.
Proof.
  induction s as [|x r IH]; intros p Hs (l & t & E).
  - destruct l; discriminate.
  - destruct l as [|a l]; simpl in E.
    + injection E as -> ->. simpl in Hs. tauto.
    + injection E as -> E. destruct Hs as [_ Hs].
      apply (IH _ Hs). exists l, t. exact E.
Qed.

Lemma no_run_spaced s : forall p,
  ~ occurs_in [SPACE; SPACE] (p :: s) -> spaced p s.
Proof.
  induction s as [|x r IH]; intros p H; simpl; [exact I|]. split.
  - intros [-> ->]. apply H. exists [], r. reflexivity.
  - apply IH. intros Ho. apply H. apply occurs_in_cons, Ho.
Qed.

Lemma no_run_spaced_0 s : ~ occurs_in [SPACE; SPACE] s -> spaced 0 s.
Proof.
  intros H. apply no_run_spaced. intros (l & t & E).
  destruct l as [|a l]; simpl in E; [discriminate|].
  injection E as _ E. apply H. exists l, t. exact E.
Qed.

Lemma lined_no_run s : forall p q, lined p q s -> ~ occurs_in [LF; LF; LF] s.
Proof.
  induction s as [|x r IH]; intros p q Hs (l & t & E).
  - destruct l; discriminate.
  - destruct l as [|a l]; simpl in E.
    + injection E as -> ->. simpl in Hs. tauto.
    + injection E as -> E. destruct Hs as [_ Hs].
      apply (IH _ _ Hs). exists l, t. exact E.
Qed.

Lemma no_run_lined s : forall p q,
  ~ occurs_in [LF; LF; LF] (p :: q :: s) -> lined p q s.
Proof.
  induction s as [|x r IH]; intros p q H; simpl; [exact I|]. split.
  - intros (-> & -> & ->). apply H. exists [], r. reflexivity.
  - apply IH. intros Ho. apply H. apply occurs_in_cons, Ho.
Qed.

Lemma no_run_lined_0 s : ~ occurs_in [LF; LF; LF] s -> lined 0 0 s.
Proof.
  intros H. apply no_run_lined. intros (l & t & E).
  destruct l as [|a [|b l]]; simpl in E; try discriminate.
  injection E as _ _ E. apply H. exists l, t. exact E.
Qed.

(** *** What each step establishes or keeps *)

Lemma sub_spaces_spaced s : forall p,
  (p = SPACE -> head s <> Some SPACE) -> spaced p (sub_spaces s).
Proof.
  induction s as [|c r IH]; intros p Hp; [exact I|].
  destruct r as [|c1 r1].
  - simpl. split; [|exact I]. intros [-> ->]. apply Hp; reflexivity.
  - change (sub_spaces (c :: c1 :: r1))
      with (if (c =? SPACE) && (c1 =? SPACE) then sub_spaces (c1 :: r1)
            else c :: sub_spaces (c1 :: r1)).
    destruct ((c =? SPACE) && (c1 =? SPACE)) eqn:E.
    + apply andb_prop in E as [Ec _]. apply N.eqb_eq in Ec. subst c.
      apply IH. intros ->. exfalso. apply Hp; reflexivity.
    + split.
      * intros [-> ->]. apply Hp; reflexivity.
      * apply IH. intros -> [= ->]. discriminate E.
Qed.

Lemma sub_spaces_id s : forall p, spaced p s -> sub_spaces s = s.
Proof.
  induction s as [|c r IH]; intros p Hs; [reflexivity|].
  destruct r as [|c1 r1]; [reflexivity|].
  change (sub_spaces (c :: c1 :: r1))
    with (if (c =? SPACE) && (c1 =? SPACE) then sub_spaces (c1 :: r1)
          else c :: sub_spaces (c1 :: r1)).
  destruct Hs as (_ & Hs). pose proof Hs as (Hn & _).
  destruct ((c =? SPACE) && (c1 =? SPACE)) eqn:E.
  - apply andb_prop in E as [Ec Ec1].
    apply N.eqb_eq in Ec, Ec1. tauto.
  - f_equal. apply (IH c). exact Hs.
Qed.

Lemma sub_spaces_In x s : In x (sub_spaces s) -> In x s.
Proof.
  induction s as [|c r IH]; [tauto|].
  destruct r as [|c1 r1]; [tauto|].
  change (sub_spaces (c :: c1 :: r1))
    with (if (c =? SPACE) && (c1 =? SPACE) then sub_spaces (c1 :: r1)
          else c :: sub_spaces (c1 :: r1)).
  destruct ((c =? SPACE) && (c1 =? SPACE)).
  - intros H. right. apply IH, H.
  - intros [H|H]; [left; exact H | right; apply IH, H].
Qed.

(** Induction on a list two elements at a time. *)
Lemma list_ind2 (P : str -> Prop) :
  P [] -> (forall c, P [c]) ->
  (forall c c1 r, P r -> P (c1 :: r) -> P (c :: c1 :: r)) ->
  forall s, P s.
Proof.
  intros H0 H1 H2 s.
  assert (H : P s /\ forall c, P (c :: s)); [|exact (proj1 H)].
  induction s as [|c1 r [IHa IHb]]; split; auto.
Qed.

Lemma replace_crlf_cons2 c c1 r :
  replace_crlf (c :: c1 :: r)
  = if (c =? CR) && (c1 =? LF) then LF :: replace_crlf r
    else c :: replace_crlf (c1 :: r).
Proof. reflexivity. Qed.

Lemma replace_crlf_spaced s : forall p, spaced p s -> spaced p (replace_crlf s).
Proof.
  induction s as [| c | c c1 r IHr IHc] using list_ind2; intros p Hs;
    [exact I | exact Hs |].
  rewrite replace_crlf_cons2. destruct Hs as (H1 & H2 & H3).
  destruct ((c =? CR) && (c1 =? LF)) eqn:E.
  - apply andb_prop in E as [Ec Ec1]. apply N.eqb_eq in Ec, Ec1. subst.
    split; [intros [_ [=]]|]. apply IHr, H3.
  - split; [exact H1|]. apply IHc. split; assumption.
Qed.

Lemma replace_crlf_In x s : In x (replace_crlf s) -> In x s \/ x = LF.
Proof.
  induction s as [| c | c c1 r IHr IHc] using list_ind2;
    [tauto | simpl; tauto |].
  rewrite replace_crlf_cons2.
  destruct ((c =? CR) && (c1 =? LF)); simpl; intros [H|H]; auto.
  - destruct (IHr H); auto.
  - destruct (IHc H) as [[?|?]|?]; auto.
Qed.

Lemma replace_crlf_id s : ~ In CR s -> replace_crlf s = s.
Proof.
  induction s as [| c | c c1 r IHr IHc] using list_ind2; intros H;
    [reflexivity | reflexivity |].
  rewrite replace_crlf_cons2.
  destruct ((c =? CR) && (c1 =? LF)) eqn:E.
  - apply andb_prop in E as [Ec _]. apply N.eqb_eq in Ec.
    exfalso. apply H. left. exact Ec.
  - f_equal. apply IHc. intros Hin. apply H. right. exact Hin.
Qed.

Lemma replace_cr_spaced s : forall p,
  spaced p s -> spaced (if p =? CR then LF else p) (replace_cr s).
Proof.
  induction s as [|x r IH]; intros p Hs; [exact I|].
  destruct Hs as [H1 H2]. split; [|apply IH, H2].
  intros [Hp Hx]. apply H1. split.
  - destruct (p =? CR); [discriminate Hp | exact Hp].
  - destruct (x =? CR); [discriminate Hx | exact Hx].
Qed.

Lemma replace_cr_no_CR s : ~ In CR (replace_cr s).
Proof.
  unfold replace_cr. rewrite in_map_iff. intros (c & E & _).
  destruct (c =? CR) eqn:Ec; [discriminate E|].
  apply N.eqb_neq in Ec. exact (Ec E).
Qed.

Lemma replace_cr_In x s : In x (replace_cr s) -> In x s \/ x = LF.
Proof.
  unfold replace_cr. rewrite in_map_iff. intros (c & E & Hc).
  destruct (c =? CR); subst; auto.
Qed.

Lemma replace_cr_id s : ~ In CR s -> replace_cr s = s.
Proof.
  induction s as [|x r IH]; intros H; [reflexivity|]. simpl.
  destruct (x =? CR) eqn:E.
  - apply N.eqb_eq in E. exfalso. apply H. left. exact E.
  - f_equal. apply IH. intros Hin. apply H. right. exact Hin.
Qed.

Lemma sub_blank_lines_cons3 c c1 c2 r :
  sub_blank_lines (c :: c1 :: c2 :: r)
  = if (c =? LF) && (c1 =? LF) && (c2 =? LF)
    then sub_blank_lines (c1 :: c2 :: r)
    else c :: sub_blank_lines (c1 :: c2 :: r).
Proof. reflexivity. Qed.

Lemma sub_blank_lines_lined s : forall p q,
  junction p q s -> lined p q (sub_blank_lines s).
Proof.
  induction s as [|c r IH]; intros p q [J1 J2]; [exact I|].
  destruct r as [|c1 [|c2 r2]].
  - split; [|exact I]. intros (Hp & Hq & Hc). apply J1. subst. auto.
  - split; [|split; [|exact I]].
    + intros (Hp & Hq & Hc). apply J1. subst. auto.
    + intros (Hq & Hc & Hc1). apply J2. subst. auto.
  - rewrite sub_blank_lines_cons3.
    destruct ((c =? LF) && (c1 =? LF) && (c2 =? LF)) eqn:E.
    + apply andb_prop in E as [E Ec2]. apply andb_prop in E as [Ec Ec1].
      apply N.eqb_eq in Ec, Ec1, Ec2. subst. apply IH. split.
      * intros (Hp & Hq & _). apply J1. auto.
      * intros (Hq & _). apply J2. auto.
    + split.
      * intros (Hp & Hq & Hc). apply J1. subst. auto.
      * apply IH. split.
        -- intros (Hq & Hc & Hc1). apply J2. subst. auto.
        -- intros (Hc & Hc1 & Hc2). simpl in Hc1, Hc2.
           injection Hc1 as ->. injection Hc2 as ->. subst c.
           discriminate E.
Qed.

Lemma sub_blank_lines_id s : forall p q, lined p q s -> sub_blank_lines s = s.
Proof.
  induction s as [|c r IH]; intros p q Hs; [reflexivity|].
  destruct r as [|c1 [|c2 r2]]; [reflexivity | reflexivity |].
  rewrite sub_blank_lines_cons3.
  destruct Hs as (_ & Hs).
  destruct ((c =? LF) && (c1 =? LF) && (c2 =? LF)) eqn:E.
  - apply andb_prop in E as [E Ec2]. apply andb_prop in E as [Ec Ec1].
    apply N.eqb_eq in Ec, Ec1, Ec2. simpl in Hs. tauto.
  - f_equal. apply (IH q c), Hs.
Qed.

Lemma sub_blank_lines_In x s : In x (sub_blank_lines s) -> In x s.
Proof.
  induction s as [|c r IH]; [tauto|].
  destruct r as [|c1 [|c2 r2]]; [tauto | tauto |].
  rewrite sub_blank_lines_cons3.
  destruct ((c =? LF) && (c1 =? LF) && (c2 =? LF)).
  - intros H. right. apply IH, H.
  - intros [H|H]; [left; exact H | right; apply IH, H].
Qed.

Lemma sub_blank_lines_spaced s : forall p,
  spaced p s -> spaced p (sub_blank_lines s).
Proof.
  induction s as [|c r IH]; intros p Hs; [exact I|].
  destruct r as [|c1 [|c2 r2]]; [exact Hs | exact Hs |].
  rewrite sub_blank_lines_cons3.
  destruct ((c =? LF) && (c1 =? LF) && (c2 =? LF)) eqn:E.
  - apply andb_prop in E as [E Ec2]. apply andb_prop in E as [Ec Ec1].
    apply N.eqb_eq in Ec, Ec1, Ec2. subst. apply IH.
    destruct Hs as (_ & _ & Hs). split; [intros [_ [=]] | exact Hs].
  - destruct Hs as (H1 & Hs). split; [exact H1|]. apply IH, Hs.
Qed.

(** *** [strip] *)

Lemma lstrip_suffix s : exists l, s = l ++ lstrip s.
Proof.
  induction s as [|c r [l IH]]; [exists []; reflexivity|]. simpl.
  destruct (isspace c); [|exists []; reflexivity].
  exists (c :: l). simpl. f_equal. exact IH.
Qed.

Lemma lstrip_head s c : head (lstrip s) = Some c -> isspace c = false.
Proof.
  induction s as [|x r IH]; [discriminate|]. simpl.
  destruct (isspace x) eqn:E; [exact IH|]. intros [= <-]. exact E.
Qed.

Lemma lstrip_id s : (forall c, head s = Some c -> isspace c = false) -> lstrip s = s.
Proof.
  destruct s as [|x r]; [reflexivity|]. intros H. simpl.
  rewrite (H x eq_refl). reflexivity.
Qed.

Lemma rstrip_prefix s : exists t, s = rstrip s ++ t.
Proof.
  unfold rstrip. destruct (lstrip_suffix (rev s)) as [l E].
  exists (rev l). rewrite <- rev_app_distr, <- E. symmetry. apply rev_involutive.
Qed.

Lemma head_rev (s : str) : head (rev s) = last s.
Proof.
  induction s as [|x r IH] using rev_ind; [reflexivity|].
  rewrite rev_app_distr, last_snoc. reflexivity.
Qed.

Lemma rstrip_last s c : last (rstrip s) = Some c -> isspace c = false.
Proof.
  unfold rstrip. rewrite <- head_rev, rev_involutive. apply lstrip_head.
Qed.

Lemma rstrip_id s : (forall c, last s = Some c -> isspace c = false) -> rstrip s = s.
Proof.
  intros H. unfold rstrip. rewrite lstrip_id; [apply rev_involutive|].
  intros c. rewrite head_rev. apply H.
Qed.

Lemma strip_infix s : exists l t, s = l ++ strip s ++ t.
Proof.
  unfold strip. destruct (lstrip_suffix s) as [l El].
  destruct (rstrip_prefix (lstrip s)) as [t Et].
  exists l, t. rewrite <- Et. exact El.
Qed.

Lemma strip_head s c : head (strip s) = Some c -> isspace c = false.
Proof.
  unfold strip. destruct (rstrip_prefix (lstrip s)) as [t Et].
  intros H. apply (lstrip_head s). rewrite Et.
  destruct (rstrip (lstrip s)); [discriminate H | exact H].
Qed.

Lemma strip_last s c : last (strip s) = Some c -> isspace c = false.
Proof. apply rstrip_last. Qed.

Lemma strip_id s :
  (forall c, head s = Some c -> isspace c = false) ->
  (forall c, last s = Some c -> isspace c = false) -> strip s = s.
Proof. intros Hh Hl. unfold strip. rewrite (lstrip_id s Hh). apply rstrip_id, Hl. Qed.

Lemma lstrip_char_id c s : head s <> Some c -> lstrip_char c s = s.
Proof.
  destruct s as [|x r]; [reflexivity|]. simpl. intros H.
  destruct (x =? c) eqn:E; [|reflexivity].
  apply N.eqb_eq in E. subst. tauto.
Qed.

Lemma remove_Cf_clean s : Forall (fun c => category_Cf c = false) (remove_Cf s).
Proof.
  apply List.Forall_forall. intros c Hc. apply List.filter_In in Hc as [_ Hc].
  apply negb_true_iff, Hc.
Qed.

Lemma remove_Cf_id s : Forall (fun c => category_Cf c = false) s -> remove_Cf s = s.
Proof.
  induction 1 as [|x r Hx _ IH]; [reflexivity|]. simpl.
  rewrite Hx. simpl. f_equal. exact IH.
Qed.
End TextFacts.

(** * The normaliser *)

Section NormalizerFacts.
Import Unicode Text TextFacts.

Variable NFC : str -> str.

Lemma normalize_composed_normal s : normal (normalize_composed s).
Proof.
  unfold normalize_composed.
  set (s2 := remove_Cf (lstrip_char BOM s)).
  set (s6 := sub_blank_lines (replace_cr (replace_crlf (sub_spaces s2)))).
  assert (HCR : ~ In CR s6).
  { intros H. apply sub_blank_lines_In in H. exact (replace_cr_no_CR _ H). }
  assert (HCf : forall c, In c s6 -> category_Cf c = false).
  { intros c H. apply sub_blank_lines_In, replace_cr_In in H.
    destruct H as [H | ->]; [|reflexivity].
    apply replace_crlf_In in H. destruct H as [H | ->]; [|reflexivity].
    apply sub_spaces_In in H.
    exact (proj1 (List.Forall_forall _ _) (remove_Cf_clean _) c H). }
  assert (Hsp : spaced 0 s6).
  { apply sub_blank_lines_spaced.
    apply (replace_cr_spaced _ 0), replace_crlf_spaced, sub_spaces_spaced.
    discriminate. }
  assert (Hln : lined 0 0 s6).
  { apply sub_blank_lines_lined. split; intros (E & _); discriminate E. }
  destruct (strip_infix s6) as (l & t & E).
  assert (Hin : forall c, In c (strip s6) -> In c s6).
  { intros c H. rewrite E. apply in_or_app. right. apply in_or_app. left. exact H. }
  split.
  - intros H. apply HCR, Hin, H.
  - apply List.Forall_forall. intros c H. apply HCf, Hin, H.
  - intros H. apply (spaced_no_run _ _ Hsp). rewrite E. apply occurs_in_infix, H.
  - intros H. apply (lined_no_run _ _ _ Hln). rewrite E. apply occurs_in_infix, H.
  - apply strip_head.
  - apply strip_last.
Qed.

Lemma normal_fixed s : normal s -> normalize_composed s = s.
Proof.
  intros [HCR HCf Hsp Hln Hh Hl]. unfold normalize_composed.
  rewrite lstrip_char_id.
  2:{ destruct s as [|x r]; [discriminate|]. intros [= ->].
      apply List.Forall_inv in HCf. discriminate HCf. }
  rewrite (remove_Cf_id _ HCf).
  rewrite (sub_spaces_id _ 0 (no_run_spaced_0 _ Hsp)).
  rewrite (replace_crlf_id _ HCR), (replace_cr_id _ HCR).
  rewrite (sub_blank_lines_id _ 0 0 (no_run_lined_0 _ Hln)).
  apply strip_id; assumption.
Qed.

Lemma normalize_composed_idempotent s :
  normalize_composed (normalize_composed s) = normalize_composed s.
Proof. apply normal_fixed, normalize_composed_normal. Qed.

(** C10.  Whatever it is given, [normalize_text] returns a text with no
    carriage return, no format (Cf) character, no two spaces in a row,
    no three newlines in a row, and no whitespace at either end. *)
Theorem normalize_text_output_invariants (content : Content) :
  ~ In CR (normalize_text NFC content)
  /\ Forall (fun c => category_Cf c = false) (normalize_text NFC content)
  /\ ~ occurs_in [SPACE; SPACE] (normalize_text NFC content)
  /\ ~ occurs_in [LF; LF; LF] (normalize_text NFC content)
  /\ (isspace <$> head (normalize_text NFC content)) <> Some true
  /\ (isspace <$> last (normalize_text NFC content)) <> Some true.
Proof.
  destruct (normalize_composed_normal
              (NFC match content with
                   | Bytes b => decode_replace b
                   | Text s => s
                   end)) as [HCR HCf Hsp Hln Hh Hl].
  fold (normalize_text NFC content) in *.
  repeat split; try assumption.
  - destruct (head (normalize_text NFC content)) as [c|]; [|discriminate].
    simpl. rewrite (Hh c eq_refl). discriminate.
  - destruct (last (normalize_text NFC content)) as [c|]; [|discriminate].
    simpl. rewrite (Hl c eq_refl). discriminate.
Qed.

(** C1, amended.  Normalising a normalised text changes nothing,
    provided the normalised text is still in composed form, that is,
    NFC leaves it as it is. *)
Theorem normalize_text_idempotent_on_composed (content : Content) :
  NFC (normalize_text NFC content) = normalize_text NFC content ->
  normalize_text NFC (Text (normalize_text NFC content))
  = normalize_text NFC content.
Proof.
  intros H. unfold normalize_text at 1. rewrite H.
  apply normalize_composed_idempotent.
Qed.

End NormalizerFacts.

(** * Traces and frames *)

Section WorldFrames.

Lemma writes_app cs cs' : writes (cs ++ cs') = writes cs ++ writes cs'.
Proof. apply List.filter_app. Qed.

Lemma print_frame l w :
  objects (snd (print l w)) = objects w
  /\ calls (snd (print l w)) = calls w
  /\ faults (snd (print l w)) = faults w
  /\ stdout (snd (print l w)) = stdout w ++ [l].
Proof. repeat split. Qed.

Lemma print_all_frame lines : forall w,
  objects (snd (print_all lines w)) = objects w
  /\ calls (snd (print_all lines w)) = calls w
  /\ faults (snd (print_all lines w)) = faults w
  /\ stdout (snd (print_all lines w)) = stdout w ++ lines.
Proof.
  induction lines as [|l r IH]; intros w.
  - cbn. rewrite app_nil_r. auto.
  - change (print_all (l :: r) w) with (print_all r (snd (print l w))).
    destruct (IH (snd (print l w))) as (Ho & Hc & Hf & Hs).
    rewrite Ho, Hc, Hf, Hs. cbn. rewrite <- app_assoc. auto.
Qed.

(** Listing changes nothing in the bucket and writes nothing. *)
Lemma fetch_pages_frame prefix ps : forall i w,
  objects (snd (s3_client.fetch_pages prefix i ps w)) = objects w
  /\ writes (calls (snd (s3_client.fetch_pages prefix i ps w))) = writes (calls w)
  /\ stdout (snd (s3_client.fetch_pages prefix i ps w)) = stdout w.
Proof.
  induction ps as [|p rest IH]; intros i w; [auto|].
  cbn [s3_client.fetch_pages]. unfold bind, and_then, client_call.
  destruct (next_fault (record_call (ListObjectsV2 prefix i) w)) as [e|].
  - cbn. rewrite writes_app, app_nil_r. auto.
  - specialize (IH (S i) (pop_fault (record_call (ListObjectsV2 prefix i) w))).
    destruct (s3_client.fetch_pages prefix (S i) rest
                (pop_fault (record_call (ListObjectsV2 prefix i) w)))
      as [[pages|e] w'];
      cbn in *; rewrite writes_app, app_nil_r in IH; exact IH.
Qed.

Lemma paginate_frame prefix w :
  objects (snd (s3_client.paginate prefix w)) = objects w
  /\ writes (calls (snd (s3_client.paginate prefix w))) = writes (calls w)
  /\ stdout (snd (s3_client.paginate prefix w)) = stdout w.
Proof. apply fetch_pages_frame. Qed.

(** [discover_pairs], by what the listing answers. *)
Lemma discover_pairs_eq self prefix w :
  discover_pairs self prefix w
  = match s3_client.paginate prefix w with
    | (Return pages, w1) =>
      (fst (complete_pairs (scan pages)),
       snd (print (FoundPairs (length (fst (complete_pairs (scan pages)))) prefix)
                  (snd (print_all (snd (complete_pairs (scan pages))) w1))))
    | (Raise e, w1) => ([], snd (print (DiscoveryFailed e) w1))
    end.
Proof.
  unfold discover_pairs, try_except, bind, and_then.
  destruct (s3_client.paginate prefix w) as [[pages|e] w1]; [|reflexivity].
  destruct (complete_pairs (scan pages)) as [pairs lines].
  unfold say, lift, and_then. cbn [fst snd].
  destruct (print_all lines w1) as [[] w2]. reflexivity.
Qed.

Lemma discover_pairs_frame self prefix w :
  objects (snd (discover_pairs self prefix w)) = objects w
  /\ writes (calls (snd (discover_pairs self prefix w))) = writes (calls w).
Proof.
  rewrite discover_pairs_eq.
  destruct (paginate_frame prefix w) as (Ho & Hc & _).
  destruct (s3_client.paginate prefix w) as [[pages|e] w1]; cbn [fst snd] in *.
  - destruct (print_all_frame (snd (complete_pairs (scan pages))) w1)
      as (Ho' & Hc' & _).
    cbn [print snd objects calls]. rewrite Ho', Hc'. auto.
  - auto.
Qed.

End WorldFrames.

(** * Pair discovery *)

Module KeyFacts.
Local Open Scope string_scope.

Lemma append_cons c (r t : string) : String c r +:+ t = String c (r +:+ t).
Proof. reflexivity. Qed.

Lemma append_nil_l (t : string) : EmptyString +:+ t = t.
Proof. reflexivity. Qed.

Ltac app_simpl := rewrite ?append_cons, ?append_nil_l.
Ltac app_simpl_in H := rewrite ?append_cons, ?append_nil_l in H.

Lemma length_append (a b : string) :
  String.length (a +:+ b) = (String.length a + String.length b)%nat.
Proof.
  induction a as [|x r IH]; [reflexivity|].
  app_simpl. cbn [String.length]. rewrite IH. reflexivity.
Qed.

(** [endswith] is "has this suffix". *)
Lemma endswith_spec s suffix :
  Key.endswith s suffix = true <-> exists b, s = b +:+ suffix.
Proof.
  induction s as [|c r IH]; cbn [Key.endswith].
  - rewrite orb_false_r, String.eqb_eq. split.
    + intros ->. exists EmptyString. reflexivity.
    + intros [[|x b] E]; [exact E | discriminate E].
  - rewrite orb_true_iff, String.eqb_eq, IH. split.
    + intros [E | [b E]].
      * exists EmptyString. exact E.
      * exists (String c b). app_simpl. rewrite E. reflexivity.
    + intros [[|x b] E]; [left; exact E|].
      right. exists b. app_simpl_in E. congruence.
Qed.

Lemma substring_prefix (b t : string) :
  substring 0 (String.length b) (b +:+ t) = b.
Proof.
  induction b as [|c r IH].
  - app_simpl. destruct t; reflexivity.
  - app_simpl. cbn [String.length substring]. rewrite IH. reflexivity.
Qed.

(** [(b + suffix)[:-len(suffix)]] is [b]. *)
Lemma drop_last_append b suffix :
  Key.drop_last (String.length suffix) (b +:+ suffix) = b.
Proof.
  unfold Key.drop_last. rewrite length_append.
  replace (String.length b + String.length suffix - String.length suffix)%nat
    with (String.length b) by lia.
  apply substring_prefix.
Qed.

(** Two keys with the same extension have the same base. *)
Lemma append_inv_tail (a b t : string) : a +:+ t = b +:+ t -> a = b.
Proof.
  revert b. induction a as [|x a IH]; intros [|y b] E; app_simpl_in E.
  - reflexivity.
  - exfalso. apply (f_equal String.length) in E. cbn [String.length] in E.
    rewrite length_append in E. lia.
  - exfalso. apply (f_equal String.length) in E. cbn [String.length] in E.
    rewrite length_append in E. lia.
  - injection E as -> E. f_equal. apply IH, E.
Qed.

(** A key has one extension at most. *)
Lemma txt_is_not_json (a b : string) : a +:+ ".txt" <> b +:+ ".json".
Proof.
  revert b. induction a as [|x a IH]; intros b E.
  - destruct b as [|y [|y1 [|y2 [|y3 b]]]]; try discriminate E.
    app_simpl_in E. injection E as _ _ _ _ E. destruct b; discriminate E.
  - destruct b as [|y b]; app_simpl_in E.
    + injection E as _ E.
      destruct a as [|a0 [|a1 [|a2 [|a3 a]]]]; try discriminate E.
      app_simpl_in E. injection E as _ _ _ _ E. destruct a; discriminate E.
    + injection E as _ E. exact (IH b E).
Qed.

Lemma not_json_of_txt b : Key.endswith (b +:+ ".txt") ".json" = false.
Proof.
  apply not_true_is_false. rewrite endswith_spec. intros [b' E].
  exact (txt_is_not_json _ _ E).
Qed.

End KeyFacts.

Module DictFacts.

Lemma dict_get_set_eq {V} k (v : V) d : dict_get k (dict_set k v d) = Some v.
Proof.
  induction d as [|[k' v'] r IH]; cbn.
  - rewrite String.eqb_refl. reflexivity.
  - destruct (String.eqb k' k) eqn:E; cbn; rewrite ?E, ?String.eqb_refl; auto.
Qed.

Lemma dict_get_set_ne {V} k k' (v : V) d :
  k <> k' -> dict_get k' (dict_set k v d) = dict_get k' d.
Proof.
  intros Hne. induction d as [|[k0 v0] r IH]; cbn.
  - apply String.eqb_neq in Hne. rewrite Hne. reflexivity.
  - destruct (String.eqb k0 k) eqn:E; cbn.
    + apply String.eqb_eq in E. subst k0.
      apply String.eqb_neq in Hne. rewrite Hne. reflexivity.
    + destruct (String.eqb k0 k'); auto.
Qed.

Lemma dict_get_In {V} k (v : V) d : dict_get k d = Some v -> In (k, v) d.
Proof.
  induction d as [|[k' v'] r IH]; cbn; [discriminate|].
  destruct (String.eqb k' k) eqn:E.
  - apply String.eqb_eq in E. intros [= ->]. left. congruence.
  - intros H. right. apply IH, H.
Qed.

Lemma dict_get_None {V} k (d : list (string * V)) :
  dict_get k d = None -> ~ In k (map fst d).
Proof.
  induction d as [|[k' v'] r IH]; cbn; [tauto|].
  destruct (String.eqb k' k) eqn:E; [discriminate|].
  apply String.eqb_neq in E. intros H [H'|H']; [exact (E H') | exact (IH H H')].
Qed.

Lemma In_dict_get {V} k (v : V) d :
  NoDup (map fst d) -> In (k, v) d -> dict_get k d = Some v.
Proof.
  induction d as [|[k' v'] r IH]; cbn; [tauto|].
  intros Hnd [H|H].
  - injection H as -> ->. rewrite String.eqb_refl. reflexivity.
  - apply NoDup_cons in Hnd as [Hk Hnd].
    destruct (String.eqb k' k) eqn:E.
    + apply String.eqb_eq in E. subst k'. exfalso. apply Hk.
      apply list_elem_of_In, in_map_iff. exists (k, v). auto.
    + apply IH; assumption.
Qed.

(** [dict_set] keeps the keys apart. *)
Lemma dict_set_NoDup {V} k (v : V) d :
  NoDup (map fst d) -> NoDup (map fst (dict_set k v d)).
Proof.
  induction d as [|[k' v'] r IH]; cbn; intros Hnd.
  - apply NoDup_singleton.
  - destruct (String.eqb k' k) eqn:E; cbn.
    + apply String.eqb_eq in E. subst k'. exact Hnd.
    + apply NoDup_cons in Hnd as [Hk Hr]. apply NoDup_cons. split; [|auto].
      rewrite list_elem_of_In in *. intros Hin. apply Hk.
      apply in_map_iff in Hin as ((k0 & v0) & E0 & Hin). cbn in E0. subst k0.
      destruct (dict_get k' r) as [v1|] eqn:Eg.
      * apply in_map_iff. exists (k', v1). split; [reflexivity|].
        apply dict_get_In, Eg.
      * exfalso. apply String.eqb_neq in E.
        assert (Hg : dict_get k' (dict_set k v r) = dict_get k' r)
          by (apply dict_get_set_ne; congruence).
        rewrite Eg in Hg. apply dict_get_None in Hg. apply Hg.
        apply in_map_iff. exists (k', v0). auto.
Qed.

End DictFacts.

Module DiscoveryFacts.
Import KeyFacts DictFacts.
Local Open Scope string_scope.

Lemma observe_json fb b0 :
  NoDup (map fst fb) ->
  NoDup (map fst (observe fb (b0 +:+ ".json")))
  /\ forall b,
      dict_get b (observe fb (b0 +:+ ".json"))
      = if String.eqb b0 b
        then Some {| json := Some (b0 +:+ ".json"); txt := txt_of b0 fb |}
        else dict_get b fb.
Proof.
  intros Hnd. unfold observe, txt_of.
  assert (E : Key.endswith (b0 +:+ ".json") ".json" = true)
    by (apply endswith_spec; eauto).
  rewrite E. cbn [orb].
  change 5%nat with (String.length ".json"). rewrite drop_last_append.
  destruct (dict_get b0 fb) as [f|] eqn:Eg; cbn [default].
  - rewrite Eg. cbn [default]. split; [apply dict_set_NoDup, Hnd|].
    intros b. destruct (String.eqb b0 b) eqn:Eb.
    + apply String.eqb_eq in Eb. subst b. apply dict_get_set_eq.
    + apply String.eqb_neq in Eb. apply dict_get_set_ne, Eb.
  - rewrite dict_get_set_eq. cbn [default json txt].
    split; [apply dict_set_NoDup, dict_set_NoDup, Hnd|].
    intros b. destruct (String.eqb b0 b) eqn:Eb.
    + apply String.eqb_eq in Eb. subst b. apply dict_get_set_eq.
    + apply String.eqb_neq in Eb. rewrite !dict_get_set_ne by exact Eb.
      reflexivity.
Qed.

Lemma observe_txt fb b0 :
  NoDup (map fst fb) ->
  NoDup (map fst (observe fb (b0 +:+ ".txt")))
  /\ forall b,
      dict_get b (observe fb (b0 +:+ ".txt"))
      = if String.eqb b0 b
        then Some {| json := json_of b0 fb; txt := Some (b0 +:+ ".txt") |}
        else dict_get b fb.
Proof.
  intros Hnd. unfold observe, json_of.
  assert (E : Key.endswith (b0 +:+ ".txt") ".txt" = true)
    by (apply endswith_spec; eauto).
  rewrite E, not_json_of_txt. cbn [orb].
  change 4%nat with (String.length ".txt"). rewrite drop_last_append.
  destruct (dict_get b0 fb) as [f|] eqn:Eg; cbn [default].
  - rewrite Eg. cbn [default]. split; [apply dict_set_NoDup, Hnd|].
    intros b. destruct (String.eqb b0 b) eqn:Eb.
    + apply String.eqb_eq in Eb. subst b. apply dict_get_set_eq.
    + apply String.eqb_neq in Eb. apply dict_get_set_ne, Eb.
  - rewrite dict_get_set_eq. cbn [default json txt].
    split; [apply dict_set_NoDup, dict_set_NoDup, Hnd|].
    intros b. destruct (String.eqb b0 b) eqn:Eb.
    + apply String.eqb_eq in Eb. subst b. apply dict_get_set_eq.
    + apply String.eqb_neq in Eb. rewrite !dict_get_set_ne by exact Eb.
      reflexivity.
Qed.

Lemma observe_other fb key :
  Key.endswith key ".json" = false -> Key.endswith key ".txt" = false ->
  observe fb key = fb.
Proof. intros E1 E2. unfold observe. rewrite E1, E2. reflexivity. Qed.

Lemma In_snoc {A} (x y : A) l : In x (l ++ [y]) <-> In x l \/ x = y.
Proof. rewrite in_app_iff. cbn. intuition. Qed.

Lemma observe_seen keys fb key :
  seen keys fb -> seen (keys ++ [key]) (observe fb key).
Proof.
  intros [Hnd Hj Ht Hs].
  destruct (Key.endswith key ".json") eqn:E1;
    [|destruct (Key.endswith key ".txt") eqn:E2].
  - apply endswith_spec in E1 as [b0 ->].
    destruct (observe_json fb b0 Hnd) as [Hnd' Hget]. split; [exact Hnd'| | |].
    + intros b j. unfold json_of. rewrite Hget, In_snoc.
      destruct (String.eqb b0 b) eqn:Eb.
      * apply String.eqb_eq in Eb. subst b. cbn [json].
        split; [intros [= <-]; auto | intros [-> _]; reflexivity].
      * apply String.eqb_neq in Eb. fold (json_of b fb). rewrite Hj.
        split; [tauto|]. intros [-> [H|H]]; [auto|].
        exfalso. apply Eb. symmetry. exact (append_inv_tail _ _ _ H).
    + intros b t. unfold txt_of at 1. rewrite Hget, In_snoc.
      destruct (String.eqb b0 b) eqn:Eb.
      * apply String.eqb_eq in Eb. subst b. cbn [txt]. rewrite Ht.
        split; [tauto|]. intros [-> [H|H]]; [auto|].
        exfalso. exact (txt_is_not_json _ _ H).
      * fold (txt_of b fb). rewrite Ht.
        split; [tauto|]. intros [-> [H|H]]; [auto|].
        exfalso. exact (txt_is_not_json _ _ H).
    + intros b f. rewrite Hget. destruct (String.eqb b0 b).
      * intros [= <-]. left. discriminate.
      * apply Hs.
  - apply endswith_spec in E2 as [b0 ->].
    destruct (observe_txt fb b0 Hnd) as [Hnd' Hget]. split; [exact Hnd'| | |].
    + intros b j. unfold json_of at 1. rewrite Hget, In_snoc.
      destruct (String.eqb b0 b) eqn:Eb.
      * apply String.eqb_eq in Eb. subst b. cbn [json]. rewrite Hj.
        split; [tauto|]. intros [-> [H|H]]; [auto|].
        exfalso. exact (txt_is_not_json _ _ (eq_sym H)).
      * fold (json_of b fb). rewrite Hj.
        split; [tauto|]. intros [-> [H|H]]; [auto|].
        exfalso. exact (txt_is_not_json _ _ (eq_sym H)).
    + intros b t. unfold txt_of. rewrite Hget, In_snoc.
      destruct (String.eqb b0 b) eqn:Eb.
      * apply String.eqb_eq in Eb. subst b. cbn [txt].
        split; [intros [= <-]; auto | intros [-> _]; reflexivity].
      * apply String.eqb_neq in Eb. fold (txt_of b fb). rewrite Ht.
        split; [tauto|]. intros [-> [H|H]]; [auto|].
        exfalso. apply Eb. symmetry. exact (append_inv_tail _ _ _ H).
    + intros b f. rewrite Hget. destruct (String.eqb b0 b).
      * intros [= <-]. right. discriminate.
      * apply Hs.
  - rewrite (observe_other fb key E1 E2). split; [exact Hnd| | |exact Hs].
    + intros b j. rewrite Hj, In_snoc. split; [tauto|].
      intros [-> [H|H]]; [auto|]. exfalso. subst key.
      apply not_true_iff_false in E1. apply E1, endswith_spec. eauto.
    + intros b t. rewrite Ht, In_snoc. split; [tauto|].
      intros [-> [H|H]]; [auto|]. exfalso. subst key.
      apply not_true_iff_false in E2. apply E2, endswith_spec. eauto.
Qed.

Lemma fold_observe_seen ks : forall keys fb,
  seen keys fb -> seen (keys ++ ks) (fold_left observe ks fb).
Proof.
  induction ks as [|k r IH]; intros keys fb H; cbn [fold_left].
  - rewrite app_nil_r. exact H.
  - replace (keys ++ k :: r)%list with ((keys ++ [k]) ++ r)%list
      by (rewrite <- app_assoc; reflexivity).
    apply IH, observe_seen, H.
Qed.

Lemma scan_listed pages : scan pages = fold_left observe (listed pages) [].
Proof.
  unfold scan, listed. generalize (@nil (string * Files)).
  induction pages as [|[contents|] rest IH]; intros fb; cbn [fold_left flat_map].
  - reflexivity.
  - rewrite fold_left_app. apply IH.
  - apply IH.
Qed.

Lemma scan_seen pages : seen (listed pages) (scan pages).
Proof.
  rewrite scan_listed. apply (fold_observe_seen (listed pages) [] []).
  constructor.
  - apply NoDup_nil_2.
  - intros b x. cbn. split; [discriminate | intros [_ []]].
  - intros b x. cbn. split; [discriminate | intros [_ []]].
  - discriminate.
Qed.


Lemma complete_pairs_cons b f rest :
  complete_pairs ((b, f) :: rest)
  = match json f, txt f with
    | Some j, Some t =>
      ((b, j, t) :: fst (complete_pairs rest), snd (complete_pairs rest))
    | j, _ =>
      (fst (complete_pairs rest),
       IncompletePair b (match j with Some _ => "txt" | None => "json" end)
                      :: snd (complete_pairs rest))
    end.
Proof.
  cbn [complete_pairs]. destruct (complete_pairs rest) as [pairs lines].
  destruct (json f), (txt f); reflexivity.
Qed.

Lemma complete_pairs_In fb b j t :
  In (b, j, t) (fst (complete_pairs fb))
  <-> exists f, In (b, f) fb /\ json f = Some j /\ txt f = Some t.
Proof.
  induction fb as [|[b' f'] rest IH].
  - cbn. split; [tauto | intros (f & [] & _)].
  - rewrite complete_pairs_cons.
    destruct (json f') as [j'|] eqn:Ej; [destruct (txt f') as [t'|] eqn:Et|];
      cbn [fst In]; rewrite IH; split.
    + intros [[= -> -> ->] | (f & Hin & H)]; [exists f'; auto | exists f; auto].
    + intros (f & [[= -> ->] | Hin] & Hj & Ht); [left; congruence | right; eauto].
    + intros (f & Hin & H). exists f; auto.
    + intros (f & [[= -> ->] | Hin] & Hj & Ht); [congruence | eauto].
    + intros (f & Hin & H). exists f; auto.
    + intros (f & [[= -> ->] | Hin] & Hj & Ht); [congruence | eauto].
Qed.

Lemma complete_pairs_lines fb b missing :
  In (IncompletePair b missing) (snd (complete_pairs fb))
  <-> exists f, In (b, f) fb
                /\ ((json f <> None /\ txt f = None /\ missing = "txt")
                    \/ (json f = None /\ missing = "json")).
Proof.
  induction fb as [|[b' f'] rest IH].
  - cbn. split; [tauto | intros (f & [] & _)].
  - rewrite complete_pairs_cons.
    destruct (json f') as [j'|] eqn:Ej; [destruct (txt f') as [t'|] eqn:Et|];
      cbn [snd In]; rewrite IH; split.
    + intros (f & Hin & H). exists f; auto.
    + intros (f & [E | Hin] & H).
      * injection E as -> ->. rewrite Ej, Et in H.
        destruct H as [(_ & H & _) | (H & _)]; discriminate H.
      * exists f; auto.
    + intros [E | (f & Hin & H)]; [|exists f; auto].
      injection E as -> ->. exists f'. split; [auto|]. left.
      rewrite Ej, Et. repeat split. discriminate.
    + intros (f & [E | Hin] & H).
      * injection E as -> ->. rewrite Ej in H.
        destruct H as [(_ & _ & ->) | (H & _)]; [left; reflexivity | discriminate H].
      * right. exists f; auto.
    + intros [E | (f & Hin & H)]; [|exists f; auto].
      injection E as -> ->. exists f'. split; [auto|]. right. rewrite Ej. auto.
    + intros (f & [E | Hin] & H).
      * injection E as -> ->. rewrite Ej in H.
        destruct H as [(H & _) | (_ & ->)]; [congruence | left; reflexivity].
      * right. exists f; auto.
Qed.

End DiscoveryFacts.

Section DiscoveryTheorem.
Import KeyFacts DictFacts DiscoveryFacts.
Local Open Scope string_scope.

Lemma seen_lookup keys fb b f :
  seen keys fb -> In (b, f) fb -> json_of b fb = json f /\ txt_of b fb = txt f.
Proof.
  intros [Hnd _ _ _] Hin. unfold json_of, txt_of.
  rewrite (In_dict_get _ _ _ Hnd Hin). auto.
Qed.

Lemma seen_entry (fb : list (string * Files)) b x :
  json_of b fb = Some x \/ txt_of b fb = Some x ->
  exists f, In (b, f) fb /\ json_of b fb = json f /\ txt_of b fb = txt f.
Proof.
  unfold json_of, txt_of. destruct (dict_get b fb) as [f|] eqn:E.
  - intros _. exists f. split; [apply dict_get_In, E | auto].
  - intros [H|H]; discriminate H.
Qed.

(** C3.  Whatever pages the listing returns, a base key is among the
    discovered pairs exactly when the key with [.json] and the key with
    [.txt] after that base were both listed, and its pair is made of
    these two keys; a base listed with one extension only is printed as
    incomplete, with the extension it lacks, and is in no pair.  This
    is what [discover_pairs] returns and prints when the listing is
    answered. *)
Theorem discover_pairs_correct (pages : list s3_client.Page) :
  (forall b, In b (map (fun p : Pair => fst (fst p))
                       (fst (complete_pairs (scan pages))))
             <-> In (b +:+ ".json") (listed pages) /\ In (b +:+ ".txt") (listed pages))
  /\ (forall b j t, In (b, j, t) (fst (complete_pairs (scan pages))) ->
                    j = b +:+ ".json" /\ t = b +:+ ".txt")
  /\ (forall b, In (IncompletePair b "txt") (snd (complete_pairs (scan pages)))
                <-> In (b +:+ ".json") (listed pages)
                    /\ ~ In (b +:+ ".txt") (listed pages))
  /\ (forall b, In (IncompletePair b "json") (snd (complete_pairs (scan pages)))
                <-> ~ In (b +:+ ".json") (listed pages)
                    /\ In (b +:+ ".txt") (listed pages))
  /\ (forall self prefix w w1,
         s3_client.paginate prefix w = (Return pages, w1) ->
         fst (discover_pairs self prefix w) = fst (complete_pairs (scan pages))
         /\ stdout (snd (discover_pairs self prefix w))
            = (stdout w ++ snd (complete_pairs (scan pages))
               ++ [FoundPairs (length (fst (complete_pairs (scan pages)))) prefix])%list).
Proof.
  pose proof (scan_seen pages) as S.
  pose proof (seen_json _ _ S) as Hj. pose proof (seen_txt _ _ S) as Ht.
  assert (Hpair : forall b j t,
             In (b, j, t) (fst (complete_pairs (scan pages)))
             <-> (j = b +:+ ".json" /\ In j (listed pages))
                 /\ (t = b +:+ ".txt" /\ In t (listed pages))).
  { intros b j t. rewrite complete_pairs_In, <- Hj, <- Ht. split.
    - intros (f & Hin & Ej & Et).
      destruct (seen_lookup _ _ _ _ S Hin) as [-> ->]. auto.
    - intros [Ej Et].
      destruct (seen_entry _ b j (or_introl Ej)) as (f & Hin & E1 & E2).
      exists f. rewrite <- E1, <- E2. auto. }
  split; [|split; [|split; [|split]]].
  - intros b. rewrite in_map_iff. split.
    + intros ([[b' j] t] & E & Hin). cbn in E. subst b'.
      apply Hpair in Hin as [[-> Hj'] [-> Ht']]. auto.
    + intros [Hj' Ht']. exists (b, b +:+ ".json", b +:+ ".txt").
      split; [reflexivity|]. apply Hpair. auto.
  - intros b j t Hin. apply Hpair in Hin. tauto.
  - intros b. rewrite complete_pairs_lines. split.
    + intros (f & Hin & [(Hjs & Hts & _) | (_ & [=])]).
      destruct (seen_lookup _ _ _ _ S Hin) as [E1 E2]. split.
      * destruct (json f) as [j|]; [|congruence].
        apply Hj in E1 as [-> Hin']. exact Hin'.
      * intros Hin'. assert (E : txt_of b (scan pages) = Some (b +:+ ".txt"))
          by (apply Ht; auto). congruence.
    + intros [Hin Hnot].
      assert (Ej : json_of b (scan pages) = Some (b +:+ ".json")) by (apply Hj; auto).
      destruct (seen_entry _ b _ (or_introl Ej)) as (f & Hf & E1 & E2).
      exists f. split; [exact Hf|]. left. repeat split.
      * congruence.
      * destruct (txt f) as [t|]; [|reflexivity]. exfalso.
        apply Ht in E2 as [-> Hin']. exact (Hnot Hin').
  - intros b. rewrite complete_pairs_lines. split.
    + intros (f & Hin & [(_ & _ & [=]) | (Hjs & _)]).
      destruct (seen_lookup _ _ _ _ S Hin) as [E1 E2]. split.
      * intros Hin'.
        assert (E : json_of b (scan pages) = Some (b +:+ ".json"))
          by (apply Hj; auto). congruence.
      * destruct (seen_some _ _ S b f) as [H|H].
        -- apply (In_dict_get _ _ _ (seen_NoDup _ _ S) Hin).
        -- congruence.
        -- destruct (txt f) as [t|]; [|congruence].
           apply Ht in E2 as [-> Hin']. exact Hin'.
    + intros [Hnot Hin].
      assert (Et : txt_of b (scan pages) = Some (b +:+ ".txt")) by (apply Ht; auto).
      destruct (seen_entry _ b _ (or_intror Et)) as (f & Hf & E1 & E2).
      exists f. split; [exact Hf|]. right. split; [|reflexivity].
      destruct (json f) as [j|]; [|reflexivity]. exfalso.
      apply Hj in E1 as [-> Hin']. exact (Hnot Hin').
  - intros self prefix w w1 Hp. rewrite discover_pairs_eq, Hp. cbn [fst snd].
    split; [reflexivity|].
    destruct (print_all_frame (snd (complete_pairs (scan pages))) w1)
      as (_ & _ & _ & Hs).
    cbn [print snd stdout]. rewrite Hs.
    destruct (paginate_frame prefix w) as (_ & _ & Hs').
    rewrite Hp in Hs'. cbn [snd] in Hs'. rewrite Hs', <- app_assoc. reflexivity.
Qed.

End DiscoveryTheorem.

(** * The curator against the bucket *)

Ltac split_matches :=
  repeat (cbn [objects faults calls stdout clock ticks fst snd tail];
          match goal with
          | |- context [match ?x with _ => _ end] =>
            lazymatch x with
            | context [match _ with _ => _ end] => fail
            | _ => destruct x eqn:?
            end
          end);
  cbn [objects faults calls stdout clock ticks fst snd tail].

Ltac issued_calls :=
  split; cbn [calls faults length skipn]; rewrite <- ?app_assoc; reflexivity.

Section CuratorFacts.

Variable NFC : str -> str.

Lemma tag_rejection_codes code :
  String.eqb code "AccessDenied" || String.eqb code "InvalidTag" = true
  <-> tag_rejection (ClientError code).
Proof.
  unfold tag_rejection. rewrite orb_true_iff, !String.eqb_eq.
  split; intros [H|H]; [left | right | left | right]; congruence.
Qed.

Lemma curate_file_unencodable self base_key txt_key txt_info w :
  normalized_bytes_of NFC txt_info = None ->
  fst (curate_file NFC self base_key txt_key txt_info w) = None
  /\ issued w (snd (curate_file NFC self base_key txt_key txt_info w)) []
  /\ objects (snd (curate_file NFC self base_key txt_key txt_info w)) = objects w.
Proof.
  unfold normalized_bytes_of. intros H.
  unfold curate_file, try_except, and_then, bind, encode_utf8. rewrite H.
  unfold issued. cbn. rewrite app_nil_r. auto.
Qed.

Lemma curate_file_curation self base_key txt_key txt_info nb w :
  normalized_bytes_of NFC txt_info = Some nb ->
  curation (curated_key_of base_key) nb w
           (snd (curate_file NFC self base_key txt_key txt_info w))
           (fst (curate_file NFC self base_key txt_key txt_info w)).
Proof.
  unfold normalized_bytes_of. intros H.
  unfold curate_file, try_except, and_then, bind, encode_utf8. rewrite H.
  generalize (curated_key_of base_key). intros key.
  destruct w as [objs fs cs out clk tk].
  unfold existing_curation, write_curated, try_except_ClientError, and_then,
    bind, say, lift, and_then, ret, raise, pure, print,
    s3_client.get_object, s3_client.put_object, client_call, next_fault,
    record_call, pop_fault, store.
  split_matches.
  all: repeat match goal with
       | H : negb (String.eqb _ _) = false |- _ =>
         apply negb_false_iff, String.eqb_eq in H; subst
       | H : negb (String.eqb _ _) = true |- _ =>
         apply negb_true_iff, String.eqb_neq in H
       | H : (String.eqb _ _ || String.eqb _ _) = true |- _ =>
         apply tag_rejection_codes in H
       | H : (String.eqb _ _ || String.eqb _ _) = false |- _ =>
         apply not_true_iff_false in H; rewrite tag_rejection_codes in H
       end.
  all: try congruence.
  all: assert (forall x, ~ tag_rejection (OtherError x))
    by (intros ? [|]; discriminate).
  all: try match goal with
       | |- curation _ _ ?w _ _ =>
         assert (reaches_write key nb w)
           by (unfold reaches_write, fault_at; cbn [faults objects nth];
               first [ left; reflexivity
                     | right; split; [reflexivity|];
                       match goal with
                       | E : ?m = None |- context [?m] => rewrite E; exact I
                       | E : ?m = Some _, E' : String.eqb _ _ = false
                         |- context [?m] =>
                         rewrite E; apply String.eqb_neq; exact E'
                       end ])
       end.
  all: first
    [ eapply curation_short_circuit;
      [reflexivity | eassumption | apply String.eqb_eq; eassumption
       | issued_calls | reflexivity]
    | eapply curation_read_failed;
      [reflexivity | congruence | issued_calls | reflexivity]
    | eapply curation_written;
      [assumption | reflexivity | issued_calls | reflexivity]
    | eapply curation_write_failed;
      [assumption | reflexivity | solve [auto] | issued_calls | reflexivity]
    | eapply curation_retried;
      [assumption | reflexivity | eassumption | reflexivity
       | issued_calls | reflexivity]
    | eapply curation_retry_failed;
      [assumption | reflexivity | eassumption | reflexivity
       | issued_calls | reflexivity] ].
Qed.


(** A run that reaches the write neither short-circuits nor fails on
    the read. *)
Lemma reaches_write_not_found key nb w o :
  reaches_write key nb w -> fault_at 0 w = None -> objects w !! key = Some o ->
  calculate_sha256 (Body o) <> calculate_sha256 nb.
Proof.
  intros [Hf | [_ Ho]] Hn E; [congruence|]. rewrite E in Ho. exact Ho.
Qed.

Lemma reaches_write_read_ok key nb w e :
  reaches_write key nb w -> fault_at 0 w = Some e -> e = ClientError "NoSuchKey".
Proof. intros [Hf | [Hf _]] E; congruence. Qed.

Lemma curate_file_result self base_key txt_key txt_info w result :
  fst (curate_file NFC self base_key txt_key txt_info w) = Some result ->
  exists nb, normalized_bytes_of NFC txt_info = Some nb
             /\ result = result_of (curated_key_of base_key) nb.
Proof.
  intros H. destruct (normalized_bytes_of NFC txt_info) as [nb|] eqn:E.
  - exists nb. split; [reflexivity|].
    pose proof (curate_file_curation self base_key txt_key txt_info nb w E) as C.
    rewrite H in C. inversion C; reflexivity.
  - destruct (curate_file_unencodable self base_key txt_key txt_info w E) as [E' _].
    congruence.
Qed.

(** C4.  When curation succeeds, the checksum it returns is ["sha256:"]
    and the hex SHA-256 digest of the bytes the bucket then holds at
    the curated key: the normalised bytes just written, or, when no
    write was issued, those of the object that was there before. *)
Theorem curated_checksum_integrity self base_key txt_key txt_info w result :
  fst (curate_file NFC self base_key txt_key txt_info w) = Some result ->
  exists nb o,
    normalized_bytes_of NFC txt_info = Some nb
    /\ objects (snd (curate_file NFC self base_key txt_key txt_info w))
         !! curated_key result = Some o
    /\ curated_checksum result
       = ("sha256:" +:+ Sha256.hexdigest (Body o))%string
    /\ ((Body o = nb
         /\ exists cs tagging,
             calls (snd (curate_file NFC self base_key txt_key txt_info w))
             = calls w ++ cs ++ [PutObject (curated_key result) nb
                                           curated_content_type tagging])
        \/ (objects w !! curated_key result = Some o
            /\ calls (snd (curate_file NFC self base_key txt_key txt_info w))
               = calls w ++ [GetObject (curated_key result)])).
Proof.
  intros H. destruct (curate_file_result _ _ _ _ _ _ H) as (nb & E & ->).
  pose proof (curate_file_curation self base_key txt_key txt_info nb w E) as C.
  rewrite H in C. exists nb.
  inversion C as [o Hf Ho Hsha [Hc _] Hobj | | Hr Hf [Hc _] Hobj | |
                  e Hr Hf Ht Hf2 [Hc _] Hobj | ]; subst; cbn [curated_key].
  - exists o. rewrite Hobj.
    split; [assumption|]. split; [assumption|]. split.
    + cbn [result_of curated_checksum]. unfold calculate_sha256 in *.
      rewrite Hsha. reflexivity.
    + right. split; assumption.
  - exists (curated_object nb (Some curated_tagging)).
    rewrite Hobj, lookup_insert_eq.
    split; [assumption|]. split; [reflexivity|]. split; [reflexivity|].
    left. split; [reflexivity|].
    exists [GetObject (curated_key_of base_key)], (Some curated_tagging). exact Hc.
  - exists (curated_object nb None).
    rewrite Hobj, lookup_insert_eq.
    split; [assumption|]. split; [reflexivity|]. split; [reflexivity|].
    left. split; [reflexivity|].
    exists [GetObject (curated_key_of base_key);
            put_curated (curated_key_of base_key) nb (Some curated_tagging)], None.
    exact Hc.
Qed.

(** What a successful run leaves at the curated key. *)
Lemma curation_leaves key nb w w' result :
  curation key nb w w' (Some result) ->
  result = result_of key nb
  /\ exists o, objects w' !! key = Some o
               /\ calculate_sha256 (Body o) = calculate_sha256 nb.
Proof.
  intros C.
  inversion C as [o Hf Ho Hsha _ Hobj | | Hr Hf _ Hobj | |
                  e Hr Hf Ht Hf2 _ Hobj | ]; subst; split; try reflexivity.
  - exists o. rewrite Hobj. auto.
  - eexists. rewrite Hobj, lookup_insert_eq. split; reflexivity.
  - eexists. rewrite Hobj, lookup_insert_eq. split; reflexivity.
Qed.

(** C2, amended.  Curating the same source bytes a second time, in the
    world the first, successful run left and with the store answering
    the read, returns the same result, reads the curated object and
    writes nothing.  The write calls of the two runs together are
    those of the first: one when it reaches the write and the tagged
    write is answered, two when the tagged write is rejected and
    retried, none when the curated object already had the checksum. *)
Theorem curation_twice self base_key txt_key info1 info2 nb w w1 result :
  info_content info1 = info_content info2 ->
  normalized_bytes_of NFC info1 = Some nb ->
  curate_file NFC self base_key txt_key info1 w = (Some result, w1) ->
  fault_at 0 w1 = None ->
  exists w2 cs,
    curate_file NFC self base_key txt_key info2 w1 = (Some result, w2)
    /\ objects w2 = objects w1
    /\ calls w2 = calls w1 ++ [GetObject (curated_key result)]
    /\ calls w2 = calls w ++ cs
    /\ (reaches_write (curated_key result) nb w -> fault_at 1 w = None ->
        write_calls cs = 1%nat)
    /\ (reaches_write (curated_key result) nb w -> fault_at 1 w <> None ->
        write_calls cs = 2%nat)
    /\ (~ reaches_write (curated_key result) nb w -> write_calls cs = 0%nat).
Proof.
  intros Hsame E H1 Hf1.
  pose proof (curate_file_curation self base_key txt_key info1 nb w E) as C1.
  rewrite H1 in C1. cbn [fst snd] in C1.
  destruct (curation_leaves _ _ _ _ _ C1) as (-> & o & Ho & Hsha).
  assert (E2 : normalized_bytes_of NFC info2 = Some nb)
    by (unfold normalized_bytes_of in *; rewrite <- Hsame; exact E).
  pose proof (curate_file_curation self base_key txt_key info2 nb w1 E2) as C2.
  destruct (curate_file NFC self base_key txt_key info2 w1) as [r2 w2].
  cbn [fst snd curated_key result_of] in *.
  assert (Hshort : r2 = Some (result_of (curated_key_of base_key) nb)
                   /\ objects w2 = objects w1
                   /\ calls w2 = calls w1 ++ [GetObject (curated_key_of base_key)]).
  { inversion C2 as [o' Hf Ho' Hsha' [Hc _] Hobj | e Hf | Hr | e Hr | e Hr | e e' Hr];
      subst; try congruence;
      try (exfalso; exact (reaches_write_not_found _ _ _ _ Hr Hf1 Ho Hsha)).
    auto. }
  destruct Hshort as (-> & Hobj2 & Hc2).
  exists w2, (drop (length (calls w)) (calls w2)).
  split; [reflexivity|]. split; [exact Hobj2|]. split; [exact Hc2|].
  inversion C1 as [o' Hf Ho' Hsha' [Hc _] Hobj | | Hr Hf [Hc _] Hobj | |
                   e Hr Hf Ht Hf2 [Hc _] Hobj | ]; subst;
    rewrite Hc2, Hc, <- app_assoc, drop_app_length; (split; [reflexivity|]).
  - assert (Hn : ~ reaches_write (curated_key_of base_key) nb w)
      by (intros Hr; exact (reaches_write_not_found _ _ _ _ Hr Hf Ho' Hsha')).
    repeat split; intros; try reflexivity; tauto.
  - repeat split; intros; try reflexivity; tauto.
  - repeat split; intros; try reflexivity; try tauto; congruence.
Qed.

(** C7, amended.  When the store rejects the tagged write of the
    curated object with [AccessDenied] or [InvalidTag], the curator
    issues the write once more, without tags; curation succeeds when
    the store answers that second write and fails when it raises.  Any
    other error on the tagged write makes curation fail, with no
    further write. *)
Theorem tagging_rejection_retried_once self base_key txt_key txt_info nb w e :
  normalized_bytes_of NFC txt_info = Some nb ->
  reaches_write (curated_key_of base_key) nb w ->
  fault_at 1 w = Some e ->
  (tag_rejection e ->
   calls (snd (curate_file NFC self base_key txt_key txt_info w))
   = calls w ++ [GetObject (curated_key_of base_key);
                 put_curated (curated_key_of base_key) nb (Some curated_tagging);
                 put_curated (curated_key_of base_key) nb None]
   /\ (fault_at 2 w = None ->
       fst (curate_file NFC self base_key txt_key txt_info w)
       = Some (result_of (curated_key_of base_key) nb)
       /\ objects (snd (curate_file NFC self base_key txt_key txt_info w))
            !! curated_key_of base_key = Some (curated_object nb None))
   /\ (fault_at 2 w <> None ->
       fst (curate_file NFC self base_key txt_key txt_info w) = None
       /\ objects (snd (curate_file NFC self base_key txt_key txt_info w))
          = objects w))
  /\ (~ tag_rejection e ->
      fst (curate_file NFC self base_key txt_key txt_info w) = None
      /\ calls (snd (curate_file NFC self base_key txt_key txt_info w))
         = calls w ++ [GetObject (curated_key_of base_key);
                       put_curated (curated_key_of base_key) nb
                                   (Some curated_tagging)]
      /\ objects (snd (curate_file NFC self base_key txt_key txt_info w))
         = objects w).
Proof.
  intros E Hr Hf1.
  pose proof (curate_file_curation self base_key txt_key txt_info nb w E) as C.
  destruct (curate_file NFC self base_key txt_key txt_info w) as [r w'].
  cbn [fst snd] in *.
  inversion C as [o Hf Ho Hsha | e0 Hf Hne | Hr' Hf | e0 Hr' Hf Ht [Hc _] Hobj |
                  e0 Hr' Hf Ht Hf2 [Hc _] Hobj | e0 e' Hr' Hf Ht Hf2 [Hc _] Hobj];
    subst.
  - exfalso. exact (reaches_write_not_found _ _ _ _ Hr Hf Ho Hsha).
  - exfalso. exact (Hne (reaches_write_read_ok _ _ _ _ Hr Hf)).
  - congruence.
  - assert (e0 = e) by congruence. subst e0. split; [tauto | auto].
  - assert (e0 = e) by congruence. subst e0. split; [|tauto].
    intros _. split; [exact Hc|]. split; [|congruence].
    intros _. rewrite Hobj, lookup_insert_eq. auto.
  - assert (e0 = e) by congruence. subst e0. split; [|tauto].
    intros _. split; [exact Hc|]. split; [congruence | auto].
Qed.

Lemma basename_under_directory dir name :
  Key.after_last_slash name = None ->
  Key.basename (dir +:+ "/" +:+ name) = name.
Proof.
  intros H. unfold Key.basename.
  assert (E : Key.after_last_slash (dir +:+ "/" +:+ name) = Some name);
    [|rewrite E; reflexivity].
  induction dir as [|c d IH].
  - change (Key.after_last_slash (String "/" name) = Some name).
    cbn [Key.after_last_slash]. rewrite H. reflexivity.
  - change (Key.after_last_slash (String c (d +:+ "/" +:+ name)) = Some name).
    cbn [Key.after_last_slash]. rewrite IH. reflexivity.
Qed.

Lemma fault_at_issued w w' cs i :
  issued w w' cs -> fault_at i w' = fault_at (length cs + i) w.
Proof.
  intros [_ E]. unfold fault_at. rewrite E. generalize (faults w). clear.
  induction cs as [|c r IH]; intros l; [reflexivity|].
  destruct l as [|x l]; cbn [length skipn Nat.add nth].
  - destruct (length r + i)%nat; destruct i; reflexivity.
  - apply IH.
Qed.

(** The calls of a curation are on its key. *)
Lemma curation_calls key nb w w' result :
  curation key nb w w' result ->
  exists cs,
    issued w w' cs
    /\ Forall (fun c => c = GetObject key
                        \/ exists body tagging, c = put_curated key body tagging) cs.
Proof.
  intros C. inversion C; subst;
    match goal with
    | Hi : issued w w' ?cs |- _ => exists cs; split; [exact Hi|]
    end;
    repeat (constructor; [first [left; reflexivity | right; eauto]|]);
    constructor.
Qed.

(** A curation the store answers: it finds the object there with the
    checksum of the bytes and stops, or writes the bytes with tags. *)
Lemma curation_answered key nb w w' result :
  curation key nb w w' result ->
  fault_at 0 w = None -> fault_at 1 w = None ->
  result = Some (result_of key nb)
  /\ ((exists o, objects w !! key = Some o
                 /\ calculate_sha256 (Body o) = calculate_sha256 nb
                 /\ issued w w' [GetObject key] /\ objects w' = objects w)
      \/ ((forall o, objects w !! key = Some o ->
                     calculate_sha256 (Body o) <> calculate_sha256 nb)
          /\ issued w w' [GetObject key; put_curated key nb (Some curated_tagging)]
          /\ objects w' = <[key := curated_object nb (Some curated_tagging)]>
                            (objects w))).
Proof.
  intros C F0 F1. inversion C; subst; try congruence.
  - split; [reflexivity|]. left. eauto.
  - split; [reflexivity|]. right. split; [|auto].
    intros o Ho. eapply reaches_write_not_found; eassumption.
Qed.

(** C9.  The curated key of a pair is ["curated/"], the last component
    of its base key and [".norm.txt"], so that two pairs whose base
    keys have the same last component, with whatever directories or
    none before it, have one and the same curated key.  Curated one
    after the other, both work on that key and no other: every call of
    the two runs is a read of it or a write to it; when both return a
    result, both results are addressed there and the object there
    answers to the checksum of the second.  And when the store answers
    the calls, both do return a result, and the second run starts by
    reading what the first left: it stops there when the checksums of
    the two normalised texts agree, and otherwise it writes its own
    text over the object of the first pair. *)
Theorem curated_key_collision self base1 base2 txt_key1 txt_key2 info1 info2
        w r1 w1 r2 w2 :
  Key.basename base1 = Key.basename base2 ->
  curate_file NFC self base1 txt_key1 info1 w = (r1, w1) ->
  curate_file NFC self base2 txt_key2 info2 w1 = (r2, w2) ->
  curated_key_of base1 = ("curated/" +:+ Key.basename base1 +:+ ".norm.txt")%string
  /\ curated_key_of base2 = curated_key_of base1
  /\ (exists cs1 cs2,
        issued w w1 cs1 /\ issued w1 w2 cs2
        /\ Forall (fun c => c = GetObject (curated_key_of base1)
                            \/ exists body tagging,
                                c = put_curated (curated_key_of base1) body tagging)
                  (cs1 ++ cs2))
  /\ (forall x1 x2,
        r1 = Some x1 -> r2 = Some x2 ->
        curated_key x1 = curated_key_of base1
        /\ curated_key x2 = curated_key_of base1
        /\ exists o,
            objects w2 !! curated_key_of base1 = Some o
            /\ curated_checksum x2
               = ("sha256:" +:+ Sha256.hexdigest (Body o))%string)
  /\ (forall nb1 nb2,
        normalized_bytes_of NFC info1 = Some nb1 ->
        normalized_bytes_of NFC info2 = Some nb2 ->
        (forall n, (n < 4)%nat -> fault_at n w = None) ->
        r1 = Some (result_of (curated_key_of base1) nb1)
        /\ r2 = Some (result_of (curated_key_of base1) nb2)
        /\ (calculate_sha256 nb1 = calculate_sha256 nb2 ->
            issued w1 w2 [GetObject (curated_key_of base1)]
            /\ objects w2 = objects w1)
        /\ (calculate_sha256 nb1 <> calculate_sha256 nb2 ->
            issued w1 w2 [GetObject (curated_key_of base1);
                          put_curated (curated_key_of base1) nb2
                                      (Some curated_tagging)]
            /\ objects w2 !! curated_key_of base1
               = Some (curated_object nb2 (Some curated_tagging)))).
Proof.
  intros Hb H1 H2.
  assert (K : curated_key_of base2 = curated_key_of base1)
    by (unfold curated_key_of; rewrite Hb; reflexivity).
  split; [reflexivity|]. split; [exact K|].
  pose proof (curate_file_curation self base1 txt_key1 info1) as C1.
  pose proof (curate_file_curation self base2 txt_key2 info2) as C2.
  pose proof (curate_file_unencodable self base1 txt_key1 info1 w) as U1.
  pose proof (curate_file_unencodable self base2 txt_key2 info2 w1) as U2.
  rewrite K in C2.
  split; [|split].
  - assert (T1 : exists cs1,
               issued w w1 cs1
               /\ Forall (fun c => c = GetObject (curated_key_of base1)
                                   \/ exists body tagging,
                                       c = put_curated (curated_key_of base1)
                                                       body tagging) cs1).
    { destruct (normalized_bytes_of NFC info1) as [nb1|].
      - specialize (C1 nb1 w eq_refl). rewrite H1 in C1.
        exact (curation_calls _ _ _ _ _ C1).
      - destruct (U1 eq_refl) as (_ & Hi & _). rewrite H1 in Hi.
        exists []. split; [exact Hi | constructor]. }
    assert (T2 : exists cs2,
               issued w1 w2 cs2
               /\ Forall (fun c => c = GetObject (curated_key_of base1)
                                   \/ exists body tagging,
                                       c = put_curated (curated_key_of base1)
                                                       body tagging) cs2).
    { destruct (normalized_bytes_of NFC info2) as [nb2|].
      - specialize (C2 nb2 w1 eq_refl). rewrite H2 in C2.
        exact (curation_calls _ _ _ _ _ C2).
      - destruct (U2 eq_refl) as (_ & Hi & _). rewrite H2 in Hi.
        exists []. split; [exact Hi | constructor]. }
    destruct T1 as (cs1 & I1 & F1). destruct T2 as (cs2 & I2 & F2).
    exists cs1, cs2. split; [exact I1|]. split; [exact I2|].
    apply Forall_app. split; assumption.
  - intros x1 x2 -> ->.
    destruct (curate_file_result self base1 txt_key1 info1 w x1) as (nb1 & _ & ->);
      [rewrite H1; reflexivity|].
    destruct (curate_file_result self base2 txt_key2 info2 w1 x2) as (nb2 & E2 & ->);
      [rewrite H2; reflexivity|].
    rewrite K. cbn [curated_key curated_checksum result_of].
    split; [reflexivity|]. split; [reflexivity|].
    specialize (C2 nb2 w1 E2). rewrite H2 in C2. cbn [fst snd] in C2.
    destruct (curation_leaves _ _ _ _ _ C2) as (_ & o & Ho & Hsha).
    exists o. split; [exact Ho|].
    unfold calculate_sha256 in Hsha. rewrite Hsha. reflexivity.
  - intros nb1 nb2 E1 E2 Hf.
    specialize (C1 nb1 w E1). rewrite H1 in C1. cbn [fst snd] in C1.
    specialize (C2 nb2 w1 E2). rewrite H2 in C2. cbn [fst snd] in C2.
    destruct (curation_answered _ _ _ _ _ C1 (Hf 0%nat ltac:(lia)) (Hf 1%nat ltac:(lia)))
      as [R1 A1].
    assert (L1 : exists cs1 o1,
               issued w w1 cs1 /\ (length cs1 <= 2)%nat
               /\ objects w1 !! curated_key_of base1 = Some o1
               /\ calculate_sha256 (Body o1) = calculate_sha256 nb1).
    { destruct A1 as [(o & Ho & Hs & Hi & Hobj) | (_ & Hi & Hobj)].
      - exists [GetObject (curated_key_of base1)], o. rewrite Hobj.
        split; [exact Hi|]. split; [cbn; lia|]. split; [exact Ho | exact Hs].
      - eexists _, _. rewrite Hobj, lookup_insert_eq.
        split; [exact Hi|]. split; [cbn; lia|]. split; reflexivity. }
    destruct L1 as (cs1 & o1 & I1 & Hl & Ho1 & Hs1).
    assert (G0 : fault_at 0 w1 = None)
      by (rewrite (fault_at_issued _ _ _ _ I1); apply Hf; lia).
    assert (G1 : fault_at 1 w1 = None)
      by (rewrite (fault_at_issued _ _ _ _ I1); apply Hf; lia).
    destruct (curation_answered _ _ _ _ _ C2 G0 G1) as [R2 A2].
    split; [exact R1|]. split; [exact R2|].
    destruct A2 as [(o & Ho & Hs & Hi & Hobj) | (Hne & Hi & Hobj)].
    + rewrite Ho1 in Ho. injection Ho as <-.
      split; [intros _; split; assumption | intros Hd; congruence].
    + split; [intros He; exfalso; apply (Hne o1 Ho1); congruence|].
      intros _. split; [exact Hi|]. rewrite Hobj. apply lookup_insert_eq.
Qed.
End CuratorFacts.

(** * The workflow *)

Section WorkflowFacts.

Variable NFC : str -> str.
Variable json_dumps : Manifest -> str.

(** A successful health check: both calls were answered, and the
    bucket gained the liveness record. *)
Lemma health_check_true_at self w w1 :
  health_check self w = (true, w1) ->
  objects w1 = <[health_key := health_object (clock w (ticks w))]> (objects w)
  /\ calls w1 = calls w ++ [HeadBucket; health_write (clock w (ticks w))].
Proof.
  destruct w as [objs fs cs out clk tk].
  unfold health_check, try_except, bind, and_then, say, lift, and_then, ret,
    raise, pure, print, now, s3_client.head_bucket, s3_client.put_object, client_call,
    next_fault, record_call, pop_fault, store.
  split_matches; intros E; inversion E; subst;
    cbn; rewrite <- ?app_assoc; auto.
Qed.

Lemma health_check_true self prefix w w1 :
  health_check self (announced self prefix w) = (true, w1) ->
  objects w1 = <[health_key := health_object (clock w (ticks w))]> (objects w)
  /\ calls w1 = calls w ++ [HeadBucket; health_write (clock w (ticks w))].
Proof. intros H. exact (health_check_true_at _ _ _ H). Qed.


Lemma ingest_unhealthy self prefix w w1 :
  health_check self (announced self prefix w) = (false, w1) ->
  ingest NFC json_dumps self prefix w = (false, w1).
Proof.
  intros H. unfold ingest, and_then.
  change (print Banner w) with (tt, snd (print Banner w)).
  cbn [print snd fst]. unfold announced, and_then in H. cbn [print snd fst] in H.
  rewrite H. reflexivity.
Qed.

Lemma ingest_no_pairs self prefix w w1 w2 :
  health_check self (announced self prefix w) = (true, w1) ->
  discover_pairs self prefix (snd (print Blank w1)) = ([], w2) ->
  ingest NFC json_dumps self prefix w = (true, snd (print NoPairsFound w2)).
Proof.
  intros H1 H2. unfold ingest, and_then.
  cbn [print snd fst]. unfold announced, and_then in H1. cbn [print snd fst] in H1, H2.
  rewrite H1. cbn [negb]. rewrite H2. reflexivity.
Qed.

Lemma ingest_with_pairs self prefix w w1 p ps w2 entries n w3 :
  health_check self (announced self prefix w) = (true, w1) ->
  discover_pairs self prefix (snd (print Blank w1)) = (p :: ps, w2) ->
  process_pairs NFC self (p :: ps) ([], 0%nat) (snd (print Blank w2))
  = ((entries, n), w3) ->
  fst (ingest NFC json_dumps self prefix w)
  = match entries with
    | [] => true
    | _ :: _ => fst (write_manifest json_dumps self entries prefix w3)
    end.
Proof.
  intros H1 H2 H3. unfold ingest, and_then.
  cbn [print snd fst]. unfold announced, and_then in H1.
  cbn [print snd fst] in H1, H2, H3.
  rewrite H1. cbn [negb]. rewrite H2.
  unfold and_then in H3. rewrite H3.
  destruct entries as [|e es]; [reflexivity|].
  destruct (write_manifest json_dumps self (e :: es) prefix w3). reflexivity.
Qed.

(** C8.  A run in which the health check passes and discovery returns
    no pair reports success, exit code 0; the bucket differs from the
    one it started on by the liveness record alone, and that record is
    the only write issued: no manifest, no curated object. *)
Theorem empty_discovery_is_success environ prefix w w1 w2 :
  health_check (init environ) (announced (init environ) prefix w) = (true, w1) ->
  discover_pairs (init environ) prefix (snd (print Blank w1)) = ([], w2) ->
  fst (main NFC json_dumps environ prefix w) = 0
  /\ objects (snd (main NFC json_dumps environ prefix w))
     = <[health_key := health_object (clock w (ticks w))]> (objects w)
  /\ writes (calls (snd (main NFC json_dumps environ prefix w)))
     = writes (calls w) ++ [health_write (clock w (ticks w))].
Proof.
  intros H1 H2. unfold main, and_then.
  rewrite (ingest_no_pairs _ _ _ _ _ H1 H2). unfold pure.
  cbn [fst snd print objects calls].
  destruct (discover_pairs_frame (init environ) prefix (snd (print Blank w1)))
    as [Ho Hc].
  rewrite H2 in Ho, Hc. cbn [fst snd print objects calls] in Ho, Hc.
  destruct (health_check_true _ _ _ _ H1) as [Ho1 Hc1].
  rewrite Ho, Hc, Ho1, Hc1, writes_app. auto.
Qed.

(** C5, amended.  In a run whose health check passes and whose store
    listing raises, discovery returns no pair and prints the cause,
    and the run reports success: exit code 0, nothing written but the
    liveness record.  In a run that discovers pairs the exit status is
    that of the manifest write, and success when no pair gave an
    entry: failed pairs lower the counts and leave the status as it
    is. *)
Theorem listing_error_reported_as_success environ prefix w w1 :
  health_check (init environ) (announced (init environ) prefix w) = (true, w1) ->
  (forall e w2,
      s3_client.paginate prefix (snd (print Blank w1)) = (Raise e, w2) ->
      discover_pairs (init environ) prefix (snd (print Blank w1))
      = ([], snd (print (DiscoveryFailed e) w2))
      /\ fst (main NFC json_dumps environ prefix w) = 0
      /\ stdout (snd (main NFC json_dumps environ prefix w))
         = stdout w2 ++ [DiscoveryFailed e; NoPairsFound]
      /\ writes (calls (snd (main NFC json_dumps environ prefix w)))
         = writes (calls w) ++ [health_write (clock w (ticks w))])
  /\ (forall p ps w2 entries n w3,
         discover_pairs (init environ) prefix (snd (print Blank w1))
         = (p :: ps, w2) ->
         process_pairs NFC (init environ) (p :: ps) ([], 0%nat)
                       (snd (print Blank w2)) = ((entries, n), w3) ->
         fst (main NFC json_dumps environ prefix w)
         = match entries with
           | [] => 0
           | _ :: _ =>
             if fst (write_manifest json_dumps (init environ) entries prefix w3)
             then 0 else 1
           end).
Proof.
  intros H1. split.
  - intros e w2 Hp.
    assert (H2 : discover_pairs (init environ) prefix (snd (print Blank w1))
                 = ([], snd (print (DiscoveryFailed e) w2)))
      by (rewrite discover_pairs_eq, Hp; reflexivity).
    split; [exact H2|]. unfold main, and_then.
    rewrite (ingest_no_pairs _ _ _ _ _ H1 H2). unfold pure.
    cbn [fst snd print objects calls stdout].
    destruct (paginate_frame prefix (snd (print Blank w1))) as (_ & Hc & _).
    rewrite Hp in Hc. cbn [fst snd print calls] in Hc.
    destruct (health_check_true _ _ _ _ H1) as [_ Hc1].
    rewrite Hc, Hc1, writes_app, <- app_assoc. auto.
  - intros p ps w2 entries n w3 H2 H3. unfold main, and_then.
    pose proof (ingest_with_pairs _ _ _ _ _ _ _ _ _ _ H1 H2 H3) as E.
    destruct (ingest NFC json_dumps (init environ) prefix w) as [ok w'].
    cbn [fst snd] in *. subst ok. destruct entries; reflexivity.
Qed.

Lemma process_pairs_cons self b j t rest locals w :
  process_pairs NFC self ((b, j, t) :: rest) locals w
  = process_pairs NFC self rest
      (fst (process_pair NFC self locals (b, j, t) w))
      (snd (process_pair NFC self locals (b, j, t) w)).
Proof.
  cbn [process_pairs]. unfold and_then at 1.
  destruct (process_pair NFC self locals (b, j, t) w). reflexivity.
Qed.

Lemma process_pair_eq self acc k b j t w :
  process_pair NFC self (acc, k) (b, j, t) w
  = let (json_info, w1) :=
        get_object_info self j (snd (print (ProcessingPair (Key.basename b)) w)) in
    let (txt_info, w2) := get_object_info self t w1 in
    match json_info, txt_info with
    | Some json_info, Some txt_info =>
      let (curation_result, w3) := curate_file NFC self b t txt_info w2 in
      match curation_result with
      | Some curation_result =>
        ((acc ++ [json_entry json_info; txt_entry txt_info curation_result], S k),
         snd (print Blank (snd (print (Processed b) w3))))
      | None => ((acc, k), snd (print (CurateFailedFor b) w3))
      end
    | _, _ => ((acc, k), snd (print (FileInfoFailed b) w2))
    end.
Proof.
  unfold process_pair, and_then. cbn [print fst snd].
  destruct (get_object_info self j _) as [ji w1].
  destruct (get_object_info self t w1) as [ti w2].
  destruct ji as [ji|]; [destruct ti as [ti|]|]; try reflexivity.
  destruct (curate_file NFC self b t ti w2) as [[cr|] w3]; [|reflexivity].
  unfold pure. rewrite <- app_assoc. reflexivity.
Qed.

Lemma get_object_info_key self key w info w' :
  get_object_info self key w = (Some info, w') -> info_key info = key.
Proof.
  destruct w as [objs fs cs out clk tk].
  unfold get_object_info, try_except, bind, and_then, say, lift, and_then, ret,
    raise, pure, print, s3_client.head_object, s3_client.get_object, client_call,
    next_fault, record_call, pop_fault.
  split_matches; intros E; inversion E; subst; reflexivity.
Qed.

(** C6.  The loop over the pairs adds to the manifest entries exactly
    what the pairs contribute one by one.  A pair that is fetched and
    curated adds two entries: the one of the structured member, of type
    [aws_transcribe_json], with the key of that member and the size,
    checksum and content type fetched for it, and the one of the text
    member, of type [minutes_txt], with its key, size, checksum and
    content type and with the key, the checksum and the size of the
    curated object, whose key is the curated key of the base key.  A
    pair that fails at the fetch of either member or at curation adds
    none.  The loop counts the pairs that contributed and goes through
    all of them. *)
Theorem manifest_completeness self pairs acc k w :
  exists es n,
    fst (process_pairs NFC self pairs (acc, k) w) = (acc ++ es, (k + n)%nat)
    /\ emits NFC self pairs w es n (snd (process_pairs NFC self pairs (acc, k) w))
    /\ length es = (2 * n)%nat
    /\ (n <= length pairs)%nat.
Proof.
  revert acc k w. induction pairs as [|[[b j] t] rest IH]; intros acc k w.
  - exists [], 0%nat. cbn. rewrite app_nil_r, Nat.add_0_r.
    repeat split; [constructor | lia].
  - rewrite process_pairs_cons, process_pair_eq.
    destruct (get_object_info self j _) as [ji w1] eqn:Ej.
    destruct (get_object_info self t w1) as [ti w2] eqn:Et.
    destruct ji as [ji|]; [destruct ti as [ti|]|].
    + destruct (curate_file NFC self b t ti w2) as [[cr|] w3] eqn:Ec;
        cbn [fst snd].
      * destruct (IH (acc ++ [json_entry ji; txt_entry ti cr]) (S k)
                     (snd (print Blank (snd (print (Processed b) w3)))))
          as (es & n & E & Hem & Hlen & Hn).
        exists (json_entry ji :: txt_entry ti cr :: es), (S n).
        rewrite E, <- !app_assoc. cbn [app length].
        repeat split; [f_equal; lia | | lia | lia].
        assert (Kc : curated_key cr = curated_key_of b).
        { destruct (curate_file_result NFC self b t ti w2 cr) as (nb & _ & ->);
            [rewrite Ec|]; reflexivity. }
        exact (emits_pair NFC self b j t rest w ji ti cr w1 w2 w3 es n _
                          Ej Et Ec (get_object_info_key _ _ _ _ _ Ej)
                          (get_object_info_key _ _ _ _ _ Et) Kc Hem).
      * destruct (IH acc k (snd (print (CurateFailedFor b) w3)))
          as (es & n & E & Hem & Hlen & Hn).
        exists es, n. rewrite E.
        repeat split; [ | lia | cbn [length]; lia].
        eapply emits_curation_failed; eauto.
    + cbn [fst snd].
      destruct (IH acc k (snd (print (FileInfoFailed b) w2)))
        as (es & n & E & Hem & Hlen & Hn).
      exists es, n. rewrite E.
      repeat split; [ | lia | cbn [length]; lia].
      eapply emits_fetch_failed; eauto.
    + cbn [fst snd].
      destruct (IH acc k (snd (print (FileInfoFailed b) w2)))
        as (es & n & E & Hem & Hlen & Hn).
      exists es, n. rewrite E.
      repeat split; [ | lia | cbn [length]; lia].
      eapply emits_fetch_failed; eauto.
Qed.
End WorkflowFacts.

(** * The theorems on sample runs *)

Section SampleRuns.
Import Runtime Examples.

Lemma run_eq {A} (run : A * World) (a : A) : fst run = a -> run = (a, snd run).
Proof. destruct run. cbn. congruence. Qed.

(** The runtime functions on known values: the digests of FIPS 180-4,
    the replacement of ill-formed UTF-8 (a truncated sequence, a broken
    four-byte sequence, an encoded surrogate), canonical composition. *)
Example sha256_abc :
  Sha256.hexdigest (list_byte_of_string "abc")
  = "ba7816bf8f01cfea414140de5dae2223b00361a396177a9cb410ff61f20015ad"%string.
Proof. vm_compute. reflexivity. Qed.

Example sha256_empty :
  Sha256.hexdigest []
  = "e3b0c44298fc1c149afbf4c8996fb92427ae41e4649b934ca495991b7852b855"%string.
Proof. vm_compute. reflexivity. Qed.

Example decode_ill_formed :
  Unicode.decode_replace [xe2; x80] = [0xFFFD]
  /\ Unicode.decode_replace [xf0; x90; x41; x42] = [0xFFFD; 0x41; 0x42]
  /\ Unicode.decode_replace [xed; xa0; x80] = [0xFFFD; 0xFFFD; 0xFFFD]
  /\ Unicode.decode_replace [xf0; x9f; x98; x80] = [0x1F600].
Proof. vm_compute. auto. Qed.

Example compose_acute_accent :
  normalize_NFC [0x65; 0x301] = [0xE9]
  /\ normalize_NFC [0x65; 0x200B; 0x301] = [0x65; 0x200B; 0x301]
  /\ normalize_NFC [0xE9; 0x301] = [0xE9; 0x301].
Proof. vm_compute. auto. Qed.

(** The scenario of the specification: the minutes are normalised to
    ["Hello world\n\nBye"]. *)
Example normalize_minutes :
  Unicode.encode (normalize_text normalize_NFC (Bytes minutes))
  = Some (list_byte_of_string normalized_minutes).
Proof. vm_compute. reflexivity. Qed.

(** The accent first stays apart from its letter, on the other side of
    the zero-width space; once that space is removed, a second pass
    composes the two. *)
Example normalize_accent_once :
  normalize_text normalize_NFC accent_after_zero_width = [0x65; 0x301].
Proof. vm_compute. reflexivity. Qed.

Example normalize_accent_twice :
  normalize_text normalize_NFC
    (Text (normalize_text normalize_NFC accent_after_zero_width)) = [0xE9].
Proof. vm_compute. reflexivity. Qed.

(** C1, as stated, fails on [e], U+200B, U+0301. *)
Lemma normalize_text_not_idempotent :
  ~ idempotent_on normalize_NFC accent_after_zero_width.
Proof. unfold idempotent_on. vm_compute. discriminate. Qed.

Lemma normalize_text_idempotent_on_composed_witness :
  normalize_NFC (normalize_text normalize_NFC (Bytes minutes))
  = normalize_text normalize_NFC (Bytes minutes)
  /\ normalize_text normalize_NFC
       (Text (normalize_text normalize_NFC (Bytes minutes)))
     = normalize_text normalize_NFC (Bytes minutes).
Proof.
  split; [vm_compute; reflexivity|].
  apply (normalize_text_idempotent_on_composed normalize_NFC (Bytes minutes)).
  vm_compute. reflexivity.
Defined.

(** C2, as stated, fails when the curated object is already there:
    neither run writes. *)
Lemma curation_twice_without_a_write :
  ~ one_write_in_two_runs normalize_NFC self "uploads/m1" "uploads/m1.txt"
      minutes_info (world_of curated []).
Proof. intros (_ & H & _). vm_compute in H. discriminate H. Qed.

Lemma curation_twice_witness :
  exists w2 cs,
    curate_file normalize_NFC self "uploads/m1" "uploads/m1.txt" minutes_info
      (snd (curate_file normalize_NFC self "uploads/m1" "uploads/m1.txt"
              minutes_info (world_of uploads [])))
    = (Some (result_of "curated/m1.norm.txt" (list_byte_of_string normalized_minutes)),
       w2)
    /\ calls w2 = calls (world_of uploads []) ++ cs
    /\ write_calls cs = 1%nat.
Proof.
  destruct (curation_twice normalize_NFC self "uploads/m1" "uploads/m1.txt"
              minutes_info minutes_info (list_byte_of_string normalized_minutes)
              (world_of uploads [])
              (snd (curate_file normalize_NFC self "uploads/m1" "uploads/m1.txt"
                      minutes_info (world_of uploads [])))
              (result_of "curated/m1.norm.txt"
                         (list_byte_of_string normalized_minutes)))
    as (w2 & cs & H2 & _ & _ & Hc & H1 & _).
  - reflexivity.
  - vm_compute. reflexivity.
  - apply run_eq. vm_compute. reflexivity.
  - vm_compute. reflexivity.
  - exists w2, cs. split; [exact H2|]. split; [exact Hc|].
    apply H1; [right; split; [reflexivity | vm_compute; exact I] | reflexivity].
Defined.

(** C7, as stated, fails when the store denies the write itself: the
    tagged write is rejected with [AccessDenied], so is the retry, and
    curation returns nothing. *)
Lemma retry_failure_fails_curation :
  ~ tag_rejection_absorbed normalize_NFC self "uploads/m1" "uploads/m1.txt"
      minutes_info (world_of uploads [None; AccessDenied; AccessDenied]).
Proof.
  intros H.
  apply (H (list_byte_of_string normalized_minutes) (ClientError "AccessDenied")).
  - vm_compute. reflexivity.
  - right. split; [reflexivity | vm_compute; exact I].
  - reflexivity.
  - left. reflexivity.
  - vm_compute. reflexivity.
Qed.

Lemma tagging_rejection_retried_once_witness :
  fst (curate_file normalize_NFC self "uploads/m1" "uploads/m1.txt" minutes_info
         (world_of uploads [None; AccessDenied]))
  = Some (result_of "curated/m1.norm.txt" (list_byte_of_string normalized_minutes))
  /\ objects (snd (curate_file normalize_NFC self "uploads/m1" "uploads/m1.txt"
                     minutes_info (world_of uploads [None; AccessDenied])))
       !! "curated/m1.norm.txt"
     = Some (curated_object (list_byte_of_string normalized_minutes) None).
Proof.
  destruct (tagging_rejection_retried_once normalize_NFC self "uploads/m1"
              "uploads/m1.txt" minutes_info
              (list_byte_of_string normalized_minutes)
              (world_of uploads [None; AccessDenied])
              (ClientError "AccessDenied")) as [H _].
  - vm_compute. reflexivity.
  - right. split; [reflexivity | vm_compute; exact I].
  - reflexivity.
  - destruct H as (_ & H & _); [left; reflexivity|].
    apply H. reflexivity.
Defined.

Lemma curated_checksum_integrity_witness :
  exists o,
    objects (snd (curate_file normalize_NFC self "uploads/m1" "uploads/m1.txt"
                    minutes_info (world_of uploads [])))
      !! "curated/m1.norm.txt" = Some o
    /\ ("sha256:e2a180d28187ec4fda74e0a564e2a369599b0973a3096c9769098a8d21802e2a"
        = "sha256:" +:+ Sha256.hexdigest (Body o))%string.
Proof.
  destruct (curated_checksum_integrity normalize_NFC self "uploads/m1"
              "uploads/m1.txt" minutes_info (world_of uploads [])
              {| curated_key := "curated/m1.norm.txt";
                 curated_size_bytes := 16;
                 curated_checksum :=
                   "sha256:e2a180d28187ec4fda74e0a564e2a369599b0973a3096c9769098a8d21802e2a"
              |})
    as (nb & o & _ & Ho & Hsum & _).
  - vm_compute. reflexivity.
  - exists o. split; [exact Ho | exact Hsum].
Defined.

(** Two pairs filed as [m1] under two directories: the second
    curation writes its text over the curated object of the first. *)
Lemma curated_key_collision_witness :
  curated_key_of "archive/2024/m1" = "curated/m1.norm.txt"%string
  /\ fst (curate_file normalize_NFC self "archive/2024/m1" "archive/2024/m1.txt"
            later_info
            (snd (curate_file normalize_NFC self "uploads/m1" "uploads/m1.txt"
                    minutes_info (world_of uploads []))))
     = Some (result_of "curated/m1.norm.txt" later_minutes)
  /\ objects (snd (curate_file normalize_NFC self "archive/2024/m1"
                     "archive/2024/m1.txt" later_info
                     (snd (curate_file normalize_NFC self "uploads/m1"
                             "uploads/m1.txt" minutes_info
                             (world_of uploads [])))))
       !! "curated/m1.norm.txt"%string
     = Some (curated_object later_minutes (Some curated_tagging)).
Proof.
  destruct (curated_key_collision normalize_NFC self "uploads/m1"
              "archive/2024/m1" "uploads/m1.txt" "archive/2024/m1.txt"
              minutes_info later_info (world_of uploads [])
              (fst (curate_file normalize_NFC self "uploads/m1" "uploads/m1.txt"
                      minutes_info (world_of uploads [])))
              (snd (curate_file normalize_NFC self "uploads/m1" "uploads/m1.txt"
                      minutes_info (world_of uploads [])))
              (fst (curate_file normalize_NFC self "archive/2024/m1"
                      "archive/2024/m1.txt" later_info
                      (snd (curate_file normalize_NFC self "uploads/m1"
                              "uploads/m1.txt" minutes_info
                              (world_of uploads [])))))
              (snd (curate_file normalize_NFC self "archive/2024/m1"
                      "archive/2024/m1.txt" later_info
                      (snd (curate_file normalize_NFC self "uploads/m1"
                              "uploads/m1.txt" minutes_info
                              (world_of uploads []))))))
    as (_ & K & _ & _ & H).
  - reflexivity.
  - apply surjective_pairing.
  - apply surjective_pairing.
  - destruct (H (list_byte_of_string normalized_minutes) later_minutes)
      as (_ & E2 & _ & Hw).
    + vm_compute. reflexivity.
    + vm_compute. reflexivity.
    + intros n _. unfold fault_at. destruct n; reflexivity.
    + destruct Hw as [_ Ho]; [vm_compute; discriminate|].
      split; [exact K|]. split; [exact E2 | exact Ho].
Defined.

(** C5, as stated, fails: the listing raises, the cause is printed, and
    the process exits with 0. *)
Lemma listing_error_exits_zero :
  ~ listing_error_fails_run normalize_NFC json_dumps ∅ "uploads/"
      (world_of uploads [None; None; AccessDenied]).
Proof.
  intros H. apply (H (ClientError "AccessDenied")).
  - vm_compute. auto 10.
  - vm_compute. reflexivity.
Qed.

Lemma listing_error_reported_as_success_witness :
  fst (main normalize_NFC json_dumps ∅ "uploads/"
         (world_of uploads [None; None; AccessDenied])) = 0.
Proof.
  destruct (listing_error_reported_as_success normalize_NFC json_dumps ∅ "uploads/"
              (world_of uploads [None; None; AccessDenied])
              (checked (world_of uploads [None; None; AccessDenied])))
    as [H _].
  - unfold checked, self. apply run_eq. vm_compute. reflexivity.
  - destruct (H (ClientError "AccessDenied")
                (snd (s3_client.paginate "uploads/"
                        (discovering (world_of uploads [None; None; AccessDenied])))))
      as (_ & E & _); [|exact E].
    unfold discovering, checked, self. apply run_eq. vm_compute. reflexivity.
Defined.

Lemma empty_discovery_is_success_witness :
  fst (main normalize_NFC json_dumps ∅ "uploads/" (world_of curated [])) = 0
  /\ writes (calls (snd (main normalize_NFC json_dumps ∅ "uploads/"
                           (world_of curated []))))
     = [health_write (clock (world_of curated []) 0)].
Proof.
  destruct (empty_discovery_is_success normalize_NFC json_dumps ∅ "uploads/"
              (world_of curated []) (checked (world_of curated []))
              (snd (discover_pairs (init ∅) "uploads/"
                                   (discovering (world_of curated [])))))
    as (E & _ & Hw).
  - unfold checked, self. apply run_eq. vm_compute. reflexivity.
  - unfold discovering, checked, self. apply run_eq. vm_compute. reflexivity.
  - split; [exact E | exact Hw].
Defined.

(** The listing of the scenario: one pair, and [uploads/b] without its
    text. *)
Example discover_uploads :
  fst (discover_pairs self "uploads/" (world_of uploads []))
  = [("uploads/m1", "uploads/m1.json", "uploads/m1.txt")]%string
  /\ stdout (snd (discover_pairs self "uploads/" (world_of uploads [])))
     = [IncompletePair "uploads/b" "txt"; FoundPairs 1 "uploads/"].
Proof. vm_compute. auto. Qed.

(** The entries of the scenario: the text entry carries the key, the
    checksum and the size of the curated object. *)
Example manifest_entries_uploads :
  fst (process_pairs normalize_NFC self
         [("uploads/m1", "uploads/m1.json", "uploads/m1.txt")%string]
         ([], 0%nat) (world_of uploads []))
  = ([{| entry_key := "uploads/m1.json";
         entry_type := "aws_transcribe_json";
         entry_size_bytes := 10;
         entry_checksum :=
           "sha256:84d89877f0d4041efb6bf91a16f0248f2fd573e6af05c19f96bedb9f882f7882";
         entry_content_type := "text/plain";
         entry_pii := "low";
         entry_status := "ingested";
         entry_curated := None |};
      {| entry_key := "uploads/m1.txt";
         entry_type := "minutes_txt";
         entry_size_bytes := 22;
         entry_checksum :=
           "sha256:14f62a4f0ad92bac463db46e63bf718f1d0f87b1dd93616f93725061c9765972";
         entry_content_type := "text/plain";
         entry_pii := "low";
         entry_status := "ingested";
         entry_curated :=
           Some {| curated_key := "curated/m1.norm.txt";
                   curated_size_bytes := 16;
                   curated_checksum :=
                     "sha256:e2a180d28187ec4fda74e0a564e2a369599b0973a3096c9769098a8d21802e2a"
                |} |}]%string,
     1%nat).
Proof. vm_compute. reflexivity. Qed.

(** The scenario end to end: exit code 0 and three writes, the
    liveness record, the curated minutes and the manifest. *)
Example ingest_uploads :
  fst (main normalize_NFC json_dumps ∅ "uploads/" (world_of uploads [])) = 0
  /\ map (fun c => match c with PutObject key _ _ _ => key | _ => EmptyString end)
         (writes (calls (snd (main normalize_NFC json_dumps ∅ "uploads/"
                                   (world_of uploads [])))))
     = ["parallax/health/healthcheck.txt"; "curated/m1.norm.txt";
        "manifests/dt=2025-01-15/ingest-2025-01-15T08:30:00.250000Z.json"]%string.
Proof. vm_compute. auto. Qed.

End SampleRuns.

(** * More on the normaliser *)

Module VisibleFacts.
Import Unicode Text TextFacts.

Lemma invisible_SPACE : visible SPACE = false. Proof. reflexivity. Qed.
Lemma invisible_LF : visible LF = false. Proof. reflexivity. Qed.
Lemma invisible_CR : visible CR = false. Proof. reflexivity. Qed.
Lemma invisible_BOM : visible BOM = false. Proof. reflexivity. Qed.

Lemma invisible_space c : isspace c = true -> visible c = false.
Proof. intros H. unfold visible. rewrite H. apply andb_false_r. Qed.

Lemma invisible_Cf c : category_Cf c = true -> visible c = false.
Proof. intros H. unfold visible. rewrite H. reflexivity. Qed.

Lemma kept_lstrip_char s :
  List.filter visible (lstrip_char BOM s) = List.filter visible s.
Proof.
  induction s as [|x r IH]; [reflexivity|]. cbn [lstrip_char].
  destruct (x =? BOM) eqn:E; [|reflexivity].
  apply N.eqb_eq in E. subst x. cbn [List.filter].
  rewrite invisible_BOM. exact IH.
Qed.

Lemma kept_remove_Cf s :
  List.filter visible (remove_Cf s) = List.filter visible s.
Proof.
  unfold remove_Cf. induction s as [|x r IH]; [reflexivity|]. cbn [List.filter].
  destruct (category_Cf x) eqn:E; cbn [negb List.filter].
  - rewrite (invisible_Cf x E). exact IH.
  - rewrite IH. reflexivity.
Qed.

Lemma kept_sub_spaces s :
  List.filter visible (sub_spaces s) = List.filter visible s.
Proof.
  induction s as [|c r IH]; [reflexivity|].
  destruct r as [|c1 r1]; [reflexivity|].
  change (sub_spaces (c :: c1 :: r1))
    with (if (c =? SPACE) && (c1 =? SPACE) then sub_spaces (c1 :: r1)
          else c :: sub_spaces (c1 :: r1)).
  destruct ((c =? SPACE) && (c1 =? SPACE)) eqn:E.
  - apply andb_prop in E as [Ec _]. apply N.eqb_eq in Ec. subst c.
    rewrite IH. change (List.filter visible (SPACE :: c1 :: r1))
      with (if visible SPACE then SPACE :: List.filter visible (c1 :: r1)
            else List.filter visible (c1 :: r1)).
    rewrite invisible_SPACE. reflexivity.
  - change (List.filter visible (c :: ?l))
      with (if visible c then c :: List.filter visible l
            else List.filter visible l).
    cbn [List.filter] in *. rewrite IH. reflexivity.
Qed.

Lemma kept_replace_crlf s :
  List.filter visible (replace_crlf s) = List.filter visible s.
Proof.
  induction s as [| c | c c1 r IHr IHc] using list_ind2;
    [reflexivity | reflexivity |].
  rewrite replace_crlf_cons2.
  destruct ((c =? CR) && (c1 =? LF)) eqn:E.
  - apply andb_prop in E as [Ec Ec1]. apply N.eqb_eq in Ec, Ec1. subst.
    cbn [List.filter]. rewrite invisible_LF, invisible_CR. exact IHr.
  - cbn [List.filter] in *. rewrite IHc. reflexivity.
Qed.

Lemma kept_replace_cr s :
  List.filter visible (replace_cr s) = List.filter visible s.
Proof.
  unfold replace_cr. induction s as [|x r IH]; [reflexivity|].
  cbn [map List.filter]. rewrite IH.
  destruct (x =? CR) eqn:E; [|reflexivity].
  apply N.eqb_eq in E. subst x. rewrite invisible_LF, invisible_CR. reflexivity.
Qed.

Lemma kept_sub_blank_lines s :
  List.filter visible (sub_blank_lines s) = List.filter visible s.
Proof.
  induction s as [|c r IH]; [reflexivity|].
  destruct r as [|c1 [|c2 r2]]; [reflexivity | reflexivity |].
  rewrite sub_blank_lines_cons3.
  destruct ((c =? LF) && (c1 =? LF) && (c2 =? LF)) eqn:E.
  - apply andb_prop in E as [E _]. apply andb_prop in E as [Ec _].
    apply N.eqb_eq in Ec. subst c. rewrite IH.
    change (List.filter visible (LF :: ?l))
      with (if visible LF then LF :: List.filter visible l
            else List.filter visible l).
    rewrite invisible_LF. reflexivity.
  - change (List.filter visible (c :: ?l))
      with (if visible c then c :: List.filter visible l
            else List.filter visible l).
    rewrite IH. reflexivity.
Qed.

Lemma kept_lstrip s : List.filter visible (lstrip s) = List.filter visible s.
Proof.
  induction s as [|x r IH]; [reflexivity|]. cbn [lstrip].
  destruct (isspace x) eqn:E; [|reflexivity].
  cbn [List.filter]. rewrite (invisible_space x E). exact IH.
Qed.

Lemma kept_rev s : List.filter visible (rev s) = rev (List.filter visible s).
Proof.
  induction s as [|x r IH]; [reflexivity|]. cbn [rev List.filter].
  rewrite List.filter_app, IH. cbn [List.filter].
  destruct (visible x); [reflexivity | apply app_nil_r].
Qed.

Lemma kept_strip s : List.filter visible (strip s) = List.filter visible s.
Proof.
  unfold strip, rstrip.
  rewrite kept_rev, kept_lstrip, kept_rev, rev_involutive. apply kept_lstrip.
Qed.

Lemma kept_normalize_composed s :
  List.filter visible (normalize_composed s) = List.filter visible s.
Proof.
  unfold normalize_composed.
  rewrite kept_strip, kept_sub_blank_lines, kept_replace_cr, kept_replace_crlf,
    kept_sub_spaces, kept_remove_Cf. apply kept_lstrip_char.
Qed.

(** No step makes the text longer. *)
Lemma filter_shorter {A} (f : A -> bool) l : (length (List.filter f l) <= length l)%nat.
Proof. induction l as [|x r IH]; cbn; [lia|]. destruct (f x); cbn; lia. Qed.

Lemma lstrip_char_shorter c s : (length (lstrip_char c s) <= length s)%nat.
Proof.
  induction s as [|x r IH]; cbn [lstrip_char length]; [lia|].
  destruct (x =? c); cbn [length]; lia.
Qed.

Lemma sub_spaces_shorter s : (length (sub_spaces s) <= length s)%nat.
Proof.
  induction s as [|c r IH]; [cbn; lia|].
  destruct r as [|c1 r1]; [cbn; lia|].
  change (sub_spaces (c :: c1 :: r1))
    with (if (c =? SPACE) && (c1 =? SPACE) then sub_spaces (c1 :: r1)
          else c :: sub_spaces (c1 :: r1)).
  destruct ((c =? SPACE) && (c1 =? SPACE)); cbn [length] in *; lia.
Qed.

Lemma replace_crlf_shorter s : (length (replace_crlf s) <= length s)%nat.
Proof.
  induction s as [| c | c c1 r IHr IHc] using list_ind2; [cbn; lia | cbn; lia |].
  rewrite replace_crlf_cons2.
  destruct ((c =? CR) && (c1 =? LF)); cbn [length] in *; lia.
Qed.

Lemma sub_blank_lines_shorter s : (length (sub_blank_lines s) <= length s)%nat.
Proof.
  induction s as [|c r IH]; [cbn; lia|].
  destruct r as [|c1 [|c2 r2]]; [cbn; lia | cbn; lia |].
  rewrite sub_blank_lines_cons3.
  destruct ((c =? LF) && (c1 =? LF) && (c2 =? LF)); cbn [length] in *; lia.
Qed.

Lemma strip_shorter s : (length (strip s) <= length s)%nat.
Proof.
  destruct (strip_infix s) as (l & t & E).
  rewrite E at 2. rewrite !length_app. lia.
Qed.

Lemma normalize_composed_shorter s : (length (normalize_composed s) <= length s)%nat.
Proof.
  unfold normalize_composed.
  etransitivity; [apply strip_shorter|].
  etransitivity; [apply sub_blank_lines_shorter|].
  unfold replace_cr. rewrite length_map.
  etransitivity; [apply replace_crlf_shorter|].
  etransitivity; [apply sub_spaces_shorter|].
  etransitivity; [apply filter_shorter|]. apply lstrip_char_shorter.
Qed.

End VisibleFacts.

Section NormalizerMore.
Import Unicode Text TextFacts VisibleFacts.

Variable NFC : str -> str.

(** X1.  The normaliser removes or replaces nothing but whitespace and
    format characters: the other characters of the composed text come
    out as they are, all of them and in their order. *)
Theorem normalize_text_keeps_visible (content : Content) :
  List.filter visible (normalize_text NFC content)
  = List.filter visible (NFC (decoded content)).
Proof. apply kept_normalize_composed. Qed.

(** X2.  The normalised text is empty exactly when the composed text
    holds nothing but whitespace and format characters; the empty input
    is one such case when NFC maps the empty text to itself. *)
Theorem normalize_text_empty_iff (content : Content) :
  normalize_text NFC content = []
  <-> Forall (fun c => visible c = false) (NFC (decoded content)).
Proof.
  pose proof (kept_normalize_composed (NFC (decoded content))) as K.
  change (normalize_composed (NFC (decoded content)))
    with (normalize_text NFC content) in K.
  assert (F : forall s, List.filter visible s = []
                        <-> Forall (fun c => visible c = false) s).
  { induction s as [|x r IH]; [split; [constructor | reflexivity]|].
    cbn [List.filter]. destruct (visible x) eqn:E.
    - split; [discriminate|]. intros H. apply List.Forall_inv in H. congruence.
    - rewrite IH. split; [intros H; constructor; assumption|].
      intros H. apply List.Forall_inv_tail in H. exact H. }
  split.
  - intros E. rewrite E in K. apply F. symmetry. exact K.
  - intros H. apply F in H. rewrite <- K in H.
    destruct (normalize_composed_normal (NFC (decoded content)))
      as [_ HCf _ _ Hh _].
    fold (decoded content) in H.
    change (normalize_composed (NFC (decoded content)))
      with (normalize_text NFC content) in *.
    destruct (normalize_text NFC content) as [|x r]; [reflexivity|].
    exfalso. cbn [List.filter] in H.
    apply List.Forall_inv in HCf. specialize (Hh x eq_refl).
    unfold visible in H. rewrite HCf, Hh in H. discriminate H.
Qed.

(** X3.  Normalising never makes a text longer than its composed
    form. *)
Theorem normalize_text_shorter (content : Content) :
  (length (normalize_text NFC content) <= length (NFC (decoded content)))%nat.
Proof. apply normalize_composed_shorter. Qed.

End NormalizerMore.

(** * What the code does to the bucket *)

Section Footprints.

Lemma wrote_to_app k cs cs' : wrote_to k (cs ++ cs') <-> wrote_to k cs \/ wrote_to k cs'.
Proof.
  unfold wrote_to. split.
  - intros (b & ct & tg & H). apply in_app_or in H as [H|H]; [left | right]; eauto.
  - intros [(b & ct & tg & H) | (b & ct & tg & H)];
      exists b, ct, tg; apply in_or_app; auto.
Qed.

Lemma wrote_to_nil k : ~ wrote_to k [].
Proof. intros (b & ct & tg & []). Qed.

Lemma issued_refl w : issued w w [].
Proof. split; [symmetry; apply app_nil_r | reflexivity]. Qed.

Lemma issued_trans w w1 w2 cs1 cs2 :
  issued w w1 cs1 -> issued w1 w2 cs2 -> issued w w2 (cs1 ++ cs2).
Proof.
  intros [C1 F1] [C2 F2]. split.
  - rewrite C2, C1, app_assoc. reflexivity.
  - rewrite F2, F1, List.skipn_skipn, length_app. f_equal. lia.
Qed.

Lemma ran_refl w : ran w w [] [].
Proof.
  constructor; [apply issued_refl | symmetry; apply app_nil_r | reflexivity | reflexivity].
Qed.

Lemma ran_trans w w1 w2 cs1 ls1 cs2 ls2 :
  ran w w1 cs1 ls1 -> ran w1 w2 cs2 ls2 -> ran w w2 (cs1 ++ cs2) (ls1 ++ ls2).
Proof.
  intros [I1 S1 K1 O1] [I2 S2 K2 O2]. constructor.
  - eapply issued_trans; eassumption.
  - rewrite S2, S1, app_assoc. reflexivity.
  - congruence.
  - intros k H. rewrite wrote_to_app in H.
    rewrite O2, O1; [reflexivity | tauto | tauto].
Qed.

Lemma ran_seq w w1 w2 cs1 ls1 cs2 ls2 cs ls :
  ran w w1 cs1 ls1 -> ran w1 w2 cs2 ls2 ->
  cs = (cs1 ++ cs2)%list -> ls = (ls1 ++ ls2)%list -> ran w w2 cs ls.
Proof. intros H1 H2 -> ->. eapply ran_trans; eassumption. Qed.

Lemma ran_print l w : ran w (snd (print l w)) [] [l].
Proof.
  constructor; [|reflexivity | reflexivity | reflexivity].
  split; cbn; [symmetry; apply app_nil_r | reflexivity].
Qed.

Lemma ran_print_all lines : forall w, ran w (snd (print_all lines w)) [] lines.
Proof.
  induction lines as [|l r IH]; intros w; [apply ran_refl|].
  change (print_all (l :: r) w) with (print_all r (snd (print l w))).
  eapply ran_seq; [apply ran_print | apply IH | reflexivity | reflexivity].
Qed.

Lemma ran_now w : ran w (snd (now w)) [] [].
Proof.
  constructor; [| symmetry; apply app_nil_r | reflexivity | reflexivity].
  split; cbn; [symmetry; apply app_nil_r | reflexivity].
Qed.

(** A client call that only reads. *)
Lemma ran_client_read {A} c (answer : World -> Outcome A) w :
  ran w (snd (client_call c (fun w => (answer w, w)) w)) [c] [].
Proof.
  unfold client_call. destruct (next_fault (record_call c w)); cbn [snd];
    (constructor;
     [ split; cbn; [reflexivity | destruct (faults w); reflexivity]
     | symmetry; apply app_nil_r | reflexivity | reflexivity ]).
Qed.

Lemma ran_put_object key body content_type tagging w :
  ran w (snd (s3_client.put_object key body content_type tagging w))
      [PutObject key body content_type tagging] [].
Proof.
  unfold s3_client.put_object, client_call.
  destruct (next_fault (record_call _ w)); cbn [snd];
    (constructor;
     [ split; cbn; [reflexivity | destruct (faults w); reflexivity]
     | symmetry; apply app_nil_r | reflexivity |]).
  - reflexivity.
  - intros k H. cbn. apply lookup_insert_ne. intros ->. apply H.
    exists body, content_type, tagging. left. reflexivity.
Qed.

Lemma ran_get_object key w :
  ran w (snd (s3_client.get_object key w)) [GetObject key] [].
Proof.
  unfold s3_client.get_object, client_call.
  destruct (next_fault (record_call _ w)); cbn [snd];
    [|destruct (objects (pop_fault (record_call (GetObject key) w)) !! key); cbn [snd]];
    (constructor;
     [ split; cbn; [reflexivity | destruct (faults w); reflexivity]
     | symmetry; apply app_nil_r | reflexivity | reflexivity ]).
Qed.

Lemma ran_head_object key w :
  ran w (snd (s3_client.head_object key w)) [HeadObject key] [].
Proof.
  unfold s3_client.head_object, client_call.
  destruct (next_fault (record_call _ w)); cbn [snd];
    [|destruct (objects (pop_fault (record_call (HeadObject key) w)) !! key); cbn [snd]];
    (constructor;
     [ split; cbn; [reflexivity | destruct (faults w); reflexivity]
     | symmetry; apply app_nil_r | reflexivity | reflexivity ]).
Qed.

Lemma does_pure {A} P Q (a : A) (R : A -> Prop) : R a -> does (pure a) P Q R.
Proof. intros H w. exists [], []. split; [apply ran_refl | auto]. Qed.

Lemma does_and_then {A B} P Q (m : St A) (k : A -> St B) R R' :
  does m P Q R -> (forall a, R a -> does (k a) P Q R') ->
  does (and_then m k) P Q R'.
Proof.
  intros Hm Hk w. unfold and_then.
  destruct (Hm w) as (cs1 & ls1 & H1 & P1 & Q1 & Ra).
  destruct (m w) as [a w1]. cbn [fst snd] in *.
  destruct (Hk a Ra w1) as (cs2 & ls2 & H2 & P2 & Q2 & Rb).
  exists (cs1 ++ cs2)%list, (ls1 ++ ls2)%list.
  split; [eapply ran_trans; eassumption|].
  split; [apply Forall_app; auto|]. split; [apply Forall_app; auto | exact Rb].
Qed.

Lemma does_weaken {A} P Q (m : St A) (R R' : A -> Prop) :
  does m P Q R -> (forall a, R a -> R' a) -> does m P Q R'.
Proof.
  intros Hm H w. destruct (Hm w) as (cs & ls & H1 & P1 & Q1 & Ra).
  exists cs, ls. auto.
Qed.

Lemma does_bind {A B} P Q (m : M A) (k : A -> M B) R R' :
  does m P Q R -> (forall a, R (Return a) -> does (k a) P Q R') ->
  (forall e, R (Raise e) -> R' (Raise e)) ->
  does (bind m k) P Q R'.
Proof.
  intros Hm Hk He. unfold bind. eapply does_and_then; [exact Hm|].
  intros [a|e] Ho; [apply Hk, Ho | apply does_pure, He, Ho].
Qed.

Lemma does_try_except {A} P Q (m : M A) (handler : Exn -> St A) R R' :
  does m P Q R -> (forall a, R (Return a) -> R' a) ->
  (forall e, R (Raise e) -> does (handler e) P Q R') ->
  does (try_except m handler) P Q R'.
Proof.
  intros Hm Hr Hh. unfold try_except. eapply does_and_then; [exact Hm|].
  intros [a|e] Ho; [apply does_pure, Hr, Ho | apply Hh, Ho].
Qed.

Lemma does_try_except_ClientError {A} P Q (m : M A) (handler : string -> M A) R R' :
  does m P Q R -> (forall a, R (Return a) -> R' (Return a)) ->
  (forall what, R (Raise (OtherError what)) -> R' (Raise (OtherError what))) ->
  (forall code, R (Raise (ClientError code)) -> does (handler code) P Q R') ->
  does (try_except_ClientError m handler) P Q R'.
Proof.
  intros Hm Hr Ho Hh. unfold try_except_ClientError.
  eapply does_and_then; [exact Hm|].
  intros [a|[code|what]] H;
    [apply does_pure, Hr, H | apply Hh, H | apply does_pure, Ho, H].
Qed.

Lemma does_lift {A} P Q (m : St A) R :
  does m P Q R -> does (lift m) P Q (fun o => exists a, o = Return a /\ R a).
Proof.
  intros Hm. unfold lift. eapply does_and_then; [exact Hm|].
  intros a Ha. apply does_pure. eauto.
Qed.

Lemma does_stronger {A} (m : St A) (P P' : Call -> Prop) (Q Q' : Line -> Prop) R :
  does m P Q R -> (forall c, P c -> P' c) -> (forall l, Q l -> Q' l) ->
  does m P' Q' R.
Proof.
  intros Hm HP HQ w. destruct (Hm w) as (cs & ls & H1 & P1 & Q1 & Ra).
  exists cs, ls. split; [exact H1|].
  split; [eapply Forall_impl; eauto|]. split; [eapply Forall_impl; eauto | exact Ra].
Qed.

Lemma does_print P (Q : Line -> Prop) l : Q l -> does (print l) P Q (fun _ => True).
Proof.
  intros H w. exists [], [l]. split; [apply ran_print|].
  split; [constructor|]. split; [|exact I]. constructor; [exact H | constructor].
Qed.

Lemma does_say P (Q : Line -> Prop) l :
  Q l -> does (say l) P Q (fun o => exists a, o = Return a).
Proof.
  intros H. unfold say. eapply does_weaken; [apply does_lift, does_print, H|].
  intros o (a & -> & _). eauto.
Qed.

Lemma does_now P Q : does now P Q (fun _ => True).
Proof.
  intros w. exists [], []. split; [apply ran_now|]. auto.
Qed.

Lemma does_call {A} (P : Call -> Prop) Q (m : M A) c :
  (forall w, ran w (snd (m w)) [c] []) -> P c -> does m P Q (fun _ => True).
Proof.
  intros H Hc w. exists [c], []. split; [apply H|]. auto.
Qed.

End Footprints.

(** * Discovery against the bucket *)

Module ListingFacts.
Import s3_client.

Lemma fault_at_call c w i :
  fault_at i (pop_fault (record_call c w)) = fault_at (S i) w.
Proof. unfold fault_at. cbn. destruct (faults w); [destruct i|]; reflexivity. Qed.

Lemma next_fault_call c w : next_fault (record_call c w) = fault_at 0 w.
Proof. unfold next_fault, fault_at. cbn. destruct (faults w); reflexivity. Qed.

Lemma fetch_pages_result prefix ps : forall i w pages w',
  fetch_pages prefix i ps w = (Return pages, w') -> pages = ps.
Proof.
  induction ps as [|p rest IH]; intros i w pages w'; cbn [fetch_pages].
  - intros [= <- _]. reflexivity.
  - unfold bind, and_then, client_call.
    destruct (next_fault (record_call (ListObjectsV2 prefix i) w)); [discriminate|].
    destruct (fetch_pages prefix (S i) rest _) as [[ps'|e] w1] eqn:E;
      [|discriminate].
    intros [= <- _]. f_equal. eapply IH, E.
Qed.

Lemma fetch_pages_answered prefix ps : forall i w,
  answered (length ps) w -> fst (fetch_pages prefix i ps w) = Return ps.
Proof.
  induction ps as [|p rest IH]; intros i w H; cbn [fetch_pages]; [reflexivity|].
  unfold bind, and_then, client_call.
  rewrite next_fault_call, (H 0%nat) by (cbn; lia).
  specialize (IH (S i) (pop_fault (record_call (ListObjectsV2 prefix i) w))).
  destruct (fetch_pages prefix (S i) rest _) as [o w1]. cbn [fst] in *.
  rewrite IH; [reflexivity|].
  intros j Hj. rewrite fault_at_call. apply H. cbn. lia.
Qed.

(** The calls of a listing: one per page, numbered from the first, up
    to the page that fails. *)
Lemma fetch_pages_ran prefix ps : forall i w,
  exists n, (n <= length ps)%nat
            /\ ran w (snd (fetch_pages prefix i ps w))
                   (map (ListObjectsV2 prefix) (seq i n)) [].
Proof.
  induction ps as [|p rest IH]; intros i w; cbn [fetch_pages].
  - exists 0%nat. split; [cbn; lia | apply ran_refl].
  - unfold bind, and_then.
    pose proof (ran_client_read (ListObjectsV2 prefix i) (fun _ => Return p) w) as H1.
    destruct (client_call (ListObjectsV2 prefix i) (fun w0 => (Return p, w0)) w)
      as [[p'|e] w1]; cbn [snd] in H1.
    + destruct (IH (S i) w1) as (n & Hn & H2).
      exists (S n). split; [cbn; lia|].
      destruct (fetch_pages prefix (S i) rest w1) as [[ps'|e] w2]; cbn [snd] in *;
        exact (ran_trans _ _ _ _ _ _ _ H1 H2).
    + exists 1%nat. split; [cbn; lia | exact H1].
Qed.

Lemma concat_chunks n : forall fuel l,
  (0 < n)%nat -> (length l <= fuel)%nat -> concat (chunks fuel n l) = l.
Proof.
  induction fuel as [|fuel IH]; intros l Hn Hl.
  - destruct l; [reflexivity | cbn in Hl; lia].
  - destruct l as [|x r]; [reflexivity|].
    cbn [chunks concat]. rewrite IH; [apply firstn_skipn | exact Hn |].
    rewrite length_skipn. cbn [length] in *. lia.
Qed.

Lemma listed_Some cs : listed (map Some cs) = concat cs.
Proof.
  unfold listed. induction cs as [|c r IH]; [reflexivity|].
  cbn [map flat_map concat]. rewrite IH. reflexivity.
Qed.

(** Paging loses no key and adds none. *)
Lemma listed_pages_of keys : listed (pages_of keys) = keys.
Proof.
  unfold pages_of. destruct keys as [|k r]; [reflexivity|].
  rewrite listed_Some. apply concat_chunks; [lia | reflexivity].
Qed.

(** What S3 lists under a prefix: the keys of the bucket that start
    with it. *)
Lemma listed_keys_spec prefix w k :
  In k (listed_keys prefix w)
  <-> is_Some (objects w !! k) /\ Key.startswith k prefix = true.
Proof.
  unfold listed_keys. rewrite <- list_elem_of_In, merge_sort_Permutation.
  rewrite list_elem_of_In, List.filter_In, <- list_elem_of_In, list_elem_of_fmap.
  split.
  - intros [([k' o] & -> & H) Hs]. apply elem_of_map_to_list in H.
    cbn. split; [eauto | exact Hs].
  - intros [[o H] Hs]. split; [|exact Hs].
    exists (k, o). split; [reflexivity | apply elem_of_map_to_list, H].
Qed.

Lemma paginate_result prefix w pages w' :
  paginate prefix w = (Return pages, w') ->
  listed pages = listed_keys prefix w.
Proof.
  unfold paginate. intros H. apply fetch_pages_result in H. subst pages.
  apply listed_pages_of.
Qed.

End ListingFacts.

Section DiscoveryAgainstBucket.
Import KeyFacts DictFacts DiscoveryFacts ListingFacts.
Local Open Scope string_scope.

Lemma pairs_of_listing pages b j t :
  In (b, j, t) (fst (complete_pairs (scan pages)))
  <-> (j = b +:+ ".json" /\ In j (listed pages))
      /\ (t = b +:+ ".txt" /\ In t (listed pages)).
Proof.
  pose proof (scan_seen pages) as S.
  rewrite complete_pairs_In, <- (seen_json _ _ S), <- (seen_txt _ _ S). split.
  - intros (f & Hin & Ej & Et).
    destruct (seen_lookup _ _ _ _ S Hin) as [-> ->]. auto.
  - intros [Ej Et].
    destruct (seen_entry _ b j (or_introl Ej)) as (f & Hin & E1 & E2).
    exists f. rewrite <- E1, <- E2. auto.
Qed.

Lemma complete_pairs_bases fb :
  forall b, In b (map (fun p : Pair => fst (fst p)) (fst (complete_pairs fb))) ->
            In b (map fst fb).
Proof.
  induction fb as [|[b' f'] rest IH]; intros b; [cbn; tauto|].
  rewrite complete_pairs_cons.
  destruct (json f') as [j'|]; [destruct (txt f') as [t'|]|]; cbn [fst map In];
    intros H; try (right; apply IH, H).
  destruct H as [H|H]; [left; exact H | right; apply IH, H].
Qed.

Lemma complete_pairs_NoDup fb :
  List.NoDup (map fst fb) ->
  List.NoDup (map (fun p : Pair => fst (fst p)) (fst (complete_pairs fb))).
Proof.
  induction fb as [|[b' f'] rest IH]; intros H; [constructor|].
  cbn [map fst] in H. apply List.NoDup_cons_iff in H as [Hn Hr].
  rewrite complete_pairs_cons.
  destruct (json f') as [j'|]; [destruct (txt f') as [t'|]|]; cbn [fst map];
    try (apply IH, Hr).
  constructor; [|apply IH, Hr].
  intros Hin. apply Hn, complete_pairs_bases, Hin.
Qed.

(** X4.  When the listing is answered, [discover_pairs] returns exactly
    the pairs of the bucket: a base with its two keys is returned if and
    only if the bucket holds an object at the base with [.json] and one
    at the base with [.txt], both keys starting with the prefix.  How
    the listing is cut into pages does not show. *)
Theorem discover_pairs_of_bucket self prefix w b j t :
  answered (length (s3_client.pages_of (s3_client.listed_keys prefix w))) w ->
  (In (b, j, t) (fst (discover_pairs self prefix w))
   <-> j = b +:+ ".json" /\ t = b +:+ ".txt"
       /\ is_Some (objects w !! j) /\ is_Some (objects w !! t)
       /\ Key.startswith j prefix = true /\ Key.startswith t prefix = true).
Proof.
  intros H. rewrite discover_pairs_eq.
  pose proof (fetch_pages_answered prefix _ 0%nat w H) as E.
  fold (s3_client.paginate prefix w) in E.
  destruct (s3_client.paginate prefix w) as [o w1] eqn:Ep. cbn [fst] in E. subst o.
  cbn [fst]. rewrite pairs_of_listing, listed_pages_of, !listed_keys_spec. tauto.
Qed.

Lemma complete_pairs_quiet fb : Forall quiet (snd (complete_pairs fb)).
Proof.
  induction fb as [|[b f] rest IH]; [constructor|].
  rewrite complete_pairs_cons.
  destruct (json f); [destruct (txt f)|]; cbn [snd]; auto;
    constructor; auto; exact (fun F : False => F).
Qed.

Lemma discover_pairs_ran self prefix w :
  exists n ls,
    (n <= length (s3_client.pages_of (s3_client.listed_keys prefix w)))%nat
    /\ ran w (snd (discover_pairs self prefix w))
           (map (ListObjectsV2 prefix) (seq 0 n)) ls
    /\ Forall quiet ls.
Proof.
  destruct (fetch_pages_ran prefix
              (s3_client.pages_of (s3_client.listed_keys prefix w)) 0%nat w)
    as (n & Hn & Hr).
  fold (s3_client.paginate prefix w) in Hr.
  rewrite discover_pairs_eq.
  destruct (s3_client.paginate prefix w) as [[pages|e] w1]; cbn [fst snd] in *.
  - exists n, (snd (complete_pairs (scan pages))
               ++ [FoundPairs (length (fst (complete_pairs (scan pages)))) prefix])%list.
    split; [exact Hn|]. split.
    + eapply ran_seq; [exact Hr | | symmetry; apply app_nil_r | reflexivity].
      eapply ran_seq;
        [apply ran_print_all | apply ran_print | reflexivity | reflexivity].
    + apply Forall_app. split; [apply complete_pairs_quiet|].
      constructor; [exact (fun F : False => F) | constructor].
  - exists n, [DiscoveryFailed e]. split; [exact Hn|]. split.
    + eapply ran_seq;
        [exact Hr | apply ran_print | symmetry; apply app_nil_r | reflexivity].
    + constructor; [exact (fun F : False => F) | constructor].
Qed.

Lemma discover_pairs_under self prefix w :
  Forall (under prefix) (fst (discover_pairs self prefix w)).
Proof.
  rewrite discover_pairs_eq.
  destruct (s3_client.paginate prefix w) as [[pages|e] w1] eqn:Ep; cbn [fst];
    [|constructor].
  apply List.Forall_forall. intros [[b j] t] Hin.
  apply pairs_of_listing in Hin as [[_ Hj] [_ Ht]].
  rewrite (paginate_result _ _ _ _ Ep) in Hj, Ht.
  apply listed_keys_spec in Hj as [_ Hj]. apply listed_keys_spec in Ht as [_ Ht].
  split; assumption.
Qed.

(** X5.  [discover_pairs] only lists: its calls are the listing of the
    prefix, page after page from the first, at most one per page of the
    listing, and the bucket is left as it was, whether the listing is
    answered or fails. *)
Theorem discover_pairs_only_lists self prefix w :
  exists n ls,
    (n <= length (s3_client.pages_of (s3_client.listed_keys prefix w)))%nat
    /\ ran w (snd (discover_pairs self prefix w))
           (map (ListObjectsV2 prefix) (seq 0 n)) ls
    /\ objects (snd (discover_pairs self prefix w)) = objects w.
Proof.
  destruct (discover_pairs_ran self prefix w) as (n & ls & Hn & Hr & _).
  exists n, ls. split; [exact Hn|]. split; [exact Hr|].
  apply discover_pairs_frame.
Qed.

(** X6.  No base key comes in two of the pairs [discover_pairs]
    returns, whatever the listing answers. *)
Theorem discover_pairs_distinct_bases self prefix w :
  List.NoDup (map (fun p : Pair => fst (fst p)) (fst (discover_pairs self prefix w))).
Proof.
  rewrite discover_pairs_eq.
  destruct (s3_client.paginate prefix w) as [[pages|e] w1]; cbn [fst];
    [|constructor].
  apply complete_pairs_NoDup.
  pose proof (seen_NoDup _ _ (scan_seen pages)) as H.
  apply NoDup_ListNoDup, H.
Qed.

End DiscoveryAgainstBucket.

(** * The operations of the ingester, one by one *)

Ltac ran_here :=
  constructor;
  [ split; cbn [calls faults length skipn]; rewrite <- ?app_assoc, ?app_nil_r;
    reflexivity
  | cbn [stdout]; rewrite <- ?app_assoc, ?app_nil_r; reflexivity
  | reflexivity
  | cbn [objects]; try reflexivity ].

Ltac unwritten :=
  let k := fresh "k" in
  let Hk := fresh "Hk" in
  intros k Hk; apply lookup_insert_ne; intros <-; apply Hk;
  eexists _, _, _; cbn [In]; eauto 6.

Section Operations.

Variable NFC : str -> str.
Variable json_dumps : Manifest -> str.

Lemma not_wrote_to_cons k key body ct tg cs :
  ~ wrote_to k (PutObject key body ct tg :: cs) -> k <> key.
Proof. intros H ->. apply H. exists body, ct, tg. left. reflexivity. Qed.

Lemma health_check_cases self w :
  (fst (health_check self w) = true <-> fault_at 0 w = None /\ fault_at 1 w = None)
  /\ (fault_at 0 w = None -> fault_at 1 w = None ->
      ran w (snd (health_check self w))
          [HeadBucket; health_write (time_of w)]
          [BucketVerified (bucket_name self); HealthWritten health_key]
      /\ objects (snd (health_check self w))
         = <[health_key := health_object (time_of w)]> (objects w))
  /\ (forall e, fault_at 0 w = Some e ->
      ran w (snd (health_check self w)) [HeadBucket] [HealthFailed e]
      /\ objects (snd (health_check self w)) = objects w)
  /\ (forall e, fault_at 0 w = None -> fault_at 1 w = Some e ->
      ran w (snd (health_check self w))
          [HeadBucket; health_write (time_of w)]
          [BucketVerified (bucket_name self); HealthFailed e]
      /\ objects (snd (health_check self w)) = objects w).
Proof.
  destruct w as [objs fs cs out clk tk]. unfold fault_at, time_of.
  cbn [faults clock ticks].
  unfold health_check, try_except, bind, and_then, say, lift, and_then, ret,
    raise, pure, print, now, s3_client.head_bucket, s3_client.put_object, client_call,
    next_fault, record_call, pop_fault, store.
  cbn [objects faults calls stdout clock ticks fst snd tail].
  destruct fs as [|[e0|] [|[e1|] fs]];
    cbn [objects faults calls stdout clock ticks fst snd tail nth];
    (split; [split; [intros H; try discriminate H; auto
                    | intros [H1 H2]; try discriminate H1; try discriminate H2;
                      reflexivity]|]);
    (split; [intros H1 H2; try discriminate H1; try discriminate H2|
             split; [intros e H1; try discriminate H1
                    | intros e H1 H2; try discriminate H1; try discriminate H2]]).
  all: try injection H1 as <-; try injection H2 as <-.
  all: split; [ran_here | reflexivity].
  all: unwritten.
Qed.

(** X8.  [get_object_info] returns a record exactly when the store
    answers both calls and holds the key.  The record then describes the
    object of the bucket: its key, the length of its body as size, its
    content type or [application/octet-stream], the SHA-256 of its body
    as checksum and the body itself; the calls are the head and the
    get, in this order.  A key that is absent is given up at the head
    call.  The bucket is never changed. *)
Theorem get_object_info_outcome self key w :
  (forall o, fault_at 0 w = None -> fault_at 1 w = None ->
             objects w !! key = Some o ->
             fst (get_object_info self key w) = Some (info_of key o)
             /\ ran w (snd (get_object_info self key w))
                    [HeadObject key; GetObject key] [])
  /\ (fst (get_object_info self key w) <> None ->
      fault_at 0 w = None /\ fault_at 1 w = None /\ is_Some (objects w !! key))
  /\ (fault_at 0 w = None -> objects w !! key = None ->
      ran w (snd (get_object_info self key w)) [HeadObject key]
          [ObjectInfoFailed key (ClientError "404")])
  /\ objects (snd (get_object_info self key w)) = objects w.
Proof.
  destruct w as [objs fs cs out clk tk]. unfold fault_at.
  cbn [faults clock ticks objects].
  unfold get_object_info, try_except, bind, and_then, say, lift, and_then, ret,
    raise, pure, print, s3_client.head_object, s3_client.get_object, client_call,
    next_fault, record_call, pop_fault.
  cbn [objects faults calls stdout clock ticks fst snd tail].
  destruct fs as [|[e0|] [|[e1|] fs]];
    cbn [objects faults calls stdout clock ticks fst snd tail nth];
    destruct (objs !! key) as [o|] eqn:Eo;
    cbn [objects faults calls stdout clock ticks fst snd tail nth];
    rewrite ?Eo;
    cbn [objects faults calls stdout clock ticks fst snd tail nth].
  all: split;
    [ intros o' H1 H2 H3;
      first [ discriminate H1 | discriminate H2 | discriminate H3
            | injection H3 as <-; split; [reflexivity | ran_here] ]
    | split; [ intros H; first [exfalso; apply H; reflexivity | eauto]
             | split; [ intros H1 H2;
                        first [discriminate H1 | discriminate H2 | ran_here]
                      | reflexivity ] ] ].
Qed.

Lemma write_manifest_cases self entries source_prefix w :
  (forall body,
      Unicode.encode (json_dumps (manifest_of self entries source_prefix (time_of w)))
      = Some body ->
      fault_at 0 w = None ->
      fst (write_manifest json_dumps self entries source_prefix w) = true
      /\ ran w (snd (write_manifest json_dumps self entries source_prefix w))
             [PutObject (manifest_key_of (time_of w)) body "application/json" None]
             [ManifestWritten (manifest_key_of (time_of w));
              BatchId (batch_id_of (time_of w)); EntriesCount (length entries)]
      /\ objects (snd (write_manifest json_dumps self entries source_prefix w))
         = <[manifest_key_of (time_of w) := manifest_object body]> (objects w))
  /\ (fst (write_manifest json_dumps self entries source_prefix w) = true ->
      fault_at 0 w = None
      /\ Unicode.encode
           (json_dumps (manifest_of self entries source_prefix (time_of w))) <> None)
  /\ (fst (write_manifest json_dumps self entries source_prefix w) = false ->
      objects (snd (write_manifest json_dumps self entries source_prefix w))
      = objects w
      /\ exists e cs,
          ran w (snd (write_manifest json_dumps self entries source_prefix w))
              cs [ManifestFailed e]).
Proof.
  destruct w as [objs fs cs out clk tk]. unfold fault_at, time_of.
  cbn [faults clock ticks objects].
  unfold write_manifest, try_except, bind, and_then, lift, and_then, now, ret, pure.
  cbn [objects faults calls stdout clock ticks fst snd tail].
  fold (batch_id_of (clk tk)). fold (manifest_key_of (clk tk)).
  fold (manifest_of self entries source_prefix (clk tk)).
  unfold encode_utf8.
  destruct (Unicode.encode (json_dumps (manifest_of self entries source_prefix (clk tk))))
    as [body|].
  - unfold say, lift, and_then, ret, raise, pure, print,
      s3_client.put_object, client_call, next_fault, record_call, pop_fault, store.
    cbn [objects faults calls stdout clock ticks fst snd tail].
    destruct fs as [|[e0|] fs];
      cbn [objects faults calls stdout clock ticks fst snd tail nth].
    all: split;
      [ intros b H1 H2;
        first [ discriminate H2
              | injection H1 as <-;
                split; [reflexivity | split; [ran_here; unwritten | reflexivity]] ]
      | split; [ intros H;
                 first [discriminate H | split; [reflexivity | discriminate]]
               | intros H;
                 first [ discriminate H
                       | split; [reflexivity|]; eexists _, [_]; ran_here ] ] ].
  - unfold raise, pure, print. cbn [fst snd objects].
    split; [intros b H; discriminate H|].
    split; [intros H; discriminate H|].
    intros _. split; [reflexivity|]. eexists _, []. ran_here.
Qed.

(** X10.  [curate_file] touches the curated key and nothing else: its
    calls are, in this order, the read of the curated key, the tagged
    write of the normalised bytes there and the same write without
    tags, stopping after one, two or three of them; a text that cannot
    be encoded is given up before any call.  Every other object of the
    bucket stays as it was, and when no result is returned the whole
    bucket does. *)
Theorem curate_file_confined self base_key txt_key txt_info w :
  exists cs,
    issued w (snd (curate_file NFC self base_key txt_key txt_info w)) cs
    /\ (forall nb, normalized_bytes_of NFC txt_info = Some nb ->
        exists n, (1 <= n <= 3)%nat
                  /\ cs = firstn n [GetObject (curated_key_of base_key);
                                    put_curated (curated_key_of base_key) nb
                                                (Some curated_tagging);
                                    put_curated (curated_key_of base_key) nb None])
    /\ (normalized_bytes_of NFC txt_info = None -> cs = [])
    /\ (forall k, k <> curated_key_of base_key ->
        objects (snd (curate_file NFC self base_key txt_key txt_info w)) !! k
        = objects w !! k)
    /\ (fst (curate_file NFC self base_key txt_key txt_info w) = None ->
        objects (snd (curate_file NFC self base_key txt_key txt_info w)) = objects w).
Proof.
  destruct (normalized_bytes_of NFC txt_info) as [nb|] eqn:E.
  - pose proof (curate_file_curation NFC self base_key txt_key txt_info nb w E) as H.
    destruct (curate_file NFC self base_key txt_key txt_info w) as [r w'].
    cbn [fst snd] in *.
    inversion H; subst;
      match goal with
      | Hi : issued w w' ?cs |- _ => exists cs; split; [exact Hi|]
      end;
      (split; [intros nb' [= <-];
               first [ exists 1%nat; split; [lia | reflexivity]
                     | exists 2%nat; split; [lia | reflexivity]
                     | exists 3%nat; split; [lia | reflexivity] ]|]);
      (split; [discriminate|]);
      match goal with
      | Ho : objects w' = _ |- _ => rewrite Ho
      end;
      (split; [intros k Hk; rewrite ?lookup_insert_ne by congruence; reflexivity|]);
      intros Hr; first [discriminate Hr | reflexivity].
  - destruct (curate_file_unencodable NFC self base_key txt_key txt_info w E)
      as (Hr & Hi & Ho).
    exists []. split; [exact Hi|]. split; [discriminate|]. split; [reflexivity|].
    rewrite Ho. auto.
Qed.

(** X7.  The health check succeeds exactly when the store answers its
    two calls.  It then has written the liveness record, stamped with
    the time it read, at the health key.  When the bucket cannot be
    reached it stops at that call; when the write is refused it has
    announced the bucket and then the failure; both ways it returns
    [False] and the bucket is as it was. *)
Theorem health_check_outcome self w :
  (fst (health_check self w) = true <-> fault_at 0 w = None /\ fault_at 1 w = None)
  /\ (fault_at 0 w = None -> fault_at 1 w = None ->
      ran w (snd (health_check self w))
          [HeadBucket; health_write (time_of w)]
          [BucketVerified (bucket_name self); HealthWritten health_key]
      /\ objects (snd (health_check self w))
         = <[health_key := health_object (time_of w)]> (objects w))
  /\ (forall e, fault_at 0 w = Some e ->
      ran w (snd (health_check self w)) [HeadBucket] [HealthFailed e]
      /\ objects (snd (health_check self w)) = objects w)
  /\ (forall e, fault_at 0 w = None -> fault_at 1 w = Some e ->
      ran w (snd (health_check self w))
          [HeadBucket; health_write (time_of w)]
          [BucketVerified (bucket_name self); HealthFailed e]
      /\ objects (snd (health_check self w)) = objects w).
Proof. apply health_check_cases. Qed.

(** X9.  [write_manifest] succeeds exactly when the manifest text can
    be encoded and the store accepts the write.  It then has issued one
    call: the write of that text, as [application/json] and without
    tags, at [manifests/dt=<day>/ingest-<time>.json], day and time being
    one reading of the clock; the manifest names the bucket, the prefix
    and the entries it was given.  When it fails the bucket is as it
    was and the cause is printed. *)
Theorem write_manifest_outcome self entries source_prefix w :
  (forall body,
      Unicode.encode (json_dumps (manifest_of self entries source_prefix (time_of w)))
      = Some body ->
      fault_at 0 w = None ->
      fst (write_manifest json_dumps self entries source_prefix w) = true
      /\ ran w (snd (write_manifest json_dumps self entries source_prefix w))
             [PutObject (manifest_key_of (time_of w)) body "application/json" None]
             [ManifestWritten (manifest_key_of (time_of w));
              BatchId (batch_id_of (time_of w)); EntriesCount (length entries)]
      /\ objects (snd (write_manifest json_dumps self entries source_prefix w))
         = <[manifest_key_of (time_of w) := manifest_object body]> (objects w))
  /\ (fst (write_manifest json_dumps self entries source_prefix w) = true ->
      fault_at 0 w = None
      /\ Unicode.encode
           (json_dumps (manifest_of self entries source_prefix (time_of w))) <> None)
  /\ (fst (write_manifest json_dumps self entries source_prefix w) = false ->
      objects (snd (write_manifest json_dumps self entries source_prefix w))
      = objects w
      /\ exists e cs,
          ran w (snd (write_manifest json_dumps self entries source_prefix w))
              cs [ManifestFailed e]).
Proof. apply write_manifest_cases. Qed.

End Operations.

(** * The footprint of a run *)

Section RunFootprint.
Import ListingFacts.

Variable NFC : str -> str.
Variable json_dumps : Manifest -> str.

Lemma does_bind_any {A B} P Q (m : M A) (k : A -> M B) :
  does m P Q (fun _ => True) -> (forall a, does (k a) P Q (fun _ => True)) ->
  does (bind m k) P Q (fun _ => True).
Proof. intros Hm Hk. eapply does_bind; [exact Hm | intros a _; apply Hk | auto]. Qed.

Lemma does_and_then_any {A B} P Q (m : St A) (k : A -> St B) R' :
  does m P Q (fun _ => True) -> (forall a, does (k a) P Q R') -> does (and_then m k) P Q R'.
Proof. intros Hm Hk. eapply does_and_then; [exact Hm | intros a _; apply Hk]. Qed.

Lemma does_try_except_any {A} P Q (m : M A) (handler : Exn -> St A) :
  does m P Q (fun _ => True) -> (forall e, does (handler e) P Q (fun _ => True)) ->
  does (try_except m handler) P Q (fun _ => True).
Proof. intros Hm Hh. eapply does_try_except; [exact Hm | auto | intros e _; apply Hh]. Qed.

Lemma does_try_except_ClientError_any {A} P Q (m : M A) (handler : string -> M A) :
  does m P Q (fun _ => True) -> (forall code, does (handler code) P Q (fun _ => True)) ->
  does (try_except_ClientError m handler) P Q (fun _ => True).
Proof.
  intros Hm Hh.
  eapply does_try_except_ClientError; [exact Hm | auto | auto | intros c _; apply Hh].
Qed.

Lemma does_any {A} P Q (m : St A) R : does m P Q R -> does m P Q (fun _ => True).
Proof. intros H. eapply does_weaken; [exact H | auto]. Qed.

Lemma does_head_bucket (P : Call -> Prop) Q :
  P HeadBucket -> does s3_client.head_bucket P Q (fun _ => True).
Proof. apply does_call. intros w. apply ran_client_read with (answer := fun _ => Return tt). Qed.

Lemma does_put_object (P : Call -> Prop) Q key body content_type tagging :
  P (PutObject key body content_type tagging) ->
  does (s3_client.put_object key body content_type tagging) P Q (fun _ => True).
Proof. apply does_call. intros w. apply ran_put_object. Qed.

Lemma does_get_object (P : Call -> Prop) Q key :
  P (GetObject key) -> does (s3_client.get_object key) P Q (fun _ => True).
Proof. apply does_call. intros w. apply ran_get_object. Qed.

Lemma does_head_object (P : Call -> Prop) Q key :
  P (HeadObject key) -> does (s3_client.head_object key) P Q (fun _ => True).
Proof. apply does_call. intros w. apply ran_head_object. Qed.

Ltac footprint :=
  repeat first
    [ apply does_pure; exact I
    | apply does_print
    | eapply does_any; apply does_say
    | apply does_now
    | eapply does_any; apply does_lift
    | apply does_head_bucket
    | apply does_put_object
    | apply does_get_object
    | apply does_head_object
    | apply does_bind_any; [|intros ?]
    | apply does_try_except_any; [|intros ?]
    | apply does_try_except_ClientError_any; [|intros ?]
    | apply does_and_then_any; [|intros ?]
    | match goal with
      | |- does (match ?x with _ => _ end) _ _ _ => destruct x
      | |- does (if ?b then _ else _) _ _ _ => destruct b
      | |- does (raise _) _ _ _ => unfold raise
      | |- does (encode_utf8 _) _ _ _ => unfold encode_utf8
      | |- does (let _ := _ in _) _ _ _ => cbv zeta
      | |- does (ret _) _ _ _ => unfold ret
      end ].

Lemma health_check_does self (P : Call -> Prop) :
  P HeadBucket -> (forall t, P (health_write t)) ->
  does (health_check self) P (fun _ => True) (fun _ => True).
Proof.
  intros H1 H2. unfold health_check. footprint; auto. apply H2.
Qed.

Lemma write_manifest_does self entries source_prefix (P : Call -> Prop) :
  (forall t body, P (PutObject (manifest_key_of t) body "application/json" None)) ->
  does (write_manifest json_dumps self entries source_prefix) P
       (fun _ => True) (fun _ => True).
Proof.
  intros H. unfold write_manifest, encode_utf8. footprint; auto. apply H.
Qed.

Lemma startswith_append (p s : string) : Key.startswith (p +:+ s) p = true.
Proof.
  unfold Key.startswith. induction p as [|c r IH]; [destruct s; reflexivity|].
  rewrite KeyFacts.append_cons. cbn [String.prefix].
  destruct (ascii_dec c c); [exact IH | congruence].
Qed.

Lemma manifest_key_family t : Key.startswith (manifest_key_of t) "manifests/dt=" = true.
Proof. unfold manifest_key_of. apply startswith_append. Qed.

Lemma discover_pairs_does self prefix :
  does (discover_pairs self prefix) (ingest_call prefix) quiet (Forall (under prefix)).
Proof.
  intros w. destruct (discover_pairs_ran self prefix w) as (n & ls & _ & Hr & Hq).
  exists (map (ListObjectsV2 prefix) (seq 0 n)), ls.
  split; [exact Hr|]. split; [|split; [exact Hq | apply discover_pairs_under]].
  apply List.Forall_forall. intros c Hc. apply in_map_iff in Hc as (i & <- & _).
  reflexivity.
Qed.

Lemma process_pair_does self prefix locals p :
  under prefix p ->
  does (process_pair NFC self locals p) (ingest_call prefix) quiet (fun _ => True).
Proof.
  destruct locals as [manifest_entries processed_count].
  destruct p as [[base_key json_key] txt_key]. intros [Hj Ht]. cbn [fst snd] in *.
  unfold process_pair.
  assert (Hc : curated_name (curated_key_of base_key)) by (exists base_key; reflexivity).
  footprint; try exact (fun F : False => F); cbn; auto.
Qed.

Lemma process_pairs_does self prefix pairs : forall locals,
  Forall (under prefix) pairs ->
  does (process_pairs NFC self pairs locals) (ingest_call prefix) quiet (fun _ => True).
Proof.
  induction pairs as [|p rest IH]; intros locals H; cbn [process_pairs].
  - apply does_pure. exact I.
  - apply List.Forall_cons_iff in H as [Hp Hr].
    apply does_and_then_any; [apply process_pair_does, Hp | intros l; apply IH, Hr].
Qed.

Lemma loud {A} (m : St A) P R : does m P quiet R -> does m P (fun _ => True) R.
Proof. intros H. eapply does_stronger; [exact H | auto | auto]. Qed.

Lemma ingest_does self prefix :
  does (ingest NFC json_dumps self prefix) (ingest_call prefix)
       (fun _ => True) (fun _ => True).
Proof.
  unfold ingest.
  do 4 (apply does_and_then_any; [apply does_print; exact I | intros _]).
  apply does_and_then_any;
    [apply health_check_does; cbn; auto | intros healthy].
  destruct healthy; cbn [negb]; [|apply does_pure; exact I].
  apply does_and_then_any; [apply does_print; exact I | intros _].
  eapply does_and_then; [apply loud, discover_pairs_does | intros pairs Hpairs].
  destruct pairs as [|p ps]; [footprint; exact I|].
  apply does_and_then_any; [apply does_print; exact I | intros _].
  apply does_and_then_any; [apply loud, process_pairs_does, Hpairs | intros [es n]].
  destruct es as [|e es]; [footprint; exact I|].
  apply does_and_then_any;
    [ apply write_manifest_does; intros t body; cbn;
      right; right; split; [apply manifest_key_family | auto]
    | intros success ].
  footprint; exact I.
Qed.

(** X11.  A run of [ingest] issues no call but these: the check of the
    bucket, the listing of the prefix, heads and reads of keys under the
    prefix, reads of curated keys, and writes of the liveness record at
    the health key, of curated objects at [curated/<name>.norm.txt] and
    of a manifest under [manifests/dt=].  An object at any other key is
    after the run what it was before: the sources are read, never
    written or deleted, unless the prefix itself lies in one of these
    places. *)
Theorem ingest_confined self prefix w :
  exists cs ls,
    ran w (snd (ingest NFC json_dumps self prefix w)) cs ls
    /\ Forall (ingest_call prefix) cs
    /\ forall k, k <> health_key -> ~ curated_name k ->
                 Key.startswith k "manifests/dt=" = false ->
                 objects (snd (ingest NFC json_dumps self prefix w)) !! k
                 = objects w !! k.
Proof.
  destruct (ingest_does self prefix w) as (cs & ls & Hr & Hc & _ & _).
  exists cs, ls. split; [exact Hr|]. split; [exact Hc|].
  intros k H1 H2 H3. apply (ran_objects _ _ _ _ Hr).
  intros (body & ct & tg & Hin).
  rewrite List.Forall_forall in Hc. specialize (Hc _ Hin). cbn in Hc.
  destruct Hc as [(E & _) | [(E & _) | (E & _)]]; congruence.
Qed.

(** ** What the result of a run tells *)

Lemma quiet_no_failure ls : Forall quiet ls <-> ~ Exists failure_line ls.
Proof. apply List.Forall_Exists_neg. Qed.

Lemma reports_pure_true : reports (pure true).
Proof.
  intros w. exists [], []. split; [apply ran_refl|].
  cbn. split; [discriminate | intros H; inversion H].
Qed.

Lemma reports_after {A} P R (m : St A) (k : A -> St bool) :
  does m P quiet R -> (forall a, R a -> reports (k a)) -> reports (and_then m k).
Proof.
  intros Hm Hk w. unfold and_then.
  destruct (Hm w) as (cs1 & ls1 & H1 & _ & Q1 & Ra).
  destruct (m w) as [a w1]. cbn [fst snd] in *.
  destruct (Hk a Ra w1) as (cs2 & ls2 & H2 & E).
  exists (cs1 ++ cs2)%list, (ls1 ++ ls2)%list.
  split; [eapply ran_trans; eassumption|].
  rewrite E, List.Exists_app. apply quiet_no_failure in Q1. tauto.
Qed.

Lemma reports_before P (m : St bool) (k : bool -> St bool) :
  reports m -> (forall b, does (k b) P quiet (eq b)) -> reports (and_then m k).
Proof.
  intros Hm Hk w. unfold and_then.
  destruct (Hm w) as (cs1 & ls1 & H1 & E).
  destruct (m w) as [b w1]. cbn [fst snd] in *.
  destruct (Hk b w1) as (cs2 & ls2 & H2 & _ & Q2 & <-).
  exists (cs1 ++ cs2)%list, (ls1 ++ ls2)%list.
  split; [eapply ran_trans; eassumption|].
  rewrite E, List.Exists_app. apply quiet_no_failure in Q2. tauto.
Qed.

Lemma reports_guard (m : St bool) (k : St bool) :
  reports m -> reports k ->
  reports (and_then m (fun healthy => if negb healthy then pure false else k)).
Proof.
  intros Hm Hk w. unfold and_then.
  destruct (Hm w) as (cs1 & ls1 & H1 & E).
  destruct (m w) as [[|] w1]; cbn [fst snd negb] in *.
  - destruct (Hk w1) as (cs2 & ls2 & H2 & E2).
    exists (cs1 ++ cs2)%list, (ls1 ++ ls2)%list.
    split; [eapply ran_trans; eassumption|].
    rewrite E2, List.Exists_app. destruct E as [_ E].
    split; [tauto | intros [H|H]; [discriminate (E H) | exact H]].
  - exists cs1, ls1. split; [exact H1 | exact E].
Qed.

Lemma health_check_reports self : reports (health_check self).
Proof.
  intros w.
  destruct (health_check_cases self w) as ([T1 T2] & Hok & H0 & H1).
  destruct (fault_at 0 w) as [e0|] eqn:E0.
  - destruct (H0 e0 eq_refl) as [Hr _].
    eexists _, _. split; [exact Hr|]. split; [intros _; left; exact I|].
    intros _. destruct (fst (health_check self w)); [|reflexivity].
    destruct (T1 eq_refl) as [H _]. discriminate H.
  - destruct (fault_at 1 w) as [e1|] eqn:E1.
    + destruct (H1 e1 eq_refl eq_refl) as [Hr _].
      eexists _, _. split; [exact Hr|]. split; [intros _; right; left; exact I|].
      intros _. destruct (fst (health_check self w)); [|reflexivity].
      destruct (T1 eq_refl) as [_ H]. discriminate H.
    + destruct (Hok eq_refl eq_refl) as [Hr _].
      eexists _, _. split; [exact Hr|].
      rewrite (T2 (conj eq_refl eq_refl)). split; [discriminate|].
      intros H. inversion H as [? ? F | ? ? F]; [destruct F|].
      inversion F as [? ? F' | ? ? F']; [destruct F' | inversion F'].
Qed.

Lemma write_manifest_reports self entries source_prefix :
  reports (write_manifest json_dumps self entries source_prefix).
Proof.
  intros w.
  destruct (write_manifest_cases json_dumps self entries source_prefix w)
    as (Hok & T & F).
  destruct (fst (write_manifest json_dumps self entries source_prefix w)) eqn:E.
  - destruct (T eq_refl) as [E0 Eb].
    destruct (Unicode.encode _) as [body|] eqn:Ee; [|congruence].
    destruct (Hok body eq_refl E0) as (_ & Hr & _).
    eexists _, _. split; [exact Hr|]. split; [discriminate|].
    intros H. inversion H as [? ? F' | ? ? F']; [destruct F'|].
    inversion F' as [? ? F2 | ? ? F2]; [destruct F2|].
    inversion F2 as [? ? F3 | ? ? F3]; [destruct F3 | inversion F3].
  - destruct (F eq_refl) as (_ & e & cs & Hr).
    exists cs, [ManifestFailed e]. split; [exact Hr|].
    split; [intros _; left; exact I | reflexivity].
Qed.

Ltac said :=
  eapply (reports_after (fun _ => True));
  [apply does_print; exact (fun F : False => F) | intros _ _].

Lemma ingest_reports self prefix : reports (ingest NFC json_dumps self prefix).
Proof.
  unfold ingest. do 4 said.
  apply reports_guard; [apply health_check_reports|]. said.
  eapply reports_after; [apply discover_pairs_does | intros pairs Hpairs].
  destruct pairs as [|p ps]; [said; apply reports_pure_true|]. said.
  eapply reports_after; [apply process_pairs_does, Hpairs | intros [es n] _].
  destruct es as [|e es]; [said; apply reports_pure_true|].
  eapply (reports_before (fun _ => True)); [apply write_manifest_reports|].
  intros success.
  do 5 (eapply does_and_then;
        [apply does_print; exact (fun F : False => F) | intros _ _]).
  apply does_pure. reflexivity.
Qed.

Variable boto3_client : gmap string string -> option Exn.

(** Once the constructor has returned, [main] is its [try] block. *)
Lemma main_entry_constructed environ prefix w :
  boto3_client environ = None ->
  main_entry NFC json_dumps boto3_client environ prefix w
  = main NFC json_dumps environ prefix w.
Proof.
  intros H. unfold main_entry, main, construct, try_except, bind, lift, and_then.
  rewrite H. unfold ret, pure.
  destruct (ingest NFC json_dumps (init environ) prefix w) as [success w'].
  reflexivity.
Qed.

Lemma main_entry_raised environ prefix w e :
  boto3_client environ = Some e ->
  exists l, main_entry NFC json_dumps boto3_client environ prefix w
            = (1, snd (print l w))
            /\ failure_line l.
Proof.
  intros H. unfold main_entry, construct, try_except, bind, and_then.
  rewrite H. unfold raise, pure.
  destruct e as [code|what];
    [exists (IngestionError (ClientError code)); split; [reflexivity | exact I]|].
  destruct (String.eqb what "NoCredentialsError");
    [exists CredentialsNotFound | exists (IngestionError (OtherError what))];
    split; (reflexivity || exact I).
Qed.

(** X12.  The exit code of [main] is 1 when the run has printed a
    failure, of the constructor, of the health check or of the write
    of the manifest, and 0 when it has printed none of them: no failure
    of the listing, of a fetch or of a curation shows in the exit code.
    When the constructor raises, the run stops there with code 1 and
    has issued no call. *)
Theorem main_exit_code environ prefix w :
  exists cs ls,
    ran w (snd (main_entry NFC json_dumps boto3_client environ prefix w)) cs ls
    /\ (fst (main_entry NFC json_dumps boto3_client environ prefix w) = 1
        <-> Exists failure_line ls)
    /\ (fst (main_entry NFC json_dumps boto3_client environ prefix w) = 0
        <-> Forall quiet ls)
    /\ (boto3_client environ <> None ->
        cs = [] /\ fst (main_entry NFC json_dumps boto3_client environ prefix w) = 1).
Proof.
  destruct (boto3_client environ) as [e|] eqn:Hc.
  - destruct (main_entry_raised environ prefix w e Hc) as (l & E & Hl).
    rewrite E. cbn [fst snd]. exists [], [l]. split; [apply ran_print|].
    split; [split; [intros _; left; exact Hl | reflexivity]|].
    split; [|auto]. split; [discriminate|].
    intros H. apply List.Forall_inv in H. destruct (H Hl).
  - rewrite (main_entry_constructed environ prefix w Hc). unfold main, and_then.
    destruct (ingest_reports (init environ) prefix w) as (cs & ls & Hr & E).
    destruct (ingest NFC json_dumps (init environ) prefix w) as [success w'].
    cbn [fst snd] in *. exists cs, ls. split; [exact Hr|].
    rewrite quiet_no_failure, <- E.
    destruct success; intuition (try discriminate; auto).
Qed.

End RunFootprint.

(** * UTF-8 *)

Module Utf8Facts.
Import Unicode.

Lemma to_N_byte_of_N n : Byte.to_N (byte_of_N n) = n mod 256.
Proof.
  unfold byte_of_N. destruct (Byte.of_N (n mod 256)) as [b|] eqn:E.
  - apply Byte.to_of_N, E.
  - apply Byte.of_N_None_iff in E. exfalso.
    pose proof (N.mod_lt n 256). lia.
Qed.

Lemma low6_mod b : low6 b = b mod 64.
Proof. unfold low6. change 0x3F with (N.ones 6). apply N.land_ones. Qed.

Lemma land_1F b : N.land b 0x1F = b mod 32.
Proof. change 0x1F with (N.ones 5). apply N.land_ones. Qed.

Lemma land_0F b : N.land b 0x0F = b mod 16.
Proof. change 0x0F with (N.ones 4). apply N.land_ones. Qed.

Lemma land_07 b : N.land b 0x07 = b mod 8.
Proof. change 0x07 with (N.ones 3). apply N.land_ones. Qed.

Lemma shiftr_6 c : N.shiftr c 6 = c / 64.
Proof. apply N.shiftr_div_pow2. Qed.

Lemma shiftr_12 c : N.shiftr c 12 = c / 4096.
Proof. apply N.shiftr_div_pow2. Qed.

Lemma shiftr_18 c : N.shiftr c 18 = c / 262144.
Proof. apply N.shiftr_div_pow2. Qed.

Lemma shiftl_6 c : N.shiftl c 6 = c * 64.
Proof. apply N.shiftl_mul_pow2. Qed.

Lemma shiftl_12 c : N.shiftl c 12 = c * 4096.
Proof. apply N.shiftl_mul_pow2. Qed.

Lemma shiftl_18 c : N.shiftl c 18 = c * 262144.
Proof. apply N.shiftl_mul_pow2. Qed.

Ltac bits :=
  rewrite ?low6_mod, ?land_1F, ?land_0F, ?land_07, ?shiftr_6, ?shiftr_12,
    ?shiftr_18, ?shiftl_6, ?shiftl_12, ?shiftl_18 in *.

Lemma ltb_true a b : a < b -> (a <? b) = true.
Proof. apply N.ltb_lt. Qed.

Lemma ltb_false a b : b <= a -> (a <? b) = false.
Proof. apply N.ltb_ge. Qed.

Lemma eqb_false a b : a <> b -> (a =? b) = false.
Proof. apply N.eqb_neq. Qed.

Lemma between_true lo hi c : lo <= c <= hi -> between lo hi c = true.
Proof.
  intros [H1 H2]. unfold between.
  apply andb_true_intro. split; apply N.leb_le; assumption.
Qed.

Lemma between_spec lo hi c : between lo hi c = true <-> lo <= c <= hi.
Proof. unfold between. rewrite andb_true_iff, !N.leb_le. tauto. Qed.

Lemma scalar_REPLACEMENT : scalar REPLACEMENT.
Proof. unfold scalar, REPLACEMENT. lia. Qed.

Lemma mod_eq a b q r : r < b -> a = b * q + r -> a mod b = r.
Proof. intros H E. symmetry. exact (N.mod_unique a b q r H E). Qed.

Lemma div_eq a b q r : r < b -> a = b * q + r -> a / b = q.
Proof. intros H E. symmetry. exact (N.div_unique a b q r H E). Qed.

(** The last six bits of a number, and the bits before them. *)
Lemma split64 c :
  exists q r, c = 64 * q + r /\ r < 64 /\ c / 64 = q /\ c mod 64 = r.
Proof.
  exists (c / 64), (c mod 64).
  split; [apply N.Div0.div_mod|]. split; [apply N.mod_lt; discriminate | auto].
Qed.

(** One code point, encoded, is decoded to itself, whatever follows. *)
Lemma decode_encoded c bs rest :
  encode_codepoint c = Some bs ->
  decode_replace_N (map Byte.to_N bs ++ rest) = c :: decode_replace_N rest.
Proof.
  unfold encode_codepoint.
  destruct (split64 c) as (a & r0 & Ec & Hr0 & Da & Dr0).
  destruct (split64 a) as (b & r1 & Ea & Hr1 & Db & Dr1).
  destruct (split64 b) as (d & r2 & Eb & Hr2 & Dd & Dr2).
  assert (Db' : c / 4096 = b) by (apply (div_eq c 4096 b (64 * r1 + r0)); lia).
  assert (Dd' : c / 262144 = d)
    by (apply (div_eq c 262144 d (4096 * r2 + 64 * r1 + r0)); lia).
  destruct (N.ltb_spec c 0x80) as [H1|H1].
  { intros [= <-]. cbn [map app]. rewrite to_N_byte_of_N.
    rewrite N.mod_small by lia.
    cbn [decode_replace_N]. rewrite (ltb_true c 0x80 H1). reflexivity. }
  destruct (N.ltb_spec c 0x800) as [H2|H2].
  { intros [= <-]. cbn [map app]. rewrite !to_N_byte_of_N. bits.
    rewrite Da, Dr0, !N.mod_small by lia.
    remember (0xC0 + a) as b0 eqn:E0.
    remember (0x80 + r0) as b1 eqn:E1.
    cbn [decode_replace_N]. unfold is_continuation.
    rewrite (ltb_false b0 0x80), (ltb_false b0 0xC2), (ltb_true b0 0xE0),
      (between_true 0x80 0xBF b1) by lia.
    f_equal. bits.
    rewrite (mod_eq b0 32 6 a), (mod_eq b1 64 2 r0) by lia. lia. }
  destruct (N.ltb_spec c 0x10000) as [H3|H3].
  { destruct (between 0xD800 0xDFFF c) eqn:Hs; [discriminate|].
    assert (Hn : ~ (0xD800 <= c <= 0xDFFF))
      by (rewrite <- between_spec, Hs; discriminate).
    intros [= <-]. cbn [map app]. rewrite !to_N_byte_of_N. bits.
    rewrite Db', Da, Dr1, Dr0, !N.mod_small by lia.
    remember (0xE0 + b) as b0 eqn:E0.
    remember (0x80 + r1) as b1 eqn:E1.
    remember (0x80 + r0) as b2 eqn:E2.
    cbn [decode_replace_N]. unfold second_of_3, is_continuation.
    rewrite (ltb_false b0 0x80), (ltb_false b0 0xC2), (ltb_false b0 0xE0),
      (ltb_true b0 0xF0), (between_true 0x80 0xBF b1),
      (between_true 0x80 0xBF b2) by lia.
    cbn [andb].
    assert (Hc : (if b1 <? 0xA0 then b0 =? 0xE0 else b0 =? 0xED) = false).
    { destruct (N.ltb_spec b1 0xA0); apply eqb_false; lia. }
    rewrite Hc. cbn [negb]. f_equal. bits.
    rewrite (mod_eq b0 16 14 b), (mod_eq b1 64 2 r1), (mod_eq b2 64 2 r0) by lia.
    lia. }
  destruct (N.ltb_spec c 0x110000) as [H4|H4]; [|discriminate].
  intros [= <-]. cbn [map app]. rewrite !to_N_byte_of_N. bits.
  rewrite Dd', Db', Da, Dr2, Dr1, Dr0, !N.mod_small by lia.
  remember (0xF0 + d) as b0 eqn:E0.
  remember (0x80 + r2) as b1 eqn:E1.
  remember (0x80 + r1) as b2 eqn:E2.
  remember (0x80 + r0) as b3 eqn:E3.
  cbn [decode_replace_N]. unfold second_of_4, is_continuation.
  rewrite (ltb_false b0 0x80), (ltb_false b0 0xC2), (ltb_false b0 0xE0),
    (ltb_false b0 0xF0), (ltb_true b0 0xF5), (between_true 0x80 0xBF b1),
    (between_true 0x80 0xBF b2), (between_true 0x80 0xBF b3) by lia.
  cbn [andb].
  assert (Hc : (if b1 <? 0x90 then b0 =? 0xF0 else b0 =? 0xF4) = false).
  { destruct (N.ltb_spec b1 0x90); apply eqb_false; lia. }
  rewrite Hc. cbn [negb]. f_equal. bits.
  rewrite (mod_eq b0 8 30 d), (mod_eq b1 64 2 r2), (mod_eq b2 64 2 r1),
    (mod_eq b3 64 2 r0) by lia.
  lia.
Qed.

Lemma encoded_decodes (s : str) (b : bytes) :
  Unicode.encode s = Some b -> Unicode.decode_replace b = s.
Proof.
  unfold decode_replace. revert b.
  induction s as [|c r IH]; intros b; cbn [Unicode.encode].
  - intros [= <-]. reflexivity.
  - destruct (encode_codepoint c) as [bc|] eqn:Ec; [|discriminate].
    destruct (Unicode.encode r) as [br|]; [|discriminate].
    intros [= <-]. rewrite map_app, (decode_encoded c bc _ Ec), (IH br eq_refl).
    reflexivity.
Qed.

Lemma encode_codepoint_scalar c : encode_codepoint c <> None <-> scalar c.
Proof.
  unfold encode_codepoint, scalar.
  destruct (N.ltb_spec c 0x80); [split; [lia | discriminate]|].
  destruct (N.ltb_spec c 0x800); [split; [lia | discriminate]|].
  destruct (N.ltb_spec c 0x10000).
  - destruct (between 0xD800 0xDFFF c) eqn:Hs.
    + apply between_spec in Hs. split; [congruence | tauto].
    + assert (~ (0xD800 <= c <= 0xDFFF))
        by (rewrite <- between_spec, Hs; discriminate).
      split; [lia | discriminate].
  - destruct (N.ltb_spec c 0x110000); [split; [lia | discriminate]|].
    split; [congruence | lia].
Qed.

Lemma encode_scalar s : Unicode.encode s <> None <-> Forall scalar s.
Proof.
  induction s as [|c r IH]; cbn [Unicode.encode].
  - split; [constructor | discriminate].
  - rewrite List.Forall_cons_iff, <- IH, <- encode_codepoint_scalar.
    destruct (encode_codepoint c), (Unicode.encode r);
      split; try tauto; try congruence; try (intros [? ?]; congruence).
    intros _. split; discriminate.
Qed.

Lemma second_of_3_spec b0 b1 :
  second_of_3 b0 b1 = true ->
  0x80 <= b1 <= 0xBF /\ (b1 < 0xA0 -> b0 <> 0xE0) /\ (0xA0 <= b1 -> b0 <> 0xED).
Proof.
  unfold second_of_3, is_continuation.
  rewrite andb_true_iff, between_spec, negb_true_iff. intros [H1 H2].
  split; [exact H1|].
  destruct (N.ltb_spec b1 0xA0); apply N.eqb_neq in H2; split; intros; lia.
Qed.

Lemma second_of_4_spec b0 b1 :
  second_of_4 b0 b1 = true ->
  0x80 <= b1 <= 0xBF /\ (b1 < 0x90 -> b0 <> 0xF0) /\ (0x90 <= b1 -> b0 <> 0xF4).
Proof.
  unfold second_of_4, is_continuation.
  rewrite andb_true_iff, between_spec, negb_true_iff. intros [H1 H2].
  split; [exact H1|].
  destruct (N.ltb_spec b1 0x90); apply N.eqb_neq in H2; split; intros; lia.
Qed.

Lemma continuation_spec b : is_continuation b = true -> b mod 64 = b - 0x80 /\ 0x80 <= b <= 0xBF.
Proof.
  unfold is_continuation. rewrite between_spec. intros H.
  split; [apply (mod_eq b 64 2 (b - 0x80)); lia | exact H].
Qed.

(** Whatever the bytes, what is decoded can be encoded. *)
Lemma decode_replace_N_scalar : forall n bs,
  (length bs <= n)%nat -> Forall scalar (decode_replace_N bs).
Proof.
  induction n as [|n IH]; intros bs Hl.
  { destruct bs; [constructor | cbn in Hl; lia]. }
  destruct bs as [|b0 r]; [constructor|]. cbn [decode_replace_N].
  assert (Hrep : forall tl, (length tl <= n)%nat ->
                            Forall scalar (REPLACEMENT :: decode_replace_N tl))
    by (intros tl Htl; constructor; [apply scalar_REPLACEMENT | apply IH, Htl]).
  assert (Hone : Forall scalar [REPLACEMENT])
    by (constructor; [apply scalar_REPLACEMENT | constructor]).
  cbn [length] in Hl.
  destruct (N.ltb_spec b0 0x80) as [L1|L1].
  { constructor; [unfold scalar; lia | apply IH; lia]. }
  destruct (N.ltb_spec b0 0xC2) as [L2|L2]; [apply Hrep; lia|].
  destruct (N.ltb_spec b0 0xE0) as [L3|L3].
  { destruct r as [|b1 r1]; [exact Hone|]. cbn [length] in Hl.
    destruct (is_continuation b1) eqn:C1; [|apply Hrep; cbn [length]; lia].
    apply continuation_spec in C1 as [M1 B1].
    constructor; [|apply IH; lia]. bits.
    rewrite (mod_eq b0 32 6 (b0 - 0xC0)), M1 by lia. unfold scalar. lia. }
  destruct (N.ltb_spec b0 0xF0) as [L4|L4].
  { destruct r as [|b1 r1]; [exact Hone|]. cbn [length] in Hl.
    destruct (second_of_3 b0 b1) eqn:C1; [|apply Hrep; cbn [length]; lia].
    apply second_of_3_spec in C1 as (B1 & N1 & N2).
    destruct r1 as [|b2 r2]; [exact Hone|]. cbn [length] in Hl.
    destruct (is_continuation b2) eqn:C2; [|apply Hrep; cbn [length]; lia].
    apply continuation_spec in C2 as [M2 B2].
    constructor; [|apply IH; lia]. bits.
    rewrite (mod_eq b0 16 14 (b0 - 0xE0)), (mod_eq b1 64 2 (b1 - 0x80)), M2 by lia.
    unfold scalar. lia. }
  destruct (N.ltb_spec b0 0xF5) as [L5|L5]; [|apply Hrep; lia].
  destruct r as [|b1 r1]; [exact Hone|]. cbn [length] in Hl.
  destruct (second_of_4 b0 b1) eqn:C1; [|apply Hrep; cbn [length]; lia].
  apply second_of_4_spec in C1 as (B1 & N1 & N2).
  destruct r1 as [|b2 r2]; [exact Hone|]. cbn [length] in Hl.
  destruct (is_continuation b2) eqn:C2; [|apply Hrep; cbn [length]; lia].
  apply continuation_spec in C2 as [M2 B2].
  destruct r2 as [|b3 r3]; [exact Hone|]. cbn [length] in Hl.
  destruct (is_continuation b3) eqn:C3; [|apply Hrep; cbn [length]; lia].
  apply continuation_spec in C3 as [M3 B3].
  constructor; [|apply IH; lia]. bits.
  rewrite (mod_eq b0 8 30 (b0 - 0xF0)), (mod_eq b1 64 2 (b1 - 0x80)), M2, M3 by lia.
  unfold scalar. lia.
Qed.

End Utf8Facts.

Section Utf8.
Import Unicode Text Utf8Facts TextFacts.

Variable NFC : str -> str.

(** X13.  Encoding and decoding are a round trip: the bytes
    [str.encode('utf-8')] gives for a text are decoded by
    [bytes.decode('utf-8', errors='replace')] to that text, with no
    replacement character put in. *)
Theorem encode_decode_round_trip (s : str) (b : bytes) :
  Unicode.encode s = Some b -> Unicode.decode_replace b = s.
Proof. apply encoded_decodes. Qed.

(** X14.  Whatever the bytes, well formed or not, the text decoded from
    them holds scalar values only, so that it can be encoded again: the
    replacement of ill-formed sequences leaves no lone surrogate and no
    value past U+10FFFF. *)
Theorem decode_replace_encodable (b : bytes) :
  Forall scalar (Unicode.decode_replace b)
  /\ Unicode.encode (Unicode.decode_replace b) <> None.
Proof.
  assert (H : Forall scalar (Unicode.decode_replace b))
    by (apply (decode_replace_N_scalar (length (map Byte.to_N b))); lia).
  split; [exact H | apply encode_scalar, H].
Qed.

Lemma normalize_composed_In x s : In x (normalize_composed s) -> In x s \/ x = LF.
Proof.
  unfold normalize_composed. intros H.
  destruct (strip_infix (sub_blank_lines (replace_cr (replace_crlf
             (sub_spaces (remove_Cf (lstrip_char BOM s))))))) as (l & t & E).
  assert (H1 : In x (sub_blank_lines (replace_cr (replace_crlf
                 (sub_spaces (remove_Cf (lstrip_char BOM s)))))))
    by (rewrite E; apply in_or_app; right; apply in_or_app; left; exact H).
  apply sub_blank_lines_In, replace_cr_In in H1 as [H1|H1]; [|auto].
  apply replace_crlf_In in H1 as [H1|H1]; [|auto].
  apply sub_spaces_In in H1. unfold remove_Cf in H1.
  apply List.filter_In in H1 as [H1 _]. left.
  clear -H1. induction s as [|y r IH]; [exact H1|].
  cbn [lstrip_char] in H1. destruct (y =? BOM); [right; apply IH, H1 | exact H1].
Qed.

Lemma normalized_bytes_exist (txt_info : ObjectInfo) :
  (forall s, Forall scalar s -> Forall scalar (NFC s)) ->
  normalized_bytes_of NFC txt_info <> None.
Proof.
  intros HNFC. unfold normalized_bytes_of. apply encode_scalar.
  unfold normalize_text. apply List.Forall_forall. intros x Hx.
  apply normalize_composed_In in Hx as [Hx| ->]; [|unfold scalar, LF; lia].
  revert x Hx. apply List.Forall_forall, HNFC.
  apply (decode_replace_N_scalar (length (map Byte.to_N (info_content txt_info)))).
  lia.
Qed.

(** X15.  When composition keeps scalar values scalar, as NFC does, the
    normalised text of any object can be encoded: [curate_file] never
    gives up a text for a [UnicodeEncodeError], whatever bytes the
    source object holds. *)
Theorem normalized_text_encodable (txt_info : ObjectInfo) :
  (forall s, Forall scalar s -> Forall scalar (NFC s)) ->
  normalized_bytes_of NFC txt_info <> None.
Proof. apply normalized_bytes_exist. Qed.

End Utf8.

(** * What is written can be read back *)

Section ReadBack.
Import Utf8Facts.

Variable NFC : str -> str.
Variable json_dumps : Manifest -> str.

(** X16.  The one change [curate_file] ever makes to the bucket is to
    put an object at the curated key, and the body of that object,
    decoded, is the normalised text of the source bytes; its content
    type is [text/plain; charset=utf-8].  Every other run, the
    short-circuit among them, leaves the bucket as it was. *)
Theorem curate_file_stores_the_text self base_key txt_key txt_info w :
  objects (snd (curate_file NFC self base_key txt_key txt_info w)) = objects w
  \/ exists o,
      objects (snd (curate_file NFC self base_key txt_key txt_info w))
      = <[curated_key_of base_key := o]> (objects w)
      /\ Unicode.decode_replace (Body o)
         = normalize_text NFC (Bytes (info_content txt_info))
      /\ ContentType o = Some curated_content_type
      /\ fst (curate_file NFC self base_key txt_key txt_info w) <> None.
Proof.
  destruct (normalized_bytes_of NFC txt_info) as [nb|] eqn:E.
  - pose proof (curate_file_curation NFC self base_key txt_key txt_info nb w E) as H.
    apply encoded_decodes in E.
    destruct (curate_file NFC self base_key txt_key txt_info w) as [r w'].
    cbn [fst snd] in *.
    inversion H; subst; auto; right;
      match goal with
      | Ho : objects w' = <[_ := ?o]> _ |- _ => exists o
      end;
      (split; [assumption|]); (split; [exact E|]);
      (split; [reflexivity | discriminate]).
  - left. apply (curate_file_unencodable NFC self base_key txt_key txt_info w E).
Qed.

(** X17.  After a successful [write_manifest] the bucket holds, at the
    manifest key, an object of type [application/json] whose body,
    decoded, is the text [json.dumps] gave for the manifest. *)
Theorem manifest_reads_back self entries source_prefix w :
  fst (write_manifest json_dumps self entries source_prefix w) = true ->
  exists o,
    objects (snd (write_manifest json_dumps self entries source_prefix w))
      !! manifest_key_of (time_of w) = Some o
    /\ Unicode.decode_replace (Body o)
       = json_dumps (manifest_of self entries source_prefix (time_of w))
    /\ ContentType o = Some "application/json"%string.
Proof.
  intros H.
  destruct (write_manifest_cases json_dumps self entries source_prefix w)
    as (Hok & T & _).
  destruct (T H) as [E0 Eb].
  destruct (Unicode.encode _) as [body|] eqn:Ee; [|congruence].
  destruct (Hok body eq_refl E0) as (_ & _ & Ho).
  exists (manifest_object body). rewrite Ho, lookup_insert_eq.
  split; [reflexivity|]. split; [apply encoded_decodes, Ee | reflexivity].
Qed.

End ReadBack.

(** * Keys, batch identifiers and checksums *)

Module NameFacts.
Import KeyFacts.
Local Open Scope string_scope.

Lemma after_last_slash_spec p :
  match Key.after_last_slash p with
  | Some t => slash_free t /\ exists d, p = d +:+ "/" +:+ t
  | None => slash_free p
  end.
Proof.
  induction p as [|c r IH]; cbn [Key.after_last_slash]; [intros []|].
  destruct (Key.after_last_slash r) as [t|].
  - destruct IH as [Ht [d E]]. split; [exact Ht|].
    exists (String c d). rewrite append_cons, <- E. reflexivity.
  - destruct (Ascii.eqb_spec c "/") as [->|Hc].
    + split; [exact IH|]. exists EmptyString. reflexivity.
    + intros [H|H]; [congruence | exact (IH H)].
Qed.

Lemma basename_slash_free p : slash_free (Key.basename p).
Proof.
  pose proof (after_last_slash_spec p) as H. unfold Key.basename.
  destruct (Key.after_last_slash p); [apply H | exact H].
Qed.

Lemma append_assoc (a b c : string) : (a +:+ b) +:+ c = a +:+ b +:+ c.
Proof.
  induction a as [|x a IH]; [reflexivity|]. rewrite !append_cons, IH. reflexivity.
Qed.

Lemma append_inv_head (a b c : string) : a +:+ b = a +:+ c -> b = c.
Proof.
  induction a as [|x a IH]; [auto|].
  rewrite !append_cons. intros [= E]. apply IH, E.
Qed.

Lemma replace_offset_fuel (t : string) : forall fuel,
  ~ In "+"%char (list_ascii_of_string t) ->
  (String.length t < fuel)%nat ->
  Key.replace_fuel fuel "+00:00" "Z" (t +:+ "+00:00") = t +:+ "Z".
Proof.
  induction t as [|c r IH]; intros fuel Hc Hf.
  - destruct fuel as [|fuel]; [cbn in Hf; lia|].
    rewrite append_nil_l.
    change (Key.replace_fuel (S fuel) "+00:00" "Z" "+00:00")
      with ("Z" +:+ Key.replace_fuel fuel "+00:00" "Z" EmptyString).
    destruct fuel; reflexivity.
  - destruct fuel as [|fuel]; [cbn in Hf; lia|].
    rewrite !append_cons. cbn [Key.replace_fuel].
    assert (Hp : String.prefix "+00:00" (String c (r +:+ "+00:00")) = false).
    { cbn [String.prefix]. destruct (ascii_dec "+" c) as [<-|]; [|reflexivity].
      exfalso. apply Hc. left. reflexivity. }
    rewrite Hp. f_equal. apply IH.
    + intros H. apply Hc. right. exact H.
    + cbn [String.length] in Hf. lia.
Qed.

Lemma hex_length n x : String.length (Sha256.hex n x) = n.
Proof. induction n as [|n IH]; cbn [Sha256.hex String.length]; congruence. Qed.

Lemma hex_digit_char d : d < 16 -> hex_char (Sha256.hex_digit d).
Proof.
  intros H.
  assert (Hd : In d (map N.of_nat (seq 0 16))).
  { apply in_map_iff. exists (N.to_nat d).
    split; [apply N2Nat.id | apply in_seq; lia]. }
  cbn in Hd. unfold hex_char.
  repeat (destruct Hd as [<-|Hd]; [cbn; tauto|]). destruct Hd.
Qed.

Lemma hex_chars n x : Forall hex_char (list_ascii_of_string (Sha256.hex n x)).
Proof.
  induction n as [|n IH]; cbn [Sha256.hex list_ascii_of_string]; constructor;
    [|exact IH].
  apply hex_digit_char, N.mod_lt. discriminate.
Qed.

Lemma compress_length h block :
  length h = 8%nat -> length (Sha256.compress h block) = 8%nat.
Proof.
  intros H. unfold Sha256.compress.
  rewrite length_map, length_combine, H. reflexivity.
Qed.

Lemma digest_words_length msg : length (Sha256.digest_words msg) = 8%nat.
Proof.
  unfold Sha256.digest_words.
  generalize (Sha256.blocks (length (Sha256.pad msg))
                (Sha256.words (length (Sha256.pad msg)) (Sha256.pad msg))).
  intros bs. assert (H : length Sha256.H0 = 8%nat) by reflexivity.
  revert H. generalize Sha256.H0. induction bs as [|b r IH]; intros h H; [exact H|].
  cbn [fold_left]. apply IH, compress_length, H.
Qed.

Lemma list_ascii_append (a b : string) :
  list_ascii_of_string (a +:+ b) = (list_ascii_of_string a ++ list_ascii_of_string b)%list.
Proof.
  induction a as [|c r IH]; [reflexivity|].
  rewrite append_cons. cbn [list_ascii_of_string app]. rewrite IH. reflexivity.
Qed.

End NameFacts.

Section Names.
Import KeyFacts NameFacts.
Local Open Scope string_scope.

(** X18.  [os.path.basename] returns what follows the last slash of
    the key, the whole key when it has none: the result has no slash,
    and the key is a directory part, empty or ending in a slash,
    followed by the result. *)
Theorem basename_spec (p : string) :
  slash_free (Key.basename p)
  /\ exists d, p = d +:+ Key.basename p
               /\ (d = EmptyString \/ exists d', d = d' +:+ "/").
Proof.
  pose proof (after_last_slash_spec p) as H. unfold Key.basename.
  destruct (Key.after_last_slash p) as [t|].
  - destruct H as [Ht [d E]]. split; [exact Ht|].
    exists (d +:+ "/"). split; [|right; exists d; reflexivity].
    rewrite E. symmetry. apply append_assoc.
  - split; [exact H|]. exists EmptyString. split; [reflexivity | left; reflexivity].
Qed.

(** X19.  The curated key of a base key is flat under [curated/]: one
    component without a slash between [curated/] and [.norm.txt].  Two
    base keys have the same curated key exactly when they have the same
    last component, whatever their directories. *)
Theorem curated_key_by_basename (base1 base2 : string) :
  (exists name, curated_key_of base1 = "curated/" +:+ name +:+ ".norm.txt"
                /\ slash_free name)
  /\ (curated_key_of base1 = curated_key_of base2
      <-> Key.basename base1 = Key.basename base2).
Proof.
  split.
  - exists (Key.basename base1). split; [reflexivity | apply basename_slash_free].
  - unfold curated_key_of. split; [|intros ->; reflexivity].
    intros E. apply append_inv_head in E. apply append_inv_tail in E. exact E.
Qed.

(** X20.  For a clock in UTC, whose ISO rendering ends in [+00:00] with
    no other plus sign, the batch identifier is [ingest-], that
    rendering with [Z] in place of the offset, and the manifest key is
    [manifests/dt=<day>/ingest-<time>Z.json]. *)
Theorem batch_id_utc (now : Datetime) (t : string) :
  isoformat now = t +:+ "+00:00" ->
  ~ In "+"%char (list_ascii_of_string t) ->
  batch_id_of now = "ingest-" +:+ t +:+ "Z"
  /\ manifest_key_of now
     = "manifests/dt=" +:+ strftime_Ymd now +:+ "/ingest-" +:+ t +:+ "Z.json".
Proof.
  intros E Ht.
  assert (B : batch_id_of now = "ingest-" +:+ t +:+ "Z").
  { unfold batch_id_of, Key.replace. rewrite E. f_equal.
    apply replace_offset_fuel; [exact Ht|].
    rewrite length_append. cbn [String.length]. lia. }
  split; [exact B|]. unfold manifest_key_of. rewrite B. f_equal. f_equal.
  change ("/" +:+ ("ingest-" +:+ t +:+ "Z") +:+ ".json"
          = "/" +:+ "ingest-" +:+ t +:+ "Z" +:+ ".json").
  f_equal. rewrite !append_assoc. reflexivity.
Qed.

(** X21.  A checksum is 64 digits of lower-case hexadecimal, whatever
    the content: the eight words of the digest, eight digits each. *)
Theorem calculate_sha256_format (content : bytes) :
  String.length (calculate_sha256 content) = 64%nat
  /\ Forall hex_char (list_ascii_of_string (calculate_sha256 content)).
Proof.
  unfold calculate_sha256, Sha256.hexdigest.
  pose proof (digest_words_length (map Byte.to_N content)) as H.
  destruct (Sha256.digest_words (map Byte.to_N content))
    as [|w0 [|w1 [|w2 [|w3 [|w4 [|w5 [|w6 [|w7 [|w8 ws]]]]]]]]];
    try discriminate H.
  cbn [fold_right]. split.
  - rewrite !length_append, !hex_length. reflexivity.
  - rewrite !list_ascii_append. repeat (apply Forall_app; split); try apply hex_chars.
    constructor.
Qed.

End Names.

(** * A store that answers every call *)

Section FaultFree.
Import ListingFacts Utf8Facts.

Variable NFC : str -> str.
Variable json_dumps : Manifest -> str.

Hypothesis NFC_scalar : forall s, Forall scalar s -> Forall scalar (NFC s).

Lemma calm_fault_at w n : faults w = [] -> fault_at n w = None.
Proof. unfold fault_at. intros ->. destruct n; reflexivity. Qed.

Lemma calm_issued w w' cs : faults w = [] -> issued w w' cs -> faults w' = [].
Proof. intros H [_ E]. rewrite E, H. apply List.skipn_nil. Qed.

Lemma calm_ran w w' cs ls : faults w = [] -> ran w w' cs ls -> faults w' = [].
Proof. intros H [Hi _ _ _]. exact (calm_issued _ _ _ H Hi). Qed.

Lemma get_object_info_calm self key o w :
  faults w = [] -> objects w !! key = Some o ->
  fst (get_object_info self key w) = Some (info_of key o)
  /\ faults (snd (get_object_info self key w)) = []
  /\ objects (snd (get_object_info self key w)) = objects w.
Proof.
  destruct w as [objs fs cs out clk tk]. cbn [faults objects]. intros -> Eo.
  unfold get_object_info, try_except, bind, and_then, say, lift, and_then, ret,
    raise, pure, print, s3_client.head_object, s3_client.get_object, client_call,
    next_fault, record_call, pop_fault.
  cbn [objects faults calls stdout clock ticks fst snd tail]. rewrite Eo.
  cbn [objects faults calls stdout clock ticks fst snd tail]. rewrite Eo.
  cbn [objects faults calls stdout clock ticks fst snd tail]. auto.
Qed.

Lemma curate_file_calm self base_key txt_key txt_info w :
  faults w = [] ->
  exists nb,
    normalized_bytes_of NFC txt_info = Some nb
    /\ fst (curate_file NFC self base_key txt_key txt_info w)
       = Some (result_of (curated_key_of base_key) nb)
    /\ faults (snd (curate_file NFC self base_key txt_key txt_info w)) = []
    /\ forall k, is_Some (objects w !! k) ->
                 is_Some (objects (snd (curate_file NFC self base_key txt_key
                                                    txt_info w)) !! k).
Proof.
  intros Hf.
  destruct (normalized_bytes_of NFC txt_info) as [nb|] eqn:E;
    [|exfalso; exact (normalized_bytes_exist NFC txt_info NFC_scalar E)].
  exists nb. split; [reflexivity|].
  pose proof (curate_file_curation NFC self base_key txt_key txt_info nb w E) as H.
  destruct (curate_file NFC self base_key txt_key txt_info w) as [r w'].
  cbn [fst snd] in *.
  inversion H; subst;
    repeat match goal with
           | F : fault_at ?n w = Some _ |- _ =>
             rewrite (calm_fault_at w n Hf) in F; discriminate F
           end;
    (split; [reflexivity|]);
    (split; [eapply calm_issued; eassumption|]);
    match goal with
    | Ho : objects w' = _ |- _ => rewrite Ho
    end; intros k Hk; [exact Hk|].
  destruct (decide (k = curated_key_of base_key)) as [->|Hne].
  - rewrite lookup_insert_eq. eauto.
  - rewrite lookup_insert_ne by congruence. exact Hk.
Qed.

Lemma discover_pairs_present self prefix w :
  Forall (present (snd (discover_pairs self prefix w)))
         (fst (discover_pairs self prefix w)).
Proof.
  destruct (discover_pairs_frame self prefix w) as [Ho _].
  unfold present. rewrite Ho. clear Ho. rewrite discover_pairs_eq.
  destruct (s3_client.paginate prefix w) as [[pages|e] w1] eqn:Ep; cbn [fst];
    [|constructor].
  apply List.Forall_forall. intros [[b j] t] Hin. cbn [fst snd].
  apply pairs_of_listing in Hin as [[_ Hj] [_ Ht]].
  rewrite (paginate_result _ _ _ _ Ep) in Hj, Ht.
  apply listed_keys_spec in Hj as [Hj _]. apply listed_keys_spec in Ht as [Ht _].
  split; assumption.
Qed.

Lemma discover_pairs_calm self prefix w key :
  faults w = [] ->
  In key (flat_map pair_keys (fst (discover_pairs self prefix w)))
  <-> paired (objects w) prefix key.
Proof.
  intros Hf. rewrite discover_pairs_eq.
  assert (Ha : answered (length (s3_client.pages_of (s3_client.listed_keys prefix w))) w)
    by (intros i _; apply calm_fault_at, Hf).
  pose proof (fetch_pages_answered prefix _ 0%nat w Ha) as E.
  fold (s3_client.paginate prefix w) in E.
  destruct (s3_client.paginate prefix w) as [o w1] eqn:Ep. cbn [fst] in E. subst o.
  cbn [fst]. rewrite in_flat_map. unfold paired. split.
  - intros ([[b j] t] & Hin & Hk).
    apply pairs_of_listing in Hin as [[-> Hj] [-> Ht]].
    rewrite listed_pages_of in Hj, Ht.
    apply listed_keys_spec in Hj as [Hj Sj]. apply listed_keys_spec in Ht as [Ht St].
    exists b. cbn in Hk. destruct Hk as [<- | [<- | []]]; auto 6.
  - intros (b & Hk & Hj & Ht & Sj & St).
    exists (b, b +:+ ".json", b +:+ ".txt")%string. split.
    + apply pairs_of_listing. rewrite listed_pages_of, !listed_keys_spec. auto.
    + destruct Hk as [-> | ->]; cbn; auto.
Qed.

Lemma process_pairs_all self pairs : forall acc k w,
  faults w = [] -> Forall (present w) pairs ->
  exists es,
    fst (process_pairs NFC self pairs (acc, k) w) = (acc ++ es, (k + length pairs)%nat)
    /\ map entry_key es = flat_map pair_keys pairs
    /\ faults (snd (process_pairs NFC self pairs (acc, k) w)) = [].
Proof.
  induction pairs as [|[[b j] t] rest IH]; intros acc k w Hf Hp.
  - exists []. cbn. rewrite app_nil_r, Nat.add_0_r. auto.
  - apply List.Forall_cons_iff in Hp as [[[oj Hj] [ot Ht]] Hrest]. cbn [fst snd] in Hj, Ht.
    rewrite process_pairs_cons, process_pair_eq.
    set (w0 := snd (print (ProcessingPair (Key.basename b)) w)).
    destruct (get_object_info_calm self j oj w0 Hf Hj) as (E1 & F1 & O1).
    destruct (get_object_info self j w0) as [ji w1]. cbn [fst snd] in E1, F1, O1.
    subst ji.
    assert (Ht1 : objects w1 !! t = Some ot) by (rewrite O1; exact Ht).
    destruct (get_object_info_calm self t ot w1 F1 Ht1) as (E2 & F2 & O2).
    destruct (get_object_info self t w1) as [ti w2]. cbn [fst snd] in E2, F2, O2.
    subst ti.
    destruct (curate_file_calm self b t (info_of t ot) w2 F2)
      as (nb & _ & E3 & F3 & P3).
    destruct (curate_file NFC self b t (info_of t ot) w2) as [cr w3].
    cbn [fst snd] in E3, F3, P3. subst cr. cbn [fst snd].
    destruct (IH (acc ++ [json_entry (info_of j oj);
                          txt_entry (info_of t ot) (result_of (curated_key_of b) nb)])%list
                 (S k) (snd (print Blank (snd (print (Processed b) w3)))))
      as (es & E & Hk & F).
    + exact F3.
    + eapply List.Forall_impl; [|exact Hrest].
      intros p [H1 H2]. split; apply P3; rewrite O2, O1; assumption.
    + exists (json_entry (info_of j oj)
              :: txt_entry (info_of t ot) (result_of (curated_key_of b) nb) :: es).
      rewrite E. split; [|split; [|exact F]].
      * rewrite <- app_assoc. cbn [app length]. f_equal. lia.
      * cbn [map flat_map pair_keys app fst snd]. rewrite Hk. reflexivity.
Qed.

(** X22.  On a store that answers every call, the loop of [ingest]
    goes through with every pair whose two objects are in the bucket:
    each pair adds its two entries, the structured one then the text
    one, in the order of the pairs, and is counted as processed. *)
Theorem process_pairs_fault_free self pairs acc k w :
  faults w = [] -> Forall (present w) pairs ->
  exists es,
    fst (process_pairs NFC self pairs (acc, k) w) = (acc ++ es, (k + length pairs)%nat)
    /\ map entry_key es = flat_map pair_keys pairs
    /\ length es = (2 * length pairs)%nat.
Proof.
  intros Hf Hp. destruct (process_pairs_all self pairs acc k w Hf Hp) as (es & E & Hk & _).
  exists es. split; [exact E|]. split; [exact Hk|].
  rewrite <- (length_map entry_key), Hk. clear.
  induction pairs as [|p r IH]; [reflexivity|]. cbn [flat_map pair_keys app length].
  rewrite IH. lia.
Qed.

Hypothesis json_scalar : forall m, Forall scalar (json_dumps m).

Lemma ingest_all self prefix w :
  faults w = [] ->
  fst (ingest NFC json_dumps self prefix w) = true
  /\ ((exists key, paired (checked_bucket w) prefix key) ->
      exists t entries o,
        objects (snd (ingest NFC json_dumps self prefix w)) !! manifest_key_of t
        = Some o
        /\ Unicode.decode_replace (Body o)
           = json_dumps (manifest_of self entries prefix t)
        /\ forall key, In key (map entry_key entries)
                       <-> paired (checked_bucket w) prefix key).
Proof.
  intros Hf. unfold ingest, and_then. cbn [print fst snd].
  match goal with
  | |- context [health_check self ?x] => set (w0 := x)
  end.
  assert (F0 : faults w0 = []) by exact Hf.
  destruct (health_check_cases self w0) as ([_ T] & Hok & _ & _).
  specialize (T (conj (calm_fault_at w0 0 F0) (calm_fault_at w0 1 F0))).
  destruct (Hok (calm_fault_at w0 0 F0) (calm_fault_at w0 1 F0)) as [Hr Ho].
  apply (calm_ran _ _ _ _ F0) in Hr.
  destruct (health_check self w0) as [h w1]. cbn [fst snd] in T, Hr, Ho. subst h.
  cbn [negb].
  match goal with
  | |- context [discover_pairs self prefix ?x] => set (w1' := x)
  end.
  assert (F1 : faults w1' = []) by exact Hr.
  assert (O1 : objects w1' = checked_bucket w) by exact Ho.
  pose proof (discover_pairs_present self prefix w1') as Hp.
  pose proof (fun key => discover_pairs_calm self prefix w1' key F1) as Hm.
  rewrite O1 in Hm.
  destruct (discover_pairs_ran self prefix w1') as (n & ls & _ & Hd & _).
  apply (calm_ran _ _ _ _ F1) in Hd.
  destruct (discover_pairs self prefix w1') as [pairs w2]. cbn [fst snd] in Hp, Hm, Hd.
  destruct pairs as [|p ps].
  { cbn [fst snd]. split; [reflexivity|].
    intros [key Hk]. apply Hm in Hk. destruct Hk. }
  match goal with
  | |- context [process_pairs NFC self (p :: ps) _ ?x] => set (w2' := x)
  end.
  assert (F2 : faults w2' = []) by exact Hd.
  destruct (process_pairs_all self (p :: ps) [] 0%nat w2' F2 Hp) as (es & E & Hk & F3).
  destruct (process_pairs NFC self (p :: ps) ([], 0%nat) w2') as [[entries k] w3].
  cbn [fst snd app] in E, F3. injection E as -> ->.
  destruct es as [|e es]; [discriminate Hk|].
  destruct (write_manifest_cases json_dumps self (e :: es) prefix w3) as (Hw & _ & _).
  destruct (Unicode.encode
              (json_dumps (manifest_of self (e :: es) prefix (time_of w3))))
    as [body|] eqn:Ee;
    [|exfalso; exact (proj2 (encode_scalar _) (json_scalar _) Ee)].
  destruct (Hw body eq_refl (calm_fault_at w3 0 F3)) as (Et & _ & Ow).
  destruct (write_manifest json_dumps self (e :: es) prefix w3) as [success w4].
  cbn [fst snd] in Et, Ow. subst success. unfold pure. cbn [print fst snd objects].
  split; [reflexivity|]. intros _.
  exists (time_of w3), (e :: es), (manifest_object body).
  rewrite Ow, lookup_insert_eq. split; [reflexivity|].
  split; [apply encoded_decodes, Ee|].
  intros key. rewrite Hk. apply Hm.
Qed.

Variable boto3_client : gmap string string -> option Exn.

(** X23.  When the constructor returns and the store answers every
    call, with a manifest text that can be encoded, [main] exits with
    code 0; and when the bucket holds a complete pair under the prefix,
    the run leaves a manifest in the bucket whose entries are exactly
    the keys of the complete pairs under the prefix: every key with
    [.json] or [.txt] whose counterpart with the other extension is
    there too. *)
Theorem main_fault_free environ prefix w :
  boto3_client environ = None ->
  faults w = [] ->
  fst (main_entry NFC json_dumps boto3_client environ prefix w) = 0
  /\ ((exists key, paired (checked_bucket w) prefix key) ->
      exists t entries o,
        objects (snd (main_entry NFC json_dumps boto3_client environ prefix w))
          !! manifest_key_of t
        = Some o
        /\ Unicode.decode_replace (Body o)
           = json_dumps (manifest_of (init environ) entries prefix t)
        /\ forall key, In key (map entry_key entries)
                       <-> paired (checked_bucket w) prefix key).
Proof.
  intros Hc Hf.
  rewrite (main_entry_constructed NFC json_dumps boto3_client environ prefix w Hc).
  destruct (ingest_all (init environ) prefix w Hf) as [E H].
  unfold main, and_then.
  destruct (ingest NFC json_dumps (init environ) prefix w) as [success w'].
  cbn [fst snd] in *. subst success. split; [reflexivity | exact H].
Qed.

End FaultFree.

(** * The scripts *)

Section ScriptFacts.

Variable NFC : str -> str.
Variable json_dumps : Manifest -> str.

Lemma skipn_app_length {A} (l ls : list A) : skipn (length l) (l ++ ls) = ls.
Proof. induction l as [|x r IH]; [reflexivity | exact IH]. Qed.

Lemma call_ran {A} (m : St A) p cs ls :
  ran (world p) (snd (m (world p))) cs ls ->
  call m p = (fst (m (world p)),
              {| world := snd (m (world p)); output := output p ++ map inl ls |}).
Proof.
  intros [_ Hs _ _]. unfold call. destruct (m (world p)) as [a w']. cbn [fst snd] in *.
  rewrite Hs, skipn_app_length. reflexivity.
Qed.

Lemma override_bucket environ : bucket_name (init (override environ)) = new_bucket.
Proof. unfold init, override. cbn [bucket_name]. rewrite lookup_insert_eq. reflexivity. Qed.

(** X24.  [test_new_bucket.py] works on the bucket [cn2025persona]
    whatever the environment says, and when discovery returns no pair,
    for an empty listing or a failed one, it stops there: it has issued
    listing calls only, the bucket is as it was, no health record is
    written, and it has printed its heading, the lines of the
    discovery and a count of zero. *)
Theorem test_new_bucket_without_pairs environ p :
  fst (discover_pairs (init (override environ)) "uploads/" (world p)) = [] ->
  exists n ls,
    ran (world p) (world (test_new_bucket_main NFC json_dumps environ p))
        (map (ListObjectsV2 "uploads/") (seq 0 n)) ls
    /\ objects (world (test_new_bucket_main NFC json_dumps environ p))
       = objects (world p)
    /\ output (test_new_bucket_main NFC json_dumps environ p)
       = (output p ++ [inr TestingNewBucket; inr (UsingBucket new_bucket)]
          ++ map inl ls ++ [inr (DiscoveredPairs 0)])%list.
Proof.
  intros H. unfold test_new_bucket_main.
  destruct (discover_pairs_ran (init (override environ)) "uploads/" (world p))
    as (n & ls & _ & Hr & _).
  destruct (discover_pairs_frame (init (override environ)) "uploads/" (world p))
    as [Ho _].
  exists n, ls.
  rewrite (call_ran _ (echo _ (echo TestingNewBucket p)) _ _ Hr).
  cbn [echo world output]. rewrite H. cbn [echo world output length].
  rewrite override_bucket. split; [exact Hr|]. split; [exact Ho|].
  rewrite <- !app_assoc. reflexivity.
Qed.

Variable boto3_client : gmap string string -> option Exn.

Lemma process_real_transcripts_run environ p :
  exists cs ls ending,
    ran (world p) (world (process_real_transcripts_main NFC json_dumps environ p))
        cs ls
    /\ output (process_real_transcripts_main NFC json_dumps environ p)
       = (output p
          ++ map inr [ProcessingRealData; Rule; ScriptBucket new_bucket;
                      ProcessingPrefix; EmptyLine]
          ++ map inl ls ++ map inr ending)%list
    /\ ((Forall quiet ls /\ ending = success_lines)
        \/ (Exists failure_line ls /\ ending = [ProcessingFailed])).
Proof.
  unfold process_real_transcripts_main.
  destruct (ingest_reports NFC json_dumps (init (override environ)) "Transcripts/"
              (world p)) as (cs & ls & Hr & E).
  exists cs, ls.
  rewrite (call_ran _ (echo _ (echo _ (echo _ (echo _ (echo _ p))))) _ _ Hr).
  rewrite override_bucket. cbn [echo world output].
  destruct (fst (ingest NFC json_dumps (init (override environ)) "Transcripts/"
                   (world p))).
  - exists success_lines. cbn [echo world output]. split; [exact Hr|].
    split; [rewrite <- !app_assoc; reflexivity|].
    left. split; [|reflexivity]. apply quiet_no_failure. intros F.
    apply E in F. discriminate F.
  - exists [ProcessingFailed]. cbn [echo world output]. split; [exact Hr|].
    split; [rewrite <- !app_assoc; reflexivity|].
    right. split; [apply E; reflexivity | reflexivity].
Qed.

(** X25.  [process_real_transcripts.py] prints its heading and makes
    the ingester for the bucket [cn2025persona].  When the constructor
    raises, it prints the error after the two lines of the heading and
    does nothing else.  When the constructor returns, it prints the
    rest of its heading, runs [ingest] on [Transcripts/] and ends on
    its six lines of success, among them that the manifest was created,
    exactly when the ingester printed neither that the health check
    failed nor that the manifest could not be written; otherwise it
    ends on its line of failure. *)
Theorem process_real_transcripts_reports environ p :
  (forall e,
      boto3_client (override environ) = Some e ->
      world (process_real_transcripts_entry NFC json_dumps boto3_client environ p)
      = world p
      /\ output (process_real_transcripts_entry NFC json_dumps boto3_client environ p)
         = (output p ++ map inr [ProcessingRealData; Rule; ScriptError e])%list)
  /\ (boto3_client (override environ) = None ->
      exists cs ls ending,
        ran (world p)
            (world (process_real_transcripts_entry NFC json_dumps boto3_client
                      environ p))
            cs ls
        /\ output (process_real_transcripts_entry NFC json_dumps boto3_client
                     environ p)
           = (output p
              ++ map inr [ProcessingRealData; Rule; ScriptBucket new_bucket;
                          ProcessingPrefix; EmptyLine]
              ++ map inl ls ++ map inr ending)%list
        /\ ((Forall quiet ls /\ ending = success_lines)
            \/ (Exists failure_line ls /\ ending = [ProcessingFailed]))).
Proof.
  unfold process_real_transcripts_entry. split.
  - intros e ->. cbn [echo world output]. split; [reflexivity|].
    rewrite <- !app_assoc. reflexivity.
  - intros ->. apply process_real_transcripts_run.
Qed.

(** X26.  So the script tells of a manifest where none was written:
    when the health check passes and discovery returns no pair, it ends
    on its lines of success, that the manifest was created among them,
    and the one write of the run is the health record. *)
Theorem process_real_transcripts_without_pairs environ p w1 w2 :
  health_check (init (override environ))
               (announced (init (override environ)) "Transcripts/" (world p))
  = (true, w1) ->
  discover_pairs (init (override environ)) "Transcripts/" (snd (print Blank w1))
  = ([], w2) ->
  (exists front,
      output (process_real_transcripts_main NFC json_dumps environ p)
      = (front ++ map inr success_lines)%list)
  /\ writes (calls (world (process_real_transcripts_main NFC json_dumps environ p)))
     = (writes (calls (world p)) ++ [health_write (time_of (world p))])%list.
Proof.
  intros H1 H2. unfold process_real_transcripts_main.
  pose proof (ingest_no_pairs NFC json_dumps _ _ _ _ _ H1 H2) as E.
  unfold call. cbn [echo world output]. rewrite E. cbn [echo world output].
  split.
  - match goal with
    | |- exists front, ((((((?X ++ _) ++ _) ++ _) ++ _) ++ _) ++ _)%list = _ =>
      exists X; generalize X
    end.
    intros X. rewrite <- !app_assoc. reflexivity.
  - cbn [print snd calls].
    destruct (discover_pairs_frame (init (override environ)) "Transcripts/"
                (snd (print Blank w1))) as [_ Hc].
    rewrite H2 in Hc. cbn [snd print calls] in Hc. rewrite Hc.
    destruct (health_check_true _ _ _ _ H1) as [_ Hc1].
    rewrite Hc1, writes_app. reflexivity.
Qed.

Lemma show_pairs_world pairs p : world (show_pairs pairs p) = world p.
Proof.
  unfold show_pairs. generalize (firstn 5 pairs). intros l. revert p.
  induction l as [|[[b j] t] r IH]; intros p; [reflexivity|].
  cbn [fold_left]. rewrite IH. reflexivity.
Qed.

Lemma call_world {A} (m : St A) p :
  world (snd (call m p)) = snd (m (world p)) /\ fst (call m p) = fst (m (world p)).
Proof. unfold call. destruct (m (world p)). auto. Qed.

(** X27.  Whatever it finds, [test_new_bucket.py] issues no call but
    those of the discovery and of [ingest] on [uploads/]: the listing
    of the prefix, reads under it and of curated keys, and the three
    kinds of write of the ingester.  When the constructor raises it
    issues none and prints the error after its heading. *)
Theorem test_new_bucket_confined environ p :
  (exists cs ls,
      ran (world p)
          (world (test_new_bucket_entry NFC json_dumps boto3_client environ p))
          cs ls
      /\ Forall (ingest_call "uploads/") cs
      /\ (boto3_client (override environ) <> None -> cs = []))
  /\ (forall e,
         boto3_client (override environ) = Some e ->
         output (test_new_bucket_entry NFC json_dumps boto3_client environ p)
         = (output p ++ map inr [TestingNewBucket; ScriptError e])%list).
Proof.
  unfold test_new_bucket_entry. split.
  - destruct (boto3_client (override environ)) as [e|].
    + exists [], []. cbn [echo world]. split; [apply ran_refl|].
      split; [constructor | reflexivity].
    + unfold test_new_bucket_main.
      destruct (discover_pairs_does (init (override environ)) "uploads/" (world p))
        as (cs1 & ls1 & R1 & P1 & _ & _).
      rewrite (call_ran _ (echo _ (echo TestingNewBucket p)) _ _ R1).
      cbn [echo world output].
      destruct (fst (discover_pairs (init (override environ)) "uploads/" (world p)))
        as [|pr prs].
      * cbn [echo world]. exists cs1, ls1. split; [exact R1|].
        split; [exact P1 | congruence].
      * match goal with
        | |- context [call ?m ?q] =>
          destruct (call_world m q) as [Ew Ef]; destruct (call m q) as [ok q']
        end.
        cbn [fst snd] in Ew, Ef.
        cbn [echo world] in Ew. rewrite show_pairs_world in Ew. cbn [echo world] in Ew.
        destruct (ingest_does NFC json_dumps (init (override environ)) "uploads/"
                    (snd (discover_pairs (init (override environ)) "uploads/"
                            (world p))))
          as (cs2 & ls2 & R2 & P2 & _ & _).
        exists (cs1 ++ cs2)%list, (ls1 ++ ls2)%list.
        split; [|split; [apply Forall_app; auto | congruence]].
        assert (W : world (if ok then echo IngestionCompleted q'
                           else echo IngestionFailed q') = world q')
          by (destruct ok; reflexivity).
        rewrite W, Ew. eapply ran_trans; eassumption.
  - intros e ->. cbn [echo output]. rewrite <- !app_assoc. reflexivity.
Qed.

End ScriptFacts.

(** * Further sample runs *)

Section MoreSampleRuns.
Import Runtime Examples TextFacts.

(** Composition on the fragment keeps scalar values scalar. *)
Lemma acute_table_scalar :
  Forall (fun p => scalar (fst p) /\ scalar (snd p)) acute_table.
Proof. unfold acute_table, scalar. repeat constructor; cbn; lia. Qed.

Lemma decompose_scalar s : Forall scalar s -> Forall scalar (decompose s).
Proof.
  unfold decompose. induction 1 as [|c r Hc Hr IH]; [constructor|].
  cbn [flat_map]. apply Forall_app. split; [|exact IH].
  unfold decompose_acute. destruct (List.find _ acute_table) as [p|] eqn:E; cbn.
  - apply List.find_some in E as [Hin _].
    pose proof acute_table_scalar as T. rewrite List.Forall_forall in T.
    destruct (T p Hin) as [H1 _].
    constructor; [exact H1|]. constructor; [unfold scalar, ACUTE; lia | constructor].
  - constructor; [exact Hc | constructor].
Qed.

Lemma compose_scalar s : Forall scalar s -> Forall scalar (compose s).
Proof.
  induction s as [| c | c m r IHr IHc] using list_ind2; intros H.
  - constructor.
  - exact H.
  - apply List.Forall_cons_iff in H as [Hc H].
    pose proof H as Hm. apply List.Forall_cons_iff in Hm as [_ Hr].
    change (compose (c :: m :: r))
      with (match (if m =? ACUTE then compose_acute c else None) with
            | Some composed => composed :: compose r
            | None => c :: compose (m :: r)
            end).
    destruct (if m =? ACUTE then compose_acute c else None) as [x|] eqn:E.
    + constructor; [|apply IHr, Hr].
      destruct (m =? ACUTE); [|discriminate E]. unfold compose_acute in E.
      destruct (List.find _ acute_table) as [p|] eqn:F; [|discriminate E].
      injection E as <-. apply List.find_some in F as [Hin _].
      pose proof acute_table_scalar as T. rewrite List.Forall_forall in T.
      apply (T p Hin).
    + constructor; [exact Hc | apply IHc, H].
Qed.

Lemma normalize_NFC_scalar s : Forall scalar s -> Forall scalar (normalize_NFC s).
Proof. intros H. apply compose_scalar, decompose_scalar, H. Qed.

(** The pair of the scenario is found in the bucket. *)
Lemma discover_pairs_of_bucket_witness :
  In ("uploads/m1", "uploads/m1.json", "uploads/m1.txt")%string
     (fst (discover_pairs self "uploads/" (world_of uploads []))).
Proof.
  apply (discover_pairs_of_bucket self "uploads/" (world_of uploads [])).
  - intros i _. unfold fault_at. destruct i; reflexivity.
  - repeat split; try reflexivity; vm_compute; eauto.
Defined.

(** [H], [e] with acute, U+1F600: one, two and four bytes. *)
Lemma encode_decode_round_trip_witness :
  Unicode.decode_replace [x48; xc3; xa9; xf0; x9f; x98; x80] = [0x48; 0xE9; 0x1F600].
Proof. apply encode_decode_round_trip. vm_compute. reflexivity. Defined.

Lemma normalized_text_encodable_witness :
  normalized_bytes_of normalize_NFC minutes_info <> None.
Proof. apply normalized_text_encodable. exact normalize_NFC_scalar. Defined.

Lemma manifest_reads_back_witness :
  exists o,
    objects (snd (write_manifest json_dumps self [json_entry minutes_info] "uploads/"
                    (world_of [] [])))
      !! manifest_key_of (time_of (world_of [] [])) = Some o
    /\ Unicode.decode_replace (Body o)
       = json_dumps (manifest_of self [json_entry minutes_info] "uploads/"
                                 (time_of (world_of [] [])))
    /\ ContentType o = Some "application/json"%string.
Proof.
  apply (manifest_reads_back json_dumps self [json_entry minutes_info] "uploads/"
           (world_of [] [])).
  vm_compute. reflexivity.
Defined.

Lemma batch_id_utc_witness :
  batch_id_of (time_of (world_of [] [])) = "ingest-2025-01-15T08:30:00.250000Z"%string
  /\ manifest_key_of (time_of (world_of [] []))
     = "manifests/dt=2025-01-15/ingest-2025-01-15T08:30:00.250000Z.json"%string.
Proof.
  apply (batch_id_utc (time_of (world_of [] [])) "2025-01-15T08:30:00.250000").
  - reflexivity.
  - intros H. cbn in H. repeat (destruct H as [H|H]; [discriminate H|]). exact H.
Defined.

Lemma json_dumps_scalar m : Forall scalar (json_dumps m).
Proof.
  unfold json_dumps. apply List.Forall_forall. intros c Hc.
  apply in_map_iff in Hc as (b & <- & _).
  pose proof (Byte.to_N_bounded b). unfold scalar. lia.
Qed.

(** The pair of the scenario goes through the loop. *)
Lemma process_pairs_fault_free_witness :
  exists es,
    fst (process_pairs normalize_NFC self
           [("uploads/m1", "uploads/m1.json", "uploads/m1.txt")%string]
           ([], 0%nat) (world_of uploads []))
    = (es, 1%nat)
    /\ map entry_key es = ["uploads/m1.json"; "uploads/m1.txt"]%string
    /\ length es = 2%nat.
Proof.
  apply (process_pairs_fault_free normalize_NFC normalize_NFC_scalar self
           [("uploads/m1", "uploads/m1.json", "uploads/m1.txt")%string]
           [] 0%nat (world_of uploads [])).
  - reflexivity.
  - constructor; [|constructor]. split; vm_compute; eauto.
Defined.

(** The scenario end to end: exit code 0, and a manifest that lists
    the two keys of the pair; [uploads/b.json] has no text and is not
    listed. *)
Lemma main_fault_free_witness :
  fst (main_entry normalize_NFC json_dumps boto3_client ∅ "uploads/"
         (world_of uploads [])) = 0
  /\ exists t entries o,
      objects (snd (main_entry normalize_NFC json_dumps boto3_client ∅ "uploads/"
                      (world_of uploads [])))
        !! manifest_key_of t = Some o
      /\ Unicode.decode_replace (Body o)
         = json_dumps (manifest_of (init ∅) entries "uploads/" t)
      /\ forall key, In key (map entry_key entries)
                     <-> paired (checked_bucket (world_of uploads [])) "uploads/" key.
Proof.
  destruct (main_fault_free normalize_NFC json_dumps normalize_NFC_scalar
              json_dumps_scalar boto3_client ∅ "uploads/" (world_of uploads []))
    as [E H]; [vm_compute; reflexivity | reflexivity |].
  split; [exact E|]. apply H.
  exists "uploads/m1.json"%string, "uploads/m1"%string.
  split; [left; reflexivity|]. repeat split; vm_compute; eauto.
Defined.

(** One credential without the other: the constructor raises, [main]
    prints the failure and exits with code 1 before any call, and the
    script prints the error after its heading. *)
Example constructor_raises :
  main_entry normalize_NFC json_dumps boto3_client
             {[ "AWS_ACCESS_KEY_ID_RAINIER"%string := "AKIA"%string ]} "uploads/"
             (world_of uploads [])
  = (1, snd (print (IngestionError (OtherError "PartialCredentialsError"))
                   (world_of uploads [])))
  /\ output (process_real_transcripts_entry normalize_NFC json_dumps boto3_client
               {[ "AWS_ACCESS_KEY_ID_RAINIER"%string := "AKIA"%string ]}
               {| world := world_of uploads []; output := [] |})
     = [inr ProcessingRealData; inr Rule;
        inr (ScriptError (OtherError "PartialCredentialsError"))].
Proof. vm_compute. auto. Qed.

(** A bucket with nothing under [uploads/]: the script lists and
    stops. *)
Lemma test_new_bucket_without_pairs_witness :
  exists n ls,
    ran (world_of curated [])
        (world (test_new_bucket_main normalize_NFC json_dumps ∅
                  {| world := world_of curated []; output := [] |}))
        (map (ListObjectsV2 "uploads/") (seq 0 n)) ls
    /\ objects (world (test_new_bucket_main normalize_NFC json_dumps ∅
                         {| world := world_of curated []; output := [] |}))
       = objects (world_of curated [])
    /\ output (test_new_bucket_main normalize_NFC json_dumps ∅
                 {| world := world_of curated []; output := [] |})
       = ([inr TestingNewBucket; inr (UsingBucket new_bucket)]
          ++ map inl ls ++ [inr (DiscoveredPairs 0)])%list.
Proof.
  apply (test_new_bucket_without_pairs normalize_NFC json_dumps ∅
           {| world := world_of curated []; output := [] |}).
  vm_compute. reflexivity.
Defined.

(** Nothing under [Transcripts/]: the script tells of a manifest,
    and the health record is the one write. *)
Lemma process_real_transcripts_without_pairs_witness :
  (exists front,
      output (process_real_transcripts_main normalize_NFC json_dumps ∅
                {| world := world_of uploads []; output := [] |})
      = (front ++ map inr success_lines)%list)
  /\ writes (calls (world (process_real_transcripts_main normalize_NFC json_dumps ∅
                             {| world := world_of uploads []; output := [] |})))
     = [health_write (time_of (world_of uploads []))].
Proof.
  apply (process_real_transcripts_without_pairs normalize_NFC json_dumps ∅
           {| world := world_of uploads []; output := [] |}
           (snd (health_check (init (override ∅))
                   (announced (init (override ∅)) "Transcripts/"
                              (world_of uploads []))))
           (snd (discover_pairs (init (override ∅)) "Transcripts/"
                   (snd (print Blank
                           (snd (health_check (init (override ∅))
                                   (announced (init (override ∅)) "Transcripts/"
                                              (world_of uploads []))))))))).
  - cbn [world]. apply run_eq. vm_compute. reflexivity.
  - apply run_eq. vm_compute. reflexivity.
Defined.

End MoreSampleRuns.
